(** * Convertidor de documentos: the CRT extractor, its validation, the Excel
      sheet writer, the size configuration and the batch pipeline

    A shallow embedding of [src/extractors/crtExtractor.ts]
    ([extraerDatosCRT], [bestEffortValidationCRT], [generarExcel],
    [procesarPDFCRT]) and of [src/config/config.ts] ([MAX_FILE_SIZE]),
    together with a model of the batch pipeline (progress reporter,
    result aggregator, orchestrator) that the specification describes.

    JavaScript strings are sequences of UTF-16 code units; regular
    expressions are run by a backtracking matcher that follows the
    ECMAScript pattern semantics (priority of alternatives, greedy and lazy
    quantifiers, capture groups, lookahead, the two anchors). *)

From Stdlib Require Import ZArith NArith Lia List String Ascii QArith Permutation.
From Stdlib Require DecimalString DecimalZ DecimalPos.
From stdpp Require Import gmap strings list sorting.

Set Default Proof Using "Type".
Local Open Scope N_scope.

(** ** JavaScript strings *)

Module JS.

(** A code unit of a JavaScript string (0 .. 65535). *)
Definition jschar := N.
Definition jsstring := list jschar.

(** Decoder of the string literals of this file: the literal's UTF-8 bytes
    are read as code points of the Basic Multilingual Plane (one, two and
    three byte sequences), one code unit each. *)
Fixpoint utf16 (s : string) : jsstring :=
  match s with
  | EmptyString => []
  | String a s1 =>
    let b := N_of_ascii a in
    if b <? 192 then b :: utf16 s1
    else if b <? 224 then
      match s1 with
      | String a2 s2 => ((b - 192) * 64 + (N_of_ascii a2 - 128)) :: utf16 s2
      | EmptyString => [b]
      end
    else
      match s1 with
      | String a2 (String a3 s3) =>
        ((b - 224) * 4096 + (N_of_ascii a2 - 128) * 64 + (N_of_ascii a3 - 128))
          :: utf16 s3
      | _ => [b]
      end
  end.

Definition in_range (lo hi c : N) : bool := (lo <=? c) && (c <=? hi).

(** WhiteSpace and LineTerminator of ECMAScript: the characters of [\s],
    and the ones [String.prototype.trim] removes. *)
Definition is_space (c : jschar) : bool :=
  in_range 9 13 c || (c =? 32) || (c =? 160) || (c =? 5760)
  || in_range 8192 8202 c || (c =? 8232) || (c =? 8233) || (c =? 8239)
  || (c =? 8287) || (c =? 12288) || (c =? 65279).

(** LineTerminator: the characters [.] does not match. *)
Definition is_line_terminator (c : jschar) : bool :=
  (c =? 10) || (c =? 13) || (c =? 8232) || (c =? 8233).

Definition is_digit (c : jschar) : bool := in_range 48 57 c.

Fixpoint trim_start (s : jsstring) : jsstring :=
  match s with
  | c :: s' => if is_space c then trim_start s' else s
  | [] => []
  end.

Definition trim_end (s : jsstring) : jsstring := rev (trim_start (rev s)).

(** [s.trim()] *)
Definition trim (s : jsstring) : jsstring := trim_end (trim_start s).

Definition jsstring_eqb (a b : jsstring) : bool := bool_decide (a = b).

(** Truthiness of a value that is a string or [undefined]. *)
Definition truthy (v : option jsstring) : bool :=
  match v with
  | Some (_ :: _) => true
  | _ => false
  end.

(** [a || b] on such values. *)
Definition js_or (a b : option jsstring) : option jsstring :=
  if truthy a then a else b.

(** [Array.prototype.join] on strings. *)
Fixpoint join (sep : jsstring) (l : list jsstring) : jsstring :=
  match l with
  | [] => []
  | [x] => x
  | x :: l' => x ++ sep ++ join sep l'
  end.

End JS.
Export JS.

(** ** Regular expressions *)

Module Regex.

(** Canonicalize of ECMAScript for a pattern with the [i] flag and without
    the [u] flag: the upper-case mapping of one code unit, kept as it is
    when the mapping has more than one unit or would leave the non-ASCII
    range for ASCII. It is written out for Basic Latin and the Latin-1
    Supplement, where every character of the patterns of this program
    lives (ÿ and µ have their upper case outside these blocks, ß has none
    of one unit); a code unit outside these two blocks is left as it is,
    and its canonical form is outside them too. *)
Definition canonicalize (c : jschar) : jschar :=
  if in_range 97 122 c then c - 32
  else if in_range 224 254 c && negb (c =? 247) then c - 32
  else if c =? 255 then 376
  else if c =? 181 then 924
  else c.

(** A set of characters written in a pattern: a list of ranges lo-hi. *)
Definition ranges := list (N * N).

Definition in_ranges (rs : ranges) (c : jschar) : bool :=
  existsb (fun r => in_range (fst r) (snd r) c) rs.

Definition members (rs : ranges) : list jschar :=
  flat_map (fun r => map N.of_nat (seq (N.to_nat (fst r))
                                     (S (N.to_nat (snd r)) - N.to_nat (fst r)))) rs.

(** CharacterSetMatcher with the [i] flag: some member of the set has the
    same canonical form as the input character. *)
Definition in_ranges_ci (rs : ranges) (c : jschar) : bool :=
  existsb (fun a => canonicalize a =? canonicalize c) (members rs).

Inductive regex : Type :=
  | Eps : regex
  | Chr : (jschar -> bool) -> regex
  | Seq : regex -> regex -> regex
  | Alt : regex -> regex -> regex
  | Star : bool -> regex -> regex      (* [true]: greedy r*, [false]: lazy r*? *)
  | Group : nat -> regex -> regex      (* capture group number n *)
  | Look : regex -> regex              (* (?=r) *)
  | Bol : regex                        (* ^ without the m flag *)
  | Eol : regex.                       (* $ without the m flag *)

(** Atoms *)
Definition lit (c : jschar) : regex := Chr (N.eqb c).
Definition lit_ci (c : jschar) : regex := Chr (in_ranges_ci [(c, c)]).
Definition cls (rs : ranges) : regex := Chr (in_ranges rs).
Definition cls_ci (rs : ranges) : regex := Chr (in_ranges_ci rs).
Definition ws : regex := Chr is_space.                                (* \s *)
Definition digit : regex := Chr is_digit.                             (* \d *)
Definition dot : regex := Chr (fun c => negb (is_line_terminator c)). (* . *)
Definition any : regex := Chr (fun _ => true).                        (* [\s\S] *)

(** Derived forms *)
Definition opt (r : regex) : regex := Alt r Eps.                      (* r? *)
Definition plus (r : regex) : regex := Seq r (Star true r).           (* r+ *)
Definition rep_1_2 (r : regex) : regex := Seq r (opt r).              (* r{1,2} *)
Definition rep_4 (r : regex) : regex := Seq r (Seq r (Seq r r)).      (* r{4} *)

Fixpoint seqs (l : list regex) : regex :=
  match l with
  | [] => Eps
  | [r] => r
  | r :: l' => Seq r (seqs l')
  end.

(** A run of literal characters. *)
Definition str (s : string) : regex := seqs (map lit (utf16 s)).
Definition str_ci (s : string) : regex := seqs (map lit_ci (utf16 s)).

(** Captures: the most recent binding of a group comes first. *)
Definition captures := list (nat * jsstring).

Fixpoint capture (n : nat) (cs : captures) : option jsstring :=
  match cs with
  | [] => None
  | (i, s) :: cs' => if Nat.eqb i n then Some s else capture n cs'
  end.

(** A continuation receives the position reached, the input that is left
    and the captures made so far. *)
Definition cont := nat -> jsstring -> captures -> option (nat * captures).

Definition k_done : cont := fun pos _ cs => Some (pos, cs).

(** One quantifier [r*] or [r*?]: [body] matches one iteration. An
    iteration that consumes nothing is rejected, as RepeatMatcher does, so
    with a fuel above the length of the input the fuel is never used up. *)
Fixpoint star_loop (greedy : bool)
    (body : nat -> jsstring -> captures -> cont -> option (nat * captures))
    (k : cont) (fuel : nat) (pos : nat) (rest : jsstring) (cs : captures)
    {struct fuel} : option (nat * captures) :=
  match fuel with
  | O => None
  | S fuel' =>
    let again : cont := fun pos' rest' cs' =>
      if (length rest' <? length rest)%nat
      then star_loop greedy body k fuel' pos' rest' cs' else None in
    if greedy then
      match body pos rest cs again with
      | Some x => Some x
      | None => k pos rest cs
      end
    else
      match k pos rest cs with
      | Some x => Some x
      | None => body pos rest cs again
      end
  end.

(** The backtracking matcher: [rmatch r pos rest cs k] matches [r] at
    offset [pos], where [rest] is the input from [pos] on, and hands over
    to [k]; the first alternative that lets [k] succeed wins. *)
Fixpoint rmatch (r : regex) (pos : nat) (rest : jsstring) (cs : captures)
    (k : cont) {struct r} : option (nat * captures) :=
  match r with
  | Eps => k pos rest cs
  | Chr p =>
    match rest with
    | c :: rest' => if p c then k (S pos) rest' cs else None
    | [] => None
    end
  | Seq r1 r2 =>
    rmatch r1 pos rest cs (fun pos' rest' cs' => rmatch r2 pos' rest' cs' k)
  | Alt r1 r2 =>
    match rmatch r1 pos rest cs k with
    | Some x => Some x
    | None => rmatch r2 pos rest cs k
    end
  | Star greedy r1 =>
    star_loop greedy (rmatch r1) k (S (length rest)) pos rest cs
  | Group n r1 =>
    rmatch r1 pos rest cs
      (fun pos' rest' cs' => k pos' rest' ((n, firstn (pos' - pos) rest) :: cs'))
  | Look r1 =>
    match rmatch r1 pos rest cs k_done with
    | Some (_, cs') => k pos rest cs'
    | None => None
    end
  | Bol => if Nat.eqb pos 0 then k pos rest cs else None
  | Eol =>
    match rest with
    | [] => k pos rest cs
    | _ :: _ => None
    end
  end.

(** The array a successful match returns: [index], element 0 and the
    capture groups. *)
Record match_result := MatchResult {
  m_index : nat;
  m_whole : jsstring;
  m_caps : captures
}.

(** [m[n]] for n >= 1; [None] is [undefined]. *)
Definition m_group (n : nat) (m : match_result) : option jsstring :=
  capture n (m_caps m).

(** A pattern without the g and y flags is tried at every offset from 0
    on, and the first offset that matches wins. *)
Fixpoint scan (r : regex) (pos : nat) (rest : jsstring) : option match_result :=
  match rmatch r pos rest [] k_done with
  | Some (e, cs) => Some (MatchResult pos (firstn (e - pos) rest) cs)
  | None =>
    match rest with
    | [] => None
    | _ :: rest' => scan r (S pos) rest'
    end
  end.

(** [s.match(r)] *)
Definition js_match (s : jsstring) (r : regex) : option match_result := scan r 0%nat s.

(** [r.test(s)] *)
Definition test (r : regex) (s : jsstring) : bool :=
  match js_match s r with Some _ => true | None => false end.

End Regex.
Export Regex.

(** ** JavaScript objects and values *)

Module Obj.

(** An object with string keys, as a list of its own properties in
    insertion order (the order [Object.keys], [Object.entries] and a
    spreadsheet header row see). None of the keys of this program is an
    array index, so no key is moved to the front. *)
Definition obj (V : Type) := list (jsstring * V).

Fixpoint obj_get {V : Type} (k : jsstring) (o : obj V) : option V :=
  match o with
  | [] => None
  | (k', v) :: o' => if jsstring_eqb k k' then Some v else obj_get k o'
  end.

(** [o[k] = v]: an existing key keeps its place, a new key goes last. *)
Fixpoint obj_set {V : Type} (k : jsstring) (v : V) (o : obj V) : obj V :=
  match o with
  | [] => [(k, v)]
  | (k', v') :: o' =>
    if jsstring_eqb k k' then (k, v) :: o' else (k', v') :: obj_set k v o'
  end.

Definition obj_keys {V : Type} (o : obj V) : list jsstring := map fst o.

(** A value of type [any]. *)
Inductive jsval :=
  | VUndefined
  | VNull
  | VBool (b : bool)
  | VNumber (z : Z)
  | VString (s : jsstring).

(** [o[k]] on a record of [any]: a missing key reads as [undefined]. *)
Definition obj_read (k : jsstring) (o : obj jsval) : jsval :=
  match obj_get k o with Some v => v | None => VUndefined end.

(** [v ?? d] *)
Definition nullish_or (v d : jsval) : jsval :=
  match v with
  | VUndefined | VNull => d
  | _ => v
  end.

(** The value a [Record<string, string>] lookup puts into an object
    literal. *)
Definition of_lookup (v : option jsstring) : jsval :=
  match v with Some s => VString s | None => VUndefined end.

End Obj.
Export Obj.

(** ** Errors, the logger and the effects of the extractor *)

(** [new Error(message)] *)
Inductive jserror := JsError (message : jsstring).

Inductive outcome (A : Type) :=
  | Ok (a : A)
  | Throw (e : jserror).
Arguments Ok {A} a.
Arguments Throw {A} e.

(** What the code hands to the logger. *)
Inductive log_arg :=
  | LogString (s : jsstring)
  | LogRecord (o : obj jsstring)
  | LogObject (o : obj jsval)
  | LogError (e : jserror).

Definition dq : jsstring := [34].     (* the double quote *)
Definition nl : jsstring := [10].     (* \n *)

(** ** The patterns of crtExtractor.ts *)

Module Patterns.

(** The characters of a literal, each as a one-character range. *)
Definition singles (s : string) : ranges := map (fun c => (c, c)) (utf16 s).

(** [[A-ZÁÉÍÓÚÑ]] *)
Definition letters : ranges := (65, 90) :: singles "ÁÉÍÓÚÑ".
(** [[A-Z0-9-]] and [[A-Z0-9]] *)
Definition alnum_dash : ranges := [(65, 90); (48, 57); (45, 45)].
Definition alnum : ranges := [(65, 90); (48, 57)].

(** [\d{1,2}\s+[A-ZÁÉÍÓÚÑ]+\s+\d{4}], with or without the i flag *)
Definition date_body (ci : bool) : regex :=
  seqs [rep_1_2 digit; plus ws; plus ((if ci then cls_ci else cls) letters);
        plus ws; rep_4 digit].

(** [[A-ZÁÉÍÓÚÑ]+\s+\d{4}] with the i flag *)
Definition month_year : regex :=
  seqs [plus (cls_ci letters); plus ws; rep_4 digit].

(** [/FECHA REVISIÓN:\s*(\d{1,2}\s+[A-ZÁÉÍÓÚÑ]+\s+\d{4})/i] *)
Definition re_fecha : regex :=
  seqs [str_ci "FECHA REVISIÓN:"; Star true ws; Group 1 (date_body true)].

(** [/PLANTA:\s*([A-Z0-9-]+)/i] *)
Definition re_planta : regex :=
  seqs [str_ci "PLANTA:"; Star true ws; Group 1 (plus (cls_ci alnum_dash))].

(** [/PLACA PATENTE\s+([A-Z0-9]+)/i] *)
Definition re_placa : regex :=
  seqs [str_ci "PLACA PATENTE"; plus ws; Group 1 (plus (cls_ci alnum))].

(** [CERTIFICADO\s+(?:DE\s+)?REVISI[ÓO]N\s+T[EÉ]CNICA] *)
Definition title_revision : regex :=
  seqs [str_ci "CERTIFICADO"; plus ws; opt (seqs [str_ci "DE"; plus ws]);
        str_ci "REVISI"; cls_ci (singles "ÓO"); str_ci "N"; plus ws;
        str_ci "T"; cls_ci (singles "EÉ"); str_ci "CNICA"].

(** [CERTIFICADO\s+(?:DE\s+)?(?:EMISIONES\s+)?CONTAMINANTES] *)
Definition title_contaminantes : regex :=
  seqs [str_ci "CERTIFICADO"; plus ws; opt (seqs [str_ci "DE"; plus ws]);
        opt (seqs [str_ci "EMISIONES"; plus ws]); str_ci "CONTAMINANTES"].

(** [/CERTIFICADO\s+(?:DE\s+)?REVISI[ÓO]N\s+T[EÉ]CNICA([\s\S]*?)(?=CERTIFICADO\s+(?:DE\s+)?(?:EMISIONES\s+)?CONTAMINANTES|$)/i] *)
Definition re_revision_section : regex :=
  seqs [title_revision; Group 1 (Star false any);
        Look (Alt title_contaminantes Eol)].

(** [/CERTIFICADO\s+(?:DE\s+)?(?:EMISIONES\s+)?CONTAMINANTES([\s\S]*?)(?=CERTIFICADO\s|$)/i] *)
Definition re_contaminantes_section : regex :=
  seqs [title_contaminantes; Group 1 (Star false any);
        Look (Alt (seqs [str_ci "CERTIFICADO"; ws]) Eol)].

(** [/VÁLIDO HASTA(?:\s*FECHA REVISIÓN:)?\s*(?:(\d{1,2}\s+[A-ZÁÉÍÓÚÑ]+\s+\d{4})\s+)?([A-ZÁÉÍÓÚÑ]+\s+\d{4})/i] *)
Definition validoPattern : regex :=
  seqs [str_ci "VÁLIDO HASTA";
        opt (seqs [Star true ws; str_ci "FECHA REVISIÓN:"]);
        Star true ws;
        opt (seqs [Group 1 (date_body true); plus ws]);
        Group 2 month_year].

(** [/(N°B\d+)/i] *)
Definition re_folio : regex := Group 1 (seqs [str_ci "N°B"; plus digit]).

(** The keys of the extracted record. *)
Definition K_nombre : jsstring := utf16 "Nombre PDF".
Definition K_fecha : jsstring := utf16 "Fecha de Revisión".
Definition K_planta : jsstring := utf16 "Planta".
Definition K_placa : jsstring := utf16 "Placa Patente".
Definition K_valido_rt : jsstring := utf16 "Válido Hasta Revisión Técnica".
Definition K_valido_c : jsstring := utf16 "Válido Hasta Contaminantes".
Definition K_folio : jsstring := utf16 "Folio".

(** [requiredPatterns], in the order of its literal:
    [/^\d{1,2}\s+[A-ZÁÉÍÓÚÑ]+\s+\d{4}$/], [/^[A-Z0-9]+$/], [/^.+$/],
    [/^N°B\d+$/i] *)
Definition requiredPatterns : obj regex :=
  [ (K_fecha, seqs [Bol; date_body false; Eol]);
    (K_placa, seqs [Bol; plus (cls alnum); Eol]);
    (K_planta, seqs [Bol; plus dot; Eol]);
    (K_folio, seqs [Bol; str_ci "N°B"; plus digit; Eol]) ].

(** [optionalPatterns]: twice [/^[A-ZÁÉÍÓÚÑ]+\s+\d{4}$/i] *)
Definition optionalPatterns : obj regex :=
  [ (K_valido_rt, seqs [Bol; month_year; Eol]);
    (K_valido_c, seqs [Bol; month_year; Eol]) ].

End Patterns.
Export Patterns.

(** ** The extractor *)

(** A [File]: its name and its bytes. *)
Record File := { file_name : jsstring; file_bytes : list N }.

Section Extractor.

(** The logger singleton of [@/utils/logger] and the text extraction of
    [@/utils/pdf/pdfUtils] live outside this module: the state they act on
    and what they do with it are parameters. *)
Variable world : Type.
Variable logger_info : list log_arg -> world -> world.
Variable logger_error : list log_arg -> world -> world.
Variable parsePDFBuffer : File -> world -> outcome jsstring * world.

(** Code that may throw and that acts on the world. *)
Definition M (A : Type) : Type := world -> outcome A * world.

Definition ret {A : Type} (a : A) : M A := fun w => (Ok a, w).

Definition bind {A B : Type} (m : M A) (f : A -> M B) : M B :=
  fun w =>
    match m w with
    | (Ok a, w') => f a w'
    | (Throw e, w') => (Throw e, w')
    end.

Definition throw {A : Type} (e : jserror) : M A := fun w => (Throw e, w).

(** [try { m } catch (error) { h error }] *)
Definition try_catch {A : Type} (m : M A) (h : jserror -> M A) : M A :=
  fun w =>
    match m w with
    | (Ok a, w') => (Ok a, w')
    | (Throw e, w') => h e w'
    end.

Definition info (args : list log_arg) : M unit :=
  fun w => (Ok tt, logger_info args w).

Definition error (args : list log_arg) : M unit :=
  fun w => (Ok tt, logger_error args w).

Notation "'let*' x ':=' m 'in' k" := (bind m (fun x => k))
  (at level 10, x name, m at level 100, k at level 200).
Notation "m '>>' k" := (bind m (fun _ => k))
  (at level 100, k at level 200, right associativity).

(** Reading a property of [undefined] throws a TypeError. *)
Definition type_error (prop : string) : jserror :=
  JsError (utf16 "Cannot read properties of undefined (reading '"
           ++ utf16 prop ++ utf16 "')").

Definition defined {A : Type} (prop : string) (v : option A) : M A :=
  match v with
  | Some a => ret a
  | None => throw (type_error prop)
  end.

(** [datos[k]] inside a template literal. *)
Definition show (v : option jsstring) : jsstring :=
  match v with Some s => s | None => utf16 "undefined" end.

(** [m ? m[1].trim() : ""] *)
Definition group1_or_empty (m : option match_result) : M jsstring :=
  match m with
  | Some mr => let* g := defined "trim" (m_group 1 mr) in ret (trim g)
  | None => ret []
  end.

(** [(m[2] || m[1] || "").trim()] *)
Definition valido_value (m : match_result) : jsstring :=
  trim (default [] (js_or (js_or (m_group 2 m) (m_group 1 m)) (Some []))).

Definition no_certificate : jserror :=
  JsError (utf16 "El PDF no contiene ningún certificado válido (Revisión Técnica o Emisiones Contaminantes).").

Definition extraerDatosCRT (text : jsstring) : M (obj jsstring) :=
  let datos : obj jsstring := [] in
  info [LogString (utf16 "Iniciando extracción de datos CRT.")] >>
  (* fixed fields *)
  let fechaMatch := js_match text re_fecha in
  let* fecha := group1_or_empty fechaMatch in
  let datos := obj_set K_fecha fecha datos in
  info [LogString (utf16 "Fecha de Revisión extraída: " ++ show (obj_get K_fecha datos))] >>
  let plantaMatch := js_match text re_planta in
  let* planta := group1_or_empty plantaMatch in
  let datos := obj_set K_planta planta datos in
  info [LogString (utf16 "Planta extraída: " ++ show (obj_get K_planta datos))] >>
  let placaMatch := js_match text re_placa in
  let* placa := group1_or_empty placaMatch in
  let datos := obj_set K_placa placa datos in
  info [LogString (utf16 "Placa Patente extraída: " ++ show (obj_get K_placa datos))] >>
  (* the two sections *)
  let revisionSectionMatch := js_match text re_revision_section in
  let contaminantesSectionMatch := js_match text re_contaminantes_section in
  let datos := obj_set K_valido_rt [] datos in
  let datos := obj_set K_valido_c [] datos in
  let* datos :=
    match revisionSectionMatch with
    | Some sm =>
      let* revisionSection := defined "match" (m_group 1 sm) in
      match js_match revisionSection validoPattern with
      | Some vm =>
        let datos := obj_set K_valido_rt (valido_value vm) datos in
        info [LogString (utf16 "Válido Hasta Revisión Técnica extraído: "
                         ++ show (obj_get K_valido_rt datos))] >>
        ret datos
      | None =>
        info [LogString (utf16 "No se encontró 'VÁLIDO HASTA' en la sección de Revisión Técnica.")] >>
        ret datos
      end
    | None =>
      info [LogString (utf16 "No se encontró la sección de Certificado de Revisión Técnica.")] >>
      ret datos
    end in
  let* datos :=
    match contaminantesSectionMatch with
    | Some sm =>
      let* contaminantesSection := defined "match" (m_group 1 sm) in
      match js_match contaminantesSection validoPattern with
      | Some vm =>
        let datos := obj_set K_valido_c (valido_value vm) datos in
        info [LogString (utf16 "Válido Hasta Contaminantes extraído: "
                         ++ show (obj_get K_valido_c datos))] >>
        ret datos
      | None =>
        info [LogString (utf16 "No se encontró 'VÁLIDO HASTA' en la sección de Contaminantes.")] >>
        ret datos
      end
    | None =>
      info [LogString (utf16 "No se encontró la sección de Certificado de Contaminantes.")] >>
      ret datos
    end in
  (* at least one certificate *)
  (if negb (bool_decide (is_Some revisionSectionMatch))
      && negb (bool_decide (is_Some contaminantesSectionMatch))
   then throw no_certificate else ret tt) >>
  (* the folio goes last *)
  let folioMatch := js_match text re_folio in
  let* folio := group1_or_empty folioMatch in
  let datos := obj_set K_folio folio datos in
  info [LogString (utf16 "Folio extraído: " ++ show (obj_get K_folio datos))] >>
  ret datos.

(** [errors.push(msg); logger.info(`Validación: ${msg}`)] *)
Definition report (errors : list jsstring) (msg : jsstring) : M (list jsstring) :=
  let errors := errors ++ [msg] in
  info [LogString (utf16 "Validación: " ++ msg)] >>
  ret errors.

Definition msg_missing (field : jsstring) : jsstring :=
  utf16 "Falta el campo obligatorio " ++ dq ++ field ++ dq ++ utf16 ".".

Definition msg_format (field value : jsstring) : jsstring :=
  utf16 "Campo " ++ dq ++ field ++ dq ++ utf16 " con valor " ++ dq ++ value ++ dq
  ++ utf16 " no coincide con el formato esperado.".

Definition msg_correct (field value : jsstring) : jsstring :=
  utf16 "Validación: Campo " ++ dq ++ field ++ dq ++ utf16 " con valor " ++ dq
  ++ value ++ dq ++ utf16 " es correcto.".

Definition msg_none : jsstring :=
  utf16 "Debe haber al menos uno de los campos " ++ dq
  ++ utf16 "Válido Hasta Revisión Técnica" ++ dq ++ utf16 " o " ++ dq
  ++ utf16 "Válido Hasta Contaminantes" ++ dq ++ utf16 ".".

(** One turn of the loop over [Object.entries(requiredPatterns)]. *)
Definition check_required (datos : obj jsstring) (errors : list jsstring)
    (entry : jsstring * regex) : M (list jsstring) :=
  let (field, pattern) := entry in
  let value := obj_get field datos in
  if negb (truthy value) then report errors (msg_missing field)
  else
    let v := default [] value in
    if negb (test pattern v) then report errors (msg_format field v)
    else info [LogString (msg_correct field v)] >> ret errors.

(** One turn of the loop over [Object.entries(optionalPatterns)]. *)
Definition check_optional (datos : obj jsstring) (errors : list jsstring)
    (entry : jsstring * regex) : M (list jsstring) :=
  let (field, pattern) := entry in
  let value := obj_get field datos in
  if truthy value then
    let v := default [] value in
    if negb (test pattern v) then report errors (msg_format field v)
    else info [LogString (msg_correct field v)] >> ret errors
  else
    info [LogString (utf16 "Validación: Campo " ++ dq ++ field ++ dq
                     ++ utf16 " está vacío (certificado no presente).")] >>
    ret errors.

(** [for (const x of l) { acc = f(acc, x) }] *)
Fixpoint for_of {A St : Type} (f : St -> A -> M St) (l : list A) (acc : St) : M St :=
  match l with
  | [] => ret acc
  | x :: l' => let* acc' := f acc x in for_of f l' acc'
  end.

(** [datos[k] && datos[k].trim() !== ""] as a condition. *)
Definition has_value (datos : obj jsstring) (k : jsstring) : bool :=
  truthy (obj_get k datos)
  && negb (jsstring_eqb (trim (default [] (obj_get k datos))) []).

Definition validation_error (fileName : jsstring) (errors : list jsstring) : jserror :=
  JsError (utf16 "El archivo " ++ fileName ++ utf16 " presenta problemas en los datos:"
           ++ nl ++ utf16 " - " ++ join (nl ++ utf16 " - ") errors).

Definition bestEffortValidationCRT (datos : obj jsstring) (fileName : jsstring)
    : M unit :=
  info [LogString (utf16 "Iniciando validación de datos CRT para el archivo: " ++ fileName)] >>
  let errors : list jsstring := [] in
  let* errors := for_of (check_required datos) requiredPatterns errors in
  let* errors := for_of (check_optional datos) optionalPatterns errors in
  let hasRevisionTecnica := has_value datos K_valido_rt in
  let hasContaminantes := has_value datos K_valido_c in
  let* errors :=
    if negb hasRevisionTecnica && negb hasContaminantes then
      let errors := errors ++ [msg_none] in
      info [LogString (utf16 "Validación: Falta al menos uno de los campos "
                       ++ dq ++ utf16 "Válido Hasta" ++ dq
                       ++ utf16 " (Revisión Técnica o Contaminantes).")] >>
      ret errors
    else ret errors in
  if (0 <? length errors)%nat then throw (validation_error fileName errors)
  else info [LogString (utf16 "Validación completada exitosamente.")].

(** The object literal [datosOrdenados]. *)
Definition datosOrdenados (datosCRT : obj jsstring) : obj jsval :=
  [ (K_nombre, of_lookup (obj_get K_nombre datosCRT));
    (K_fecha, of_lookup (obj_get K_fecha datosCRT));
    (K_planta, of_lookup (obj_get K_planta datosCRT));
    (K_placa, of_lookup (obj_get K_placa datosCRT));
    (K_valido_rt, of_lookup (obj_get K_valido_rt datosCRT));
    (K_valido_c, of_lookup (obj_get K_valido_c datosCRT));
    (K_folio, of_lookup (obj_get K_folio datosCRT)) ].

Definition procesarPDFCRT (file : File) : M (obj jsval) :=
  try_catch
    (info [LogString (utf16 "Procesando archivo PDF: " ++ file_name file)] >>
     let* pdfTexto := parsePDFBuffer file in
     info [LogString (utf16 "Texto completo extraído del PDF:")] >>
     info [LogString pdfTexto] >>
     let* datosCRT := extraerDatosCRT pdfTexto in
     info [LogString (utf16 "Datos extraídos (CRT):")] >>
     info [LogRecord datosCRT] >>
     bestEffortValidationCRT datosCRT (file_name file) >>
     info [LogString (utf16 "Validación completada exitosamente.")] >>
     let datosCRT := obj_set K_nombre (file_name file) datosCRT in
     let ordenados := datosOrdenados datosCRT in
     info [LogString (utf16 "Datos finales (ordenados para Excel):")] >>
     info [LogObject ordenados] >>
     ret ordenados)
    (fun e =>
       error [LogString (utf16 "Error al procesar el PDF CRT:"); LogError e] >>
       throw e).

End Extractor.

Arguments ret {world A} a.
Arguments throw {world A} e.

(** ** The Excel sheet *)

Module Excel.

(** A sheet: its name and the cells written, by (row, column) from 1. *)
Record worksheet := Worksheet {
  sheet_name : jsstring;
  sheet_cells : gmap (nat * nat) jsval
}.

(** [XlsxPopulate.fromBlankAsync()] and its first sheet. *)
Definition blank : worksheet := Worksheet (utf16 "Sheet1") ∅.

(** [sheet.name(n)] *)
Definition set_name (n : jsstring) (s : worksheet) : worksheet :=
  Worksheet n (sheet_cells s).

(** [sheet.cell(row, col).value(v)] *)
Definition cell_value (row col : nat) (v : jsval) (s : worksheet) : worksheet :=
  Worksheet (sheet_name s) (<[(row, col) := v]> (sheet_cells s)).

(** [l.forEach((x, index) => ...)] on a state [St]. *)
Fixpoint forEach_from {A St : Type} (f : A -> nat -> St -> St) (l : list A)
    (index : nat) (s : St) : St :=
  match l with
  | [] => s
  | x :: l' => forEach_from f l' (S index) (f x index s)
  end.

Definition forEach {A St : Type} (f : A -> nat -> St -> St) (l : list A) (s : St) : St :=
  forEach_from f l 0%nat s.

Definition headers : list jsstring :=
  [ K_nombre; K_fecha; K_planta; K_placa; K_valido_rt; K_valido_c; K_folio ].

(** What [saveAs] receives: the workbook and the name of the download. *)
Record download := Download {
  download_name : jsstring;
  download_sheet : worksheet
}.

Definition generarExcel (registros : list (obj jsval)) : outcome download :=
  if Nat.eqb (length registros) 0 then
    Throw (JsError (utf16 "No hay registros para generar el Excel."))
  else
    let sheet := set_name (utf16 "Datos") blank in
    let sheet :=
      forEach (fun header colIndex sh =>
                 cell_value 1 (colIndex + 1) (VString header) sh) headers sheet in
    let sheet :=
      forEach (fun registro rowIndex sh =>
                 forEach (fun header colIndex sh' =>
                            let value := nullish_or (obj_read header registro) (VString []) in
                            cell_value (rowIndex + 2) (colIndex + 1) value sh')
                         headers sh) registros sheet in
    Ok (Download (utf16 "Consolidado.xlsx") sheet).

End Excel.
Export Excel.

(** ** config.ts *)

Module Config.

(** The digits of [parseInt] in radix 10, most significant first. *)
Fixpoint digits_prefix (s : jsstring) : jsstring :=
  match s with
  | c :: s' => if is_digit c then c :: digits_prefix s' else []
  | [] => []
  end.

Definition digits_value (ds : jsstring) : Z :=
  fold_left (fun acc c => (acc * 10 + (Z.of_N c - 48))%Z) ds 0%Z.

(** A Number that is not NaN, among those [parseInt] returns: an integer
    that a double holds, negative zero, or an infinity. *)
Inductive number :=
  | Integer (z : Z)
  | NegativeZero
  | Infinity (negative : bool).

(** The double nearest to an integer [m >= 0], a tie going to the even
    significand of 53 bits; [None] when that is 2^1024 or more, where the
    Number is an infinity. *)
Definition round_double (m : Z) : option Z :=
  let e := (Z.log2 m - 52)%Z in
  if (e <=? 0)%Z then Some m
  else
    let q := (m / 2 ^ e)%Z in
    let r := (m mod 2 ^ e)%Z in
    let half := (2 ^ (e - 1))%Z in
    let q := if (half <? r)%Z || ((r =? half)%Z && Z.odd q) then (q + 1)%Z else q in
    let v := (q * 2 ^ e)%Z in
    if (2 ^ 1024 <=? v)%Z then None else Some v.

(** The Number for [sign * mathInt], the last steps of [parseInt]: a zero
    keeps the sign, any other integer is rounded to a double. *)
Definition to_number (negative : bool) (mathInt : Z) : number :=
  if (mathInt =? 0)%Z then (if negative then NegativeZero else Integer 0)
  else
    match round_double mathInt with
    | Some v => Integer (if negative then - v else v)
    | None => Infinity negative
    end.

(** [parseInt(s, 10)]: white space is skipped, a sign is read, then the
    longest run of decimal digits; no digit at all gives NaN ([None]),
    and otherwise the result is the Number for the integer that the digits
    write, with the sign. (ECMAScript lets an implementation read the digits
    after the twentieth significant one as zeros; they are read as they are
    here.) *)
Definition parseInt10 (s : jsstring) : option number :=
  let s := trim_start s in
  let (negative, s) :=
    match s with
    | 45 :: s' => (true, s')
    | 43 :: s' => (false, s')
    | _ => (false, s)
    end in
  match digits_prefix s with
  | [] => None
  | ds => Some (to_number negative (digits_value ds))
  end.

(** [process.env]: a variable is a string or is not set. *)
Definition env := gmap string jsstring.

(** [parseInt(process.env.NEXT_PUBLIC_MAX_FILE_SIZE || "5242880", 10)] *)
Definition MAX_FILE_SIZE (e : env) : option number :=
  parseInt10 (default [] (js_or (e !! "NEXT_PUBLIC_MAX_FILE_SIZE"%string)
                                (Some (utf16 "5242880")))).



End Config.
Export Config.

(** ** The results table (VirtualizedResultsTable.tsx) *)

Module Table.

Local Open Scope nat_scope.

(** [PERFORMANCE_CONFIG] of types/results.ts *)
Definition ROW_HEIGHT : nat := 35.
Definition OVERSCAN : nat := 10.
Definition MIN_COLUMN_WIDTH : nat := 80.
Definition MAX_COLUMN_WIDTH : nat := 400.

Section Cells.

(** The numbers of a cell, and the digits [String] gives them: both are
    left open. *)
Variable number : Type.
Variable number_to_string : number -> jsstring.

(** A cell of type [string | number | null]. *)
Inductive cell :=
  | CNull
  | CNumber (n : number)
  | CString (s : jsstring).

(** [v ?? ""], where [None] is [undefined]: what [row[idx]] is past the
    end of a row. *)
Definition or_empty (v : option cell) : cell :=
  match v with
  | None | Some CNull => CString []
  | Some c => c
  end.

(** [String(c)] *)
Definition to_string (c : cell) : jsstring :=
  match c with
  | CNull => utf16 "null"
  | CNumber n => number_to_string n
  | CString s => s
  end.

(** [String(row[idx] ?? "").length * 8 + 24]: the width that one cell
    asks for. *)
Definition cell_width (idx : nat) (row : list cell) : nat :=
  length (to_string (or_empty (row !! idx))) * 8 + 24.

(** The body of the [useMemo] of [columnWidths], for one column. *)
Definition column_width (rows : list (list cell)) (header : jsstring) (idx : nat) : nat :=
  let headerWidth := length header * 10 + 24 in
  let maxContentWidth := headerWidth in
  let sampleSize := Nat.min (length rows) 100 in
  let maxContentWidth :=
    fold_left
      (fun maxContentWidth i =>
         match rows !! i with
         | Some row =>
           let cellValue := to_string (or_empty (row !! idx)) in
           let cellWidth := length cellValue * 8 + 24 in
           Nat.max maxContentWidth cellWidth
         | None => maxContentWidth
         end)
      (seq 0 sampleSize) maxContentWidth in
  Nat.min (Nat.max maxContentWidth MIN_COLUMN_WIDTH) MAX_COLUMN_WIDTH.

Definition columnWidths (headers : list jsstring) (rows : list (list cell)) : list nat :=
  imap (fun idx header => column_width rows header idx) headers.

(** [columnWidths.reduce((sum, w) => sum + w, 0)] *)
Definition totalWidth (widths : list nat) : nat :=
  fold_left (fun sum w => sum + w) widths 0.

(** A row as an object keyed by the headers. A key that is set twice
    keeps the value set last. The key [__proto__] is no own property of an
    object literal and is left out of what follows. *)
Definition RowData := obj (option cell).

Definition row_object (headers : list jsstring) (row : list cell) : RowData :=
  forEach (fun header idx (o : RowData) => obj_set header (row !! idx) o) headers [].

Definition tableData (headers : list jsstring) (rows : list (list cell)) : list RowData :=
  map (row_object headers) rows.

(** [rowData[h]] *)
Definition field (h : jsstring) (rowData : RowData) : option cell :=
  match obj_get h rowData with
  | Some v => v
  | None => None
  end.

(** [headers.map((h) => rowData[h])] *)
Definition rowArray (headers : list jsstring) (rowData : RowData) : list (option cell) :=
  map (fun h => field h rowData) headers.

(** What [TableRow] hands to its [TableCell]s, [row[colIdx]] for each
    header, and what a [TableCell] shows, [value ?? ""]. *)
Definition shown (headers : list jsstring) (row : list (option cell)) : list cell :=
  imap (fun colIdx _ => or_empty (mjoin (row !! colIdx))) headers.

End Cells.

(** The key that is no own property of an object literal. *)
Definition proto_key : jsstring := utf16 "__proto__".

End Table.

(** ** The download button (VirtualizedResultsTable.tsx, ResultsToolbar.tsx,
       PreviewTable.tsx, ExpandedView.tsx) *)

Module Download.

Local Open Scope nat_scope.

Section Blobs.

Variable Blob : Type.

(** What a click on the button does to the page, in order. *)
Inductive action :=
  | SaveAs (blob : Blob) (name : jsstring)   (* saveAs(blob, name) *)
  | CreateObjectURL (blob : Blob)            (* url = URL.createObjectURL(blob) *)
  | CreateAnchor                             (* a = document.createElement("a") *)
  | SetHref                                  (* a.href = url *)
  | SetDownload (name : jsstring)            (* a.download = name *)
  | AppendChild                              (* document.body.appendChild(a) *)
  | ClickAnchor                              (* a.click() *)
  | RemoveChild                              (* document.body.removeChild(a) *)
  | RevokeObjectURL.                         (* URL.revokeObjectURL(url) *)

(** A callback [() => void] that reads the props it closes over: the
    actions of one call. *)
Definition callback := list action.

(** The download through a temporary link. *)
Definition anchor_download (blob : Blob) (fileName : jsstring) : callback :=
  [ CreateObjectURL blob; CreateAnchor; SetHref; SetDownload fileName;
    AppendChild; ClickAnchor; RemoveChild; RevokeObjectURL ].

(** The props of [VirtualizedResultsTable] that the download depends on:
    the number of rows, and the optional props, where [None] is a prop that
    is not given (or a blob that is [null]). *)
Record TableProps := {
  rows_length : nat;
  excelBlob : option Blob;
  onDownload : option callback;
  fileName : option jsstring;
  showToolbar : option bool;
  isLoading : option bool
}.

Definition default_name : jsstring := utf16 "consolidado.xlsx".

(** [handleDownload] of [VirtualizedResultsTable] *)
Definition handleDownload (p : TableProps) : callback :=
  match excelBlob p, onDownload p with
  | Some _, Some f => f
  | Some blob, None => anchor_download blob (default default_name (fileName p))
  | None, _ => []
  end.

(** The [onDownload] that [ResultsToolbar] is given:
    [excelBlob ? handleDownload : undefined]. *)
Definition toolbar_onDownload (p : TableProps) : option callback :=
  match excelBlob p with
  | Some _ => Some (handleDownload p)
  | None => None
  end.

(** A click on "Descargar Excel": [None] when there is no such button.
    The table shows its empty state, without a toolbar, when it is not
    loading and has no rows; the toolbar is there with [showToolbar], and
    the button with [onDownload]; a button that is [disabled={isLoading}]
    calls nothing. *)
Definition press_download (p : TableProps) : option callback :=
  let loading := default false (isLoading p) in
  if negb loading && Nat.eqb (rows_length p) 0 then None
  else if negb (default true (showToolbar p)) then None
  else
    match toolbar_onDownload p with
    | Some f => Some (if loading then [] else f)
    | None => None
    end.

(** The table that [PreviewTable] mounts, if it mounts one: it shows a
    message of its own without headers or without rows. *)
Definition PreviewTable (headers_length rows_length : nat)
    (excelBlob : option Blob) (fileName : jsstring) : option TableProps :=
  let handleDownload : callback :=
    match excelBlob with
    | Some blob => [SaveAs blob fileName]
    | None => []
    end in
  if Nat.eqb headers_length 0 || Nat.eqb rows_length 0 then None
  else
    Some {| rows_length := rows_length; excelBlob := excelBlob;
            onDownload := Some handleDownload; fileName := Some fileName;
            showToolbar := Some true; isLoading := None |}.

(** The table that [ExpandedView] mounts. *)
Definition ExpandedView (rows_length : nat) (excelBlob : option Blob)
    (fileName : option jsstring) : TableProps :=
  let fileName := default default_name fileName in
  let handleDownload : callback :=
    match excelBlob with
    | Some blob => anchor_download blob fileName
    | None => []
    end in
  {| rows_length := rows_length; excelBlob := excelBlob;
     onDownload := match excelBlob with Some _ => Some handleDownload | None => None end;
     fileName := Some fileName; showToolbar := Some true; isLoading := None |}.

(** The tables that these two components mount. *)
Inductive mounted : TableProps -> Prop :=
  | mounted_preview h r blob name p :
      PreviewTable h r blob name = Some p -> mounted p
  | mounted_expanded r blob name : mounted (ExpandedView r blob name).

End Blobs.

End Download.


(** ** The batch pipeline *)

Module Pipeline.

Local Open Scope nat_scope.

(** Modelled from the spec: the data model of section 3 and the error
    taxonomy of section 7. The route handler that runs a batch is not among
    the sources. *)
Inductive ErrorKind :=
  | PreconditionError | NoExtractableText | FormatMismatch | NoFormatDetected
  | MissingRequiredField | MalformedField | MissingAllOptionalGroups | Timeout.

Inductive ExtractionOutcome :=
  | Success (fields : obj jsval) (sourceId : jsstring)
  | Failure (sourceId : jsstring) (errorKind : ErrorKind) (message : jsstring).

Definition is_success (o : ExtractionOutcome) : bool :=
  match o with Success _ _ => true | Failure _ _ _ => false end.

Definition source_of (o : ExtractionOutcome) : jsstring :=
  match o with Success _ s => s | Failure s _ _ => s end.

Inductive Status := fulfilled | rejected.

Record ProgressEvent := {
  sequence : nat;
  total : nat;
  fileName : jsstring;
  status : Status;
  runningSuccesses : nat;
  runningFailures : nat;
  elapsedMs : Z;
  estimatedRemainingMs : Q;
  error : option jsstring
}.

Record BatchReport := {
  totalProcessed : nat;
  totalSuccess : nat;
  totalFailure : nat;
  successes : list (obj jsval);
  failures : list (jsstring * jsstring)
}.

(** Modelled from the spec: a task that has completed, with its submission
    index, its outcome and the time of completion in milliseconds. *)
Record Completion := {
  done_index : nat;
  done_outcome : ExtractionOutcome;
  done_at : Z
}.

(** Modelled from the spec: the Progress Reporter of section 4.3, with its
    counters and its start timestamp. *)
Record Reporter := {
  completed : nat;
  succeeded : nat;
  failed : nat;
  started : Z
}.

(** [elapsedMs / completed * (total - completed)], and 0 once
    completed == total. *)
Definition eta (elapsed : Z) (completed total : nat) : Q :=
  if Nat.eqb completed total then 0%Q
  else (inject_Z elapsed / inject_Z (Z.of_nat completed)
        * inject_Z (Z.of_nat (total - completed)))%Q.

(** One task completion: the counters move, the elapsed time and the ETA
    are computed again, one event is emitted. *)
Definition on_completion (n : nat) (r : Reporter) (c : Completion)
    : Reporter * ProgressEvent :=
  let ok := is_success (done_outcome c) in
  let r' := {| completed := S (completed r);
               succeeded := if ok then S (succeeded r) else succeeded r;
               failed := if ok then failed r else S (failed r);
               started := started r |} in
  let elapsed := (done_at c - started r)%Z in
  (r', {| sequence := completed r';
          total := n;
          fileName := source_of (done_outcome c);
          status := if ok then fulfilled else rejected;
          runningSuccesses := succeeded r';
          runningFailures := failed r';
          elapsedMs := elapsed;
          estimatedRemainingMs := eta elapsed (completed r') n;
          error := match done_outcome c with
                   | Failure _ _ msg => Some msg
                   | Success _ _ => None
                   end |}).

(** The events of a run, in the order in which the tasks complete. *)
Fixpoint emit (n : nat) (r : Reporter) (cs : list Completion) : list ProgressEvent :=
  match cs with
  | [] => []
  | c :: cs' => let (r', ev) := on_completion n r c in ev :: emit n r' cs'
  end.

(** Modelled from the spec: the Result Aggregator of section 4.4 keeps
    every outcome under its submission index. *)
Definition aggregate (cs : list Completion) : gmap nat ExtractionOutcome :=
  fold_left (fun agg c => <[done_index c := done_outcome c]> agg) cs ∅.

Definition empty_report : BatchReport :=
  {| totalProcessed := 0; totalSuccess := 0; totalFailure := 0;
     successes := []; failures := [] |}.

Definition add_outcome (rep : BatchReport) (o : ExtractionOutcome) : BatchReport :=
  match o with
  | Success fields _ =>
    {| totalProcessed := S (totalProcessed rep);
       totalSuccess := S (totalSuccess rep);
       totalFailure := totalFailure rep;
       successes := successes rep ++ [fields];
       failures := failures rep |}
  | Failure src _ msg =>
    {| totalProcessed := S (totalProcessed rep);
       totalSuccess := totalSuccess rep;
       totalFailure := S (totalFailure rep);
       successes := successes rep;
       failures := failures rep ++ [(src, msg)] |}
  end.

(** The report folds the outcomes in submission order 0, 1, ..., n-1. *)
Definition build_report (n : nat) (agg : gmap nat ExtractionOutcome) : BatchReport :=
  fold_left (fun rep i =>
               match agg !! i with
               | Some o => add_outcome rep o
               | None => rep
               end) (seq 0 n) empty_report.

(** Modelled from the spec: the DocumentTask of section 3, one for each
    uploaded document, with its submission index. *)
Record DocumentTask := {
  task_index : nat;
  task_file : File
}.

Definition submit (files : list File) : list DocumentTask :=
  imap (fun i f => {| task_index := i; task_file := f |}) files.

(** Modelled from the spec: the configuration surface of section 6. *)
Record Settings := {
  max_file_size : Z;
  max_file_count : nat;
  concurrency : nat;
  task_timeout : Z
}.

(** The slot that is free first (the leftmost of them). *)
Fixpoint earliest_from (best_i : nat) (best : Z) (i : nat) (slots : list Z) : nat :=
  match slots with
  | [] => best_i
  | t :: slots' =>
    if (t <? best)%Z then earliest_from i t (S i) slots'
    else earliest_from best_i best (S i) slots'
  end.

Definition earliest (slots : list Z) : nat :=
  match slots with
  | [] => 0
  | t :: slots' => earliest_from 0 t 1 slots'
  end.

Definition timeout_message : jsstring := utf16 "Timeout".

(** Modelled from the spec: the per-task timeout of section 4.2. A task
    that runs longer than the timeout ends as a [Timeout] failure. *)
Definition task_outcome (process : DocumentTask -> ExtractionOutcome)
    (latency : DocumentTask -> Z) (timeout : Z) (t : DocumentTask)
    : ExtractionOutcome :=
  let o := process t in
  if (timeout <? latency t)%Z then Failure (source_of o) Timeout timeout_message
  else o.

(** Modelled from the spec: the Task Scheduler of section 4.2. The tasks
    are taken in submission order into a pool of slots, each slot being
    known by the time at which it is free again; a task takes the slot that
    is free first, runs for its latency, or up to the timeout, and then is
    complete. *)
Fixpoint dispatch (process : DocumentTask -> ExtractionOutcome)
    (latency : DocumentTask -> Z) (timeout : Z) (slots : list Z)
    (tasks : list DocumentTask) : list Completion :=
  match tasks with
  | [] => []
  | t :: tasks' =>
    let s := earliest slots in
    let begin := default 0%Z (slots !! s) in
    let finish := (begin + Z.min (latency t) timeout)%Z in
    {| done_index := task_index t;
       done_outcome := task_outcome process latency timeout t;
       done_at := finish |}
      :: dispatch process latency timeout (<[s := finish]> slots) tasks'
  end.

(** The order of completion: by time of completion. *)
Definition earlier (a b : Completion) : Prop := (done_at a <= done_at b)%Z.

Global Instance earlier_dec a b : Decision (earlier a b).
Proof. unfold earlier. apply _. Defined.

Definition completion_order (cs : list Completion) : list Completion :=
  merge_sort earlier cs.

Definition new_reporter (start : Z) : Reporter :=
  {| completed := 0; succeeded := 0; failed := 0; started := start |}.

(** Modelled from the spec: the Pipeline Orchestrator of section 4.5. *)
Inductive BatchState :=
  | Idle
  | Running
  | Finalizing
  | Done (events : list ProgressEvent) (report : BatchReport)
  | Aborted (kind : ErrorKind).

Definition preconditions (cfg : Settings) (files : list File) : bool :=
  negb (Nat.eqb (length files) 0)
  && (length files <=? max_file_count cfg)
  && forallb (fun f => (Z.of_nat (length (file_bytes f)) <=? max_file_size cfg)%Z) files
  && (1 <=? concurrency cfg).

(** A whole batch, started at time [start]: preconditions, fan out,
    progress events on every completion, the report at the end. *)
Definition run_batch (cfg : Settings) (start : Z)
    (process : DocumentTask -> ExtractionOutcome) (latency : DocumentTask -> Z)
    (files : list File) : BatchState :=
  if negb (preconditions cfg files) then Aborted PreconditionError
  else
    let n := length files in
    let slots := replicate (concurrency cfg) start in
    let cs := completion_order
                (dispatch process latency (task_timeout cfg) slots (submit files)) in
    let events := emit n (new_reporter start) cs in
    let report := build_report n (aggregate cs) in
    Done events report.


End Pipeline.

(** ** What a pattern matches *)

Module Lang.

Local Open Scope nat_scope.

(** [matches r pos w rest]: at offset [pos], with [w ++ rest] ahead, the
    pattern [r] can consume exactly [w]. Greedy and lazy quantifiers match
    the same words; an iteration of a quantifier is never empty. *)
Inductive matches : regex -> nat -> jsstring -> jsstring -> Prop :=
  | M_Eps pos rest : matches Eps pos [] rest
  | M_Chr p c pos rest : p c = true -> matches (Chr p) pos [c] rest
  | M_Seq r1 r2 pos w1 w2 rest :
      matches r1 pos w1 (w2 ++ rest) ->
      matches r2 (pos + length w1) w2 rest ->
      matches (Seq r1 r2) pos (w1 ++ w2) rest
  | M_AltL r1 r2 pos w rest : matches r1 pos w rest -> matches (Alt r1 r2) pos w rest
  | M_AltR r1 r2 pos w rest : matches r2 pos w rest -> matches (Alt r1 r2) pos w rest
  | M_Star0 g r pos rest : matches (Star g r) pos [] rest
  | M_StarS g r pos w1 w2 rest :
      w1 <> [] ->
      matches r pos w1 (w2 ++ rest) ->
      matches (Star g r) (pos + length w1) w2 rest ->
      matches (Star g r) pos (w1 ++ w2) rest
  | M_Group n r pos w rest : matches r pos w rest -> matches (Group n r) pos w rest
  | M_Look r pos w rest : matches r pos w rest -> matches (Look r) pos [] (w ++ rest)
  | M_Bol rest : matches Bol 0 [] rest
  | M_Eol pos : matches Eol pos [] [].

(** The capture groups of a pattern. *)
Fixpoint groups (r : regex) : list nat :=
  match r with
  | Eps | Chr _ | Bol | Eol => []
  | Seq r1 r2 | Alt r1 r2 => groups r1 ++ groups r2
  | Star _ r1 | Look r1 => groups r1
  | Group n r1 => n :: groups r1
  end.

(** A text contains a match of [r]: [r] matches at some offset. *)
Definition occurs (r : regex) (text : jsstring) : Prop :=
  exists pre w post, text = pre ++ w ++ post /\ matches r (length pre) w post.

(** A matcher of one iteration does not tell apart continuations that
    agree everywhere. *)
Definition body_ext
    (body : nat -> jsstring -> captures -> cont -> option (nat * captures)) : Prop :=
  forall pos rest cs k1 k2,
    (forall p r c, k1 p r c = k2 p r c) -> body pos rest cs k1 = body pos rest cs k2.

(** A matcher hands over to its continuation only after a word of [r], and
    with new captures of the groups of [r] only. *)
Definition sound_for (r : regex)
    (body : nat -> jsstring -> captures -> cont -> option (nat * captures)) : Prop :=
  forall pos rest cs k res,
    body pos rest cs k = Some res ->
    exists w rest' new,
      rest = w ++ rest' /\ matches r pos w rest'
      /\ Forall (fun b => In (fst b) (groups r)) new
      /\ k (pos + length w) rest' (new ++ cs) = Some res.

(** No anchor and no lookahead: what the pattern matches does not depend
    on where it is tried. *)
Fixpoint pure (r : regex) : bool :=
  match r with
  | Eps | Chr _ => true
  | Seq r1 r2 | Alt r1 r2 => pure r1 && pure r2
  | Star _ r1 | Group _ r1 => pure r1
  | Look _ | Bol | Eol => false
  end.

(** The capture group a pattern ends with. *)
Fixpoint last_group (r : regex) : option (nat * regex) :=
  match r with
  | Group n b => Some (n, b)
  | Seq _ r2 => last_group r2
  | _ => None
  end.

End Lang.
Export Lang.

(** ** What the extractor computes, without the log *)

Module Summary.

Local Open Scope nat_scope.

(** The value of a fixed field: [m[1].trim()] for [m] the match of its
    pattern in the text, the empty string without a match. *)
Definition field_value (r : regex) (text : jsstring) : jsstring :=
  match js_match text r with
  | Some m => trim (default [] (m_group 1 m))
  | None => []
  end.

(** The text of a section: group 1 of the match of its pattern. *)
Definition section_text (r : regex) (text : jsstring) : option jsstring :=
  match js_match text r with
  | Some m => m_group 1 m
  | None => None
  end.

(** The date of a section: the value of the VÁLIDO HASTA match in its
    text, empty when the section or the match is missing. *)
Definition section_valido (r : regex) (text : jsstring) : jsstring :=
  match section_text r text with
  | Some sec =>
    match js_match sec validoPattern with
    | Some vm => valido_value vm
    | None => []
    end
  | None => []
  end.

(** The record [extraerDatosCRT] builds (lemma [extraer_result]). *)
Definition extracted (text : jsstring) : obj jsstring :=
  [ (K_fecha, field_value re_fecha text);
    (K_planta, field_value re_planta text);
    (K_placa, field_value re_placa text);
    (K_valido_rt, section_valido re_revision_section text);
    (K_valido_c, section_valido re_contaminantes_section text);
    (K_folio, field_value re_folio text) ].

(** The section pattern matches somewhere in the text. *)
Definition has_section (r : regex) (text : jsstring) : bool :=
  bool_decide (is_Some (js_match text r)).

(** The outcome of [extraerDatosCRT]. *)
Definition extraction (text : jsstring) : outcome (obj jsstring) :=
  if negb (has_section re_revision_section text)
     && negb (has_section re_contaminantes_section text)
  then Throw no_certificate
  else Ok (extracted text).

(** The message that one turn of the loop over the required patterns
    pushes, if any. *)
Definition required_error (datos : obj jsstring) (entry : jsstring * regex)
    : option jsstring :=
  let (field, pattern) := entry in
  let value := obj_get field datos in
  if negb (truthy value) then Some (msg_missing field)
  else if negb (test pattern (default [] value))
       then Some (msg_format field (default [] value))
       else None.

(** The same for the loop over the optional patterns. *)
Definition optional_error (datos : obj jsstring) (entry : jsstring * regex)
    : option jsstring :=
  let (field, pattern) := entry in
  let value := obj_get field datos in
  if truthy value && negb (test pattern (default [] value))
  then Some (msg_format field (default [] value))
  else None.

(** [errors.push(msg)] when there is a message. *)
Definition add_error (errors : list jsstring) (e : option jsstring) : list jsstring :=
  match e with
  | Some msg => errors ++ [msg]
  | None => errors
  end.

(** The array [errors] at the end of [bestEffortValidationCRT]. *)
Definition validation_errors (datos : obj jsstring) : list jsstring :=
  let errors :=
    fold_left (fun acc entry => add_error acc (required_error datos entry))
              requiredPatterns [] in
  let errors :=
    fold_left (fun acc entry => add_error acc (optional_error datos entry))
              optionalPatterns errors in
  if negb (has_value datos K_valido_rt) && negb (has_value datos K_valido_c)
  then errors ++ [msg_none] else errors.

(** The outcome of [bestEffortValidationCRT] (lemma [validation_result]). *)
Definition validation (datos : obj jsstring) (fileName : jsstring) : outcome unit :=
  let errors := validation_errors datos in
  if 0 <? length errors then Throw (validation_error fileName errors) else Ok tt.

(** The outcome of [procesarPDFCRT] on a file of that name and text (lemma
    [procesar_result]). *)
Definition process_text (name text : jsstring) : outcome (obj jsval) :=
  match extraction text with
  | Throw e => Throw e
  | Ok datos =>
    match validation datos name with
    | Throw e => Throw e
    | Ok _ => Ok (datosOrdenados (obj_set K_nombre name datos))
    end
  end.

(** A field that is absent or holds the empty string. *)
Definition empty_value (v : option jsstring) : Prop := v = None \/ v = Some [].

(** A field that holds a non-empty string accepted by the pattern. *)
Definition field_ok (datos : obj jsstring) (field : jsstring) (pattern : regex) : Prop :=
  exists v, obj_get field datos = Some v /\ v <> [] /\ test pattern v = true.

(** A field that holds a non-empty string refused by the pattern. *)
Definition malformed (datos : obj jsstring) (field : jsstring) (pattern : regex) : Prop :=
  exists v, obj_get field datos = Some v /\ v <> [] /\ test pattern v = false.

(** The four fixed fields extracted from the text pass their patterns. *)
Definition fixed_fields_valid (text : jsstring) : Prop :=
  forall field pattern,
    In (field, pattern) requiredPatterns -> field_ok (extracted text) field pattern.

(** The section is there and a VÁLIDO HASTA date occurs in its text. *)
Definition has_valido (r : regex) (text : jsstring) : Prop :=
  exists sec, section_text r text = Some sec /\ occurs validoPattern sec.

(** The check of the fixed fields, as a computation. *)
Definition fixed_fields_check (text : jsstring) : bool :=
  forallb (fun e => match required_error (extracted text) e with
                    | None => true
                    | Some _ => false
                    end) requiredPatterns.

End Summary.
Export Summary.

(** ** Words of the text

    The vocabulary in which the layout of a document is described. *)

Module Words.

Local Open Scope nat_scope.

(** All the characters of a word are of a set; a run of the set is such a
    word that is not empty. *)
Definition all (p : jschar -> bool) (w : jsstring) : Prop := Forall (fun c => p c = true) w.
Definition run (p : jschar -> bool) (w : jsstring) : Prop := w <> [] /\ all p w.
(** The next character, if there is one, is not of the set. *)
Definition stops (p : jschar -> bool) (rest : jsstring) : Prop :=
  forall c, head rest = Some c -> p c = false.
(** The same word up to the case of its letters. *)
Definition same_ci (a b : jsstring) : Prop := map canonicalize a = map canonicalize b.
(** No match of the pattern starts before offset [n]. *)
Definition first_at (r : regex) (text : jsstring) (n : nat) : Prop :=
  forall pre w post, text = pre ++ w ++ post -> matches r (length pre) w post ->
                     (n <= length pre)%nat.

(** Exactly [n] decimal digits. *)
Definition digits (n : nat) (w : jsstring) : Prop := length w = n /\ all is_digit w.

(** The small letters that [[A-ZÁÉÍÓÚÑ]] takes in with the i flag. *)
Definition small_letters : ranges := (97, 122)%N :: singles "áéíóúñ".

(** The words of [\d{1,2}\s+L+\s+\d{4}] for a set L of letters. *)
Definition date_word (letter : jschar -> bool) (v : jsstring) : Prop :=
  exists d s1 m s2 y,
    v = d ++ s1 ++ m ++ s2 ++ y
    /\ (length d = 1 \/ length d = 2)%nat /\ all is_digit d /\ run is_space s1
    /\ run letter m /\ run is_space s2 /\ digits 4 y.

(** The words of [[A-ZÁÉÍÓÚÑ]+\s+\d{4}] with the i flag. *)
Definition month_word (v : jsstring) : Prop :=
  exists m s y,
    v = m ++ s ++ y /\ run (in_ranges_ci letters) m /\ run is_space s /\ digits 4 y.

(** The words of [N°B\d+] with the i flag. *)
Definition folio_word (v : jsstring) : Prop :=
  exists label ds, v = label ++ ds /\ same_ci (utf16 "N°B") label /\ run is_digit ds.

(** The date read in the text of a section. *)
Definition valido_in (sec : jsstring) : jsstring :=
  match js_match sec validoPattern with
  | Some vm => valido_value vm
  | None => []
  end.

(** [sec] is the section of a certificate in [text]: it follows the first
    match of the title [T], and it ends at the first offset at which [L]
    matches, or with the text when there is none. *)
Definition section_of (T L : regex) (text sec : jsstring) : Prop :=
  exists pre title post,
    text = pre ++ title ++ sec ++ post
    /\ matches T (length pre) title (sec ++ post)
    /\ first_at T text (length pre)
    /\ (post = []
        \/ exists t post', post = t ++ post'
             /\ matches L (length pre + length title + length sec)%nat t post')
    /\ forall s1 s2 t rest, sec = s1 ++ s2 -> s2 <> [] -> s2 ++ post = t ++ rest ->
         ~ matches L (length pre + length title + length s1)%nat t rest.

(** The sign that [parseInt] reads: none, [+] or [-]. *)
Definition is_sign (sg : jsstring) : Prop := sg = [] \/ sg = [43%N] \/ sg = [45%N].

End Words.
Export Words.


(** ** Sample documents and a sample batch *)

Module Samples.

Import Pipeline.
Local Open Scope nat_scope.

(** A logger that keeps what it is given, and a text extraction that reads
    the bytes of the file as its text. *)
Definition log := list (list log_arg).
Definition log_info (args : list log_arg) (w : log) : log := w ++ [args].
Definition text_of_bytes (f : File) (w : log) : outcome jsstring * log :=
  (Ok (file_bytes f), w).

(** The four fixed fields. *)
Definition fixed_part : string :=
"FECHA REVISIÓN: 10 OCTUBRE 2023
PLANTA: AB-1234
PLACA PATENTE ABCD12
N°B123456
".

(** Both certificates, each with its date. *)
Definition doc_both : jsstring :=
  utf16 fixed_part ++ utf16
"CERTIFICADO DE REVISIÓN TÉCNICA
VÁLIDO HASTA OCTUBRE 2024
CERTIFICADO DE EMISIONES CONTAMINANTES
VÁLIDO HASTA FECHA REVISIÓN: 10 OCTUBRE 2023 ABRIL 2024
".

(** Only the Revisión Técnica certificate, and no VÁLIDO HASTA in it. *)
Definition doc_revision_undated : jsstring :=
  utf16 fixed_part ++ utf16
"CERTIFICADO DE REVISIÓN TÉCNICA
APROBADO
".

(** The document behind the log that MEJORA_CRT.md shows. *)
Definition doc_documented : jsstring := utf16
"CERTIFICADO DE REVISIÓN TÉCNICA
FECHA REVISIÓN: 10 OCTUBRE 2023
PLANTA: PLANTA-01
PLACA PATENTE ABC123
VÁLIDO HASTA OCTUBRE 2024
N°B12345
".

(** Three documents that complete in the reverse of their submission
    order: a.pdf after 300 ms, b.pdf after 200 ms, c.pdf after 100 ms. *)
Definition settings3 : Settings :=
  {| max_file_size := 5242880; max_file_count := 100; concurrency := 3;
     task_timeout := 30000 |}.

Definition pdf (name : string) (text : jsstring) : File :=
  {| file_name := utf16 name; file_bytes := text |}.

(** [procesarPDFCRT] with that logger and that text extraction, from an
    empty log. *)
Definition procesar (f : File) : outcome (obj jsval) :=
  fst (procesarPDFCRT log log_info log_info text_of_bytes f []).



(** A task of the batch: the CRT extractor on the file. The source has one
    [Error] type and no kinds, so every failure goes under one kind. *)
Definition crt_task (t : DocumentTask) : ExtractionOutcome :=
  match procesar (task_file t) with
  | Ok fields => Success fields (file_name (task_file t))
  | Throw (JsError msg) => Failure (file_name (task_file t)) MalformedField msg
  end.

Definition three : list File :=
  [pdf "a.pdf" doc_both; pdf "b.pdf" doc_revision_undated; pdf "c.pdf" doc_documented].

Definition slower_first (t : DocumentTask) : Z := (300 - 100 * Z.of_nat (task_index t))%Z.

Definition report_of (s : BatchState) : option BatchReport :=
  match s with
  | Done _ report => Some report
  | _ => None
  end.

Definition events_of (s : BatchState) : list ProgressEvent :=
  match s with
  | Done events _ => events
  | _ => []
  end.

(** The characters of a text from offset [a] up to offset [b]. *)
Definition slice (a b : nat) (text : jsstring) : jsstring := take (b - a) (drop a text).

(** [extraerDatosCRT] with the logger that keeps what it is given. *)
Definition extraer (text : jsstring) : outcome (obj jsstring) :=
  fst (extraerDatosCRT log log_info text []).

(** The text after the title of doc_documented, and the text after the
    second title of doc_both. *)
Definition sec_documented : jsstring := slice 31 138 doc_documented.
Definition sec_contaminantes : jsstring := slice 175 232 doc_both.

(** A limit written with its unit, and one written in words. *)
Definition env_units : env := {[ "NEXT_PUBLIC_MAX_FILE_SIZE"%string := utf16 " 10MB" ]}.
Definition env_words : env := {[ "NEXT_PUBLIC_MAX_FILE_SIZE"%string := utf16 "five" ]}.

(** A table of two columns; a number is given by its digits. *)
Definition two_columns : list jsstring := [utf16 "Placa"; utf16 "Valor"].
Definition short_row : list (Table.cell jsstring) :=
  [Table.CString jsstring (utf16 "AA-0001")].




End Samples.
Export Samples.

(** * Checks on concrete inputs *)

Example utf16_ascii : utf16 "N°B12" = [78; 176; 66; 49; 50].
Proof. reflexivity. Qed.

Example trim_example : trim (utf16 "  OCTUBRE 2024 ") = utf16 "OCTUBRE 2024".
Proof. reflexivity. Qed.

Example match_lazy_lookahead :
  js_match (utf16 "xxAB12;CD")
    (seqs [str "AB"; Group 1 (Star false any); Look (Alt (lit 59) Eol)])
  = Some (MatchResult 2 (utf16 "AB12") [(1%nat, utf16 "12")]).
Proof. vm_compute. reflexivity. Qed.

Example match_ci_greedy :
  js_match (utf16 "planta: ab-12 x")
    (seqs [str_ci "PLANTA:"; Star true ws; Group 1 (plus (cls_ci [(65, 90); (48, 57); (45, 45)]))])
  = Some (MatchResult 0 (utf16 "planta: ab-12") [(1%nat, utf16 "ab-12")]).
Proof. vm_compute. reflexivity. Qed.

Example letters_codes :
  letters = [(65, 90); (193, 193); (201, 201); (205, 205); (211, 211); (218, 218); (209, 209)].
Proof. reflexivity. Qed.

Example valido_with_date :
  js_match (utf16 " VÁLIDO HASTA FECHA REVISIÓN: 10 OCTUBRE 2023 OCTUBRE 2024 x") validoPattern
  = Some (MatchResult 1 (utf16 "VÁLIDO HASTA FECHA REVISIÓN: 10 OCTUBRE 2023 OCTUBRE 2024")
            [(2%nat, utf16 "OCTUBRE 2024"); (1%nat, utf16 "10 OCTUBRE 2023")]).
Proof. vm_compute. reflexivity. Qed.

Example valido_lower_case :
  option_map (m_group 2) (js_match (utf16 "válido hasta  marzo 2026") validoPattern)
  = Some (Some (utf16 "marzo 2026")).
Proof. vm_compute. reflexivity. Qed.

Example extraction_of_documented :
  fst (extraerDatosCRT log log_info doc_documented [])
  = Ok [ (K_fecha, utf16 "10 OCTUBRE 2023"); (K_planta, utf16 "PLANTA-01");
         (K_placa, utf16 "ABC123"); (K_valido_rt, utf16 "OCTUBRE 2024");
         (K_valido_c, []); (K_folio, utf16 "N°B12345") ].
Proof. vm_compute. reflexivity. Qed.

(** The lines of the log that MEJORA_CRT.md shows for the extraction. *)
Example log_of_documented :
  snd (extraerDatosCRT log log_info doc_documented [])
  = map (fun line => [LogString (utf16 line)])
      [ "Iniciando extracción de datos CRT.";
        "Fecha de Revisión extraída: 10 OCTUBRE 2023";
        "Planta extraída: PLANTA-01";
        "Placa Patente extraída: ABC123";
        "Válido Hasta Revisión Técnica extraído: OCTUBRE 2024";
        "No se encontró la sección de Certificado de Contaminantes.";
        "Folio extraído: N°B12345" ]%string.
Proof. vm_compute. reflexivity. Qed.

Example processing_of_documented :
  procesar (pdf "crt_001.pdf" doc_documented)
  = Ok [ (K_nombre, VString (utf16 "crt_001.pdf"));
         (K_fecha, VString (utf16 "10 OCTUBRE 2023"));
         (K_planta, VString (utf16 "PLANTA-01"));
         (K_placa, VString (utf16 "ABC123"));
         (K_valido_rt, VString (utf16 "OCTUBRE 2024"));
         (K_valido_c, VString []);
         (K_folio, VString (utf16 "N°B12345")) ].
Proof. vm_compute. reflexivity. Qed.

(** A month in lower case is extracted, and then refused by the pattern of
    the validation, which has no i flag. *)
Example lower_case_month_refused :
  procesar (pdf "a.pdf" (utf16
"CERTIFICADO REVISION TECNICA
fecha revisión: 1 marzo 2024
PLANTA: B-7
PLACA PATENTE XY99
VÁLIDO HASTA MARZO 2025
N°B1
"))
  = Throw (validation_error (utf16 "a.pdf")
             [msg_format K_fecha (utf16 "1 marzo 2024")]).
Proof. vm_compute. reflexivity. Qed.

Example no_certificate_at_all :
  procesar (pdf "a.pdf" (utf16 fixed_part)) = Throw no_certificate.
Proof. vm_compute. reflexivity. Qed.

Example parse_int_examples :
  map parseInt10 [utf16 "5242880"; utf16 "  10485760 bytes"; utf16 "-12"; utf16 "MB"; [];
                  utf16 "-0"; utf16 "9007199254740993"; utf16 "9007199254740995";
                  utf16 "100000000000000000000000"; utf16 "1" ++ replicate 309 48]
  = [Some (Integer 5242880); Some (Integer 10485760); Some (Integer (-12)); None; None;
     Some NegativeZero; Some (Integer 9007199254740992); Some (Integer 9007199254740996);
     Some (Integer 99999999999999991611392); Some (Infinity false)].
Proof. vm_compute. reflexivity. Qed.

(** Out of order completion: the events are numbered 1, 2, 3 as c.pdf,
    b.pdf and a.pdf complete, and the report lists the files in submission
    order. *)
Example reordered_batch_events :
  map (fun ev => (Pipeline.sequence ev, Pipeline.fileName ev, Pipeline.elapsedMs ev))
      (events_of (Pipeline.run_batch settings3 0 crt_task slower_first three))
  = [ (1%nat, utf16 "c.pdf", 100%Z); (2%nat, utf16 "b.pdf", 200%Z);
      (3%nat, utf16 "a.pdf", 300%Z) ].
Proof. vm_compute. reflexivity. Qed.

Example reordered_batch_report :
  option_map (fun rep => (Pipeline.totalProcessed rep, Pipeline.totalSuccess rep,
                          Pipeline.totalFailure rep,
                          map (obj_get K_nombre) (Pipeline.successes rep),
                          map fst (Pipeline.failures rep)))
             (report_of (Pipeline.run_batch settings3 0 crt_task slower_first three))
  = Some (3%nat, 2%nat, 1%nat,
          [Some (VString (utf16 "a.pdf")); Some (VString (utf16 "c.pdf"))],
          [utf16 "b.pdf"]).
Proof. vm_compute. reflexivity. Qed.

(** One task at a time, 100 ms each: the estimates are 200, 100 and 0. *)
Example sequential_estimates :
  map (fun ev => Qred (Pipeline.estimatedRemainingMs ev))
      (events_of (Pipeline.run_batch
                    {| Pipeline.max_file_size := 5242880; Pipeline.max_file_count := 100;
                       Pipeline.concurrency := 1; Pipeline.task_timeout := 30000 |}
                    0 crt_task (fun _ => 100%Z) three))
  = [200%Q; 100%Q; 0%Q].
Proof. vm_compute. reflexivity. Qed.

(** * The matcher and the words of a pattern *)

Section Matcher.

Local Open Scope nat_scope.

Lemma star_loop_ext g body k1 k2 fuel pos rest cs :
  body_ext body -> (forall p r c, k1 p r c = k2 p r c) ->
  star_loop g body k1 fuel pos rest cs = star_loop g body k2 fuel pos rest cs.
Proof.
  intros Hb Hk. revert pos rest cs.
  induction fuel as [|fuel IH]; intros pos rest cs; simpl; [done|].
  rewrite (Hk pos rest cs).
  rewrite (Hb pos rest cs _
             (fun pos' rest' cs' =>
                if length rest' <? length rest
                then star_loop g body k2 fuel pos' rest' cs' else None)).
  - done.
  - intros p r c. destruct (length r <? length rest); [apply IH|done].
Qed.

Lemma rmatch_ext r : body_ext (rmatch r).
Proof.
  induction r as [|p|r1 IH1 r2 IH2|r1 IH1 r2 IH2|g r1 IH1|n r1 IH1|r1 IH1| |];
    intros pos rest cs k1 k2 Hk; cbn [rmatch].
  - apply Hk.
  - destruct rest as [|c rest]; [done|]. destruct (p c); [apply Hk|done].
  - apply IH1. intros p r c. by apply IH2.
  - rewrite (IH1 _ _ _ k1 k2 Hk), (IH2 _ _ _ k1 k2 Hk). done.
  - by apply star_loop_ext.
  - apply IH1. intros p r c. apply Hk.
  - destruct (rmatch r1 pos rest cs k_done) as [[? ?]|]; [apply Hk|done].
  - destruct (pos =? 0); [apply Hk|done].
  - destruct rest; [apply Hk|done].
Qed.

Lemma star_loop_fuel g body k :
  body_ext body ->
  forall f1 f2 pos rest cs,
    length rest < f1 -> length rest < f2 ->
    star_loop g body k f1 pos rest cs = star_loop g body k f2 pos rest cs.
Proof.
  intros Hb f1. induction f1 as [|f1 IH]; intros f2 pos rest cs H1 H2; [lia|].
  destruct f2 as [|f2]; [lia|]. simpl.
  rewrite (Hb pos rest cs _
             (fun pos' rest' cs' =>
                if length rest' <? length rest
                then star_loop g body k f2 pos' rest' cs' else None)).
  - done.
  - intros p r c. destruct (length r <? length rest) eqn:E; [|done].
    apply Nat.ltb_lt in E. apply IH; lia.
Qed.

Lemma star_loop_sound g r1 :
  sound_for r1 (rmatch r1) ->
  forall k fuel pos rest cs res,
    star_loop g (rmatch r1) k fuel pos rest cs = Some res ->
    exists w rest' new,
      rest = w ++ rest' /\ matches (Star g r1) pos w rest'
      /\ Forall (fun b => In (fst b) (groups r1)) new
      /\ k (pos + length w) rest' (new ++ cs) = Some res.
Proof.
  intros IH1 k fuel. induction fuel as [|fuel IH]; intros pos rest cs res H; [done|].
  simpl in H.
  assert (Hstop : k pos rest cs = Some res ->
    exists w rest' new,
      rest = w ++ rest' /\ matches (Star g r1) pos w rest'
      /\ Forall (fun b => In (fst b) (groups r1)) new
      /\ k (pos + length w) rest' (new ++ cs) = Some res).
  { intros Hk. exists [], rest, []. simpl. rewrite Nat.add_0_r.
    repeat split; auto. constructor. }
  assert (Hiter : rmatch r1 pos rest cs
      (fun pos' rest' cs' =>
         if length rest' <? length rest
         then star_loop g (rmatch r1) k fuel pos' rest' cs' else None) = Some res ->
    exists w rest' new,
      rest = w ++ rest' /\ matches (Star g r1) pos w rest'
      /\ Forall (fun b => In (fst b) (groups r1)) new
      /\ k (pos + length w) rest' (new ++ cs) = Some res).
  { intros Hb. apply IH1 in Hb as (w1 & rest1 & new1 & -> & Hm1 & Hn1 & Hk1).
    destruct (length rest1 <? length (w1 ++ rest1)) eqn:E; [|done].
    apply Nat.ltb_lt in E. rewrite length_app in E.
    apply IH in Hk1 as (w2 & rest2 & new2 & -> & Hm2 & Hn2 & Hk2).
    exists (w1 ++ w2), rest2, (new2 ++ new1).
    split; [by rewrite <- app_assoc|].
    split; [|split].
    - apply M_StarS; auto. intros ->. simpl in E. lia.
    - apply Forall_app; auto.
    - rewrite length_app, Nat.add_assoc, <- app_assoc. done. }
  destruct g.
  - destruct (rmatch r1 pos rest cs _) eqn:E1.
    + apply Hiter. congruence.
    + by apply Hstop.
  - destruct (k pos rest cs) eqn:E1.
    + apply Hstop. congruence.
    + by apply Hiter.
Qed.

Lemma rmatch_sound r : sound_for r (rmatch r).
Proof.
  induction r as [|p|r1 IH1 r2 IH2|r1 IH1 r2 IH2|g r1 IH1|n r1 IH1|r1 IH1| |];
    intros pos rest cs k res H; cbn [rmatch] in H.
  - exists [], rest, []. simpl. rewrite Nat.add_0_r. repeat split; auto. constructor.
  - destruct rest as [|c rest]; [done|]. destruct (p c) eqn:E; [|done].
    exists [c], rest, []. simpl. rewrite Nat.add_1_r. repeat split; auto. by constructor.
  - apply IH1 in H as (w1 & rest1 & new1 & -> & Hm1 & Hn1 & Hk1).
    apply IH2 in Hk1 as (w2 & rest2 & new2 & -> & Hm2 & Hn2 & Hk2).
    exists (w1 ++ w2), rest2, (new2 ++ new1).
    split; [by rewrite <- app_assoc|]. split; [by constructor|]. split.
    + simpl. apply Forall_app. split.
      * eapply Forall_impl; [exact Hn2|]. intros; apply in_or_app; auto.
      * eapply Forall_impl; [exact Hn1|]. intros; apply in_or_app; auto.
    + rewrite length_app, Nat.add_assoc, <- app_assoc. done.
  - destruct (rmatch r1 pos rest cs k) eqn:E1.
    + inversion H; subst. apply IH1 in E1 as (w & rest' & new & -> & Hm & Hn & Hk).
      exists w, rest', new. repeat split; auto. by apply M_AltL.
      eapply Forall_impl; [exact Hn|]. simpl; intros; apply in_or_app; auto.
    + apply IH2 in H as (w & rest' & new & -> & Hm & Hn & Hk).
      exists w, rest', new. repeat split; auto. by apply M_AltR.
      eapply Forall_impl; [exact Hn|]. simpl; intros; apply in_or_app; auto.
  - eapply star_loop_sound in H; eauto.
  - apply IH1 in H as (w & rest' & new & -> & Hm & Hn & Hk).
    exists w, rest', ((n, w) :: new). split; [done|]. split; [by constructor|]. split.
    + constructor; simpl; auto. eapply Forall_impl; [exact Hn|]. simpl; auto.
    + simpl. replace (pos + length w - pos) with (length w) in Hk by lia.
      rewrite take_app_length in Hk. done.
  - destruct (rmatch r1 pos rest cs k_done) as [[e cs']|] eqn:E1; [|done].
    apply IH1 in E1 as (w & rest' & new & -> & Hm & Hn & Hk).
    unfold k_done in Hk. inversion Hk; subst.
    exists [], (w ++ rest'), new. simpl. rewrite Nat.add_0_r. repeat split; auto.
    by constructor.
  - destruct (pos =? 0) eqn:E; [|done]. apply Nat.eqb_eq in E. subst.
    exists [], rest, []. repeat split; auto. constructor.
  - destruct rest; [|done]. exists [], [], []. simpl. rewrite Nat.add_0_r.
    repeat split; auto. constructor.
Qed.

Lemma rmatch_complete r pos w rest :
  matches r pos w rest ->
  forall cs k, (forall cs', k (pos + length w) rest cs' <> None) ->
  rmatch r pos (w ++ rest) cs k <> None.
Proof.
  induction 1 as [pos rest|p c pos rest Hp|r1 r2 pos w1 w2 rest _ IH1 _ IH2
                 |r1 r2 pos w rest _ IH|r1 r2 pos w rest _ IH
                 |g r pos rest|g r pos w1 w2 rest Hne _ IH1 _ IH2
                 |n r pos w rest _ IH|r pos w rest _ IH|rest|pos];
    intros cs k Hk; cbn [rmatch].
  - simpl in *. rewrite Nat.add_0_r in Hk. apply Hk.
  - simpl in *. rewrite Hp. rewrite Nat.add_1_r in Hk. apply Hk.
  - rewrite <- app_assoc. apply IH1. intros cs'. apply IH2.
    intros cs''. rewrite length_app, Nat.add_assoc in Hk. apply Hk.
  - specialize (IH cs k Hk). destruct (rmatch r1 pos (w ++ rest) cs k); done.
  - specialize (IH cs k Hk). destruct (rmatch r1 pos (w ++ rest) cs k); done.
  - simpl in *. rewrite Nat.add_0_r in Hk. specialize (Hk cs).
    destruct g.
    + destruct (rmatch r pos rest cs _); done.
    + destruct (k pos rest cs); done.
  - rewrite <- app_assoc.
    assert (Hiter : rmatch r pos (w1 ++ w2 ++ rest) cs
      (fun pos' rest' cs' =>
         if length rest' <? length (w1 ++ w2 ++ rest)
         then star_loop g (rmatch r) k (length (w1 ++ w2 ++ rest)) pos' rest' cs'
         else None) <> None).
    { apply IH1. intros cs'.
      assert (length (w2 ++ rest) < length (w1 ++ w2 ++ rest)) as Hlt.
      { rewrite (length_app w1). destruct w1; [done|simpl; lia]. }
      apply Nat.ltb_lt in Hlt as Hlt'. rewrite Hlt'.
      rewrite (star_loop_fuel g (rmatch r) k (rmatch_ext r) _ (S (length (w2 ++ rest))));
        [|lia|lia].
      apply (IH2 cs' k). intros cs''.
      rewrite length_app, Nat.add_assoc in Hk. apply Hk. }
    simpl. destruct g.
    + destruct (rmatch r pos (w1 ++ w2 ++ rest) cs _); done.
    + destruct (k pos (w1 ++ w2 ++ rest) cs); done.
  - apply IH. intros cs'. apply Hk.
  - simpl in Hk. rewrite Nat.add_0_r in Hk. simpl.
    specialize (IH cs k_done).
    destruct (rmatch r pos (w ++ rest) cs k_done) as [[e cs']|]; [apply Hk|].
    apply IH; done.
  - simpl in *. apply Hk.
  - simpl in *. rewrite Nat.add_0_r in Hk. apply Hk.
Qed.

Lemma scan_sound r : forall rest pos m,
  scan r pos rest = Some m ->
  exists pre tl e cs,
    rest = pre ++ tl /\ m_index m = pos + length pre
    /\ rmatch r (pos + length pre) tl [] k_done = Some (e, cs)
    /\ m_caps m = cs.
Proof.
  induction rest as [|c rest IH]; intros pos m H; simpl in H.
  - destruct (rmatch r pos [] [] k_done) as [[e cs]|] eqn:E; [|done].
    inversion H; subst. exists [], [], e, cs. simpl. rewrite Nat.add_0_r. auto.
  - destruct (rmatch r pos (c :: rest) [] k_done) as [[e cs]|] eqn:E.
    + inversion H; subst. exists [], (c :: rest), e, cs. simpl. rewrite Nat.add_0_r. auto.
    + apply IH in H as (pre & tl & e & cs & -> & Hi & Hr & Hc).
      exists (c :: pre), tl, e, cs. simpl.
      replace (pos + S (length pre)) with (S pos + length pre) by lia. auto.
Qed.

Lemma scan_complete r : forall pre tl pos,
  rmatch r (pos + length pre) tl [] k_done <> None ->
  scan r pos (pre ++ tl) <> None.
Proof.
  induction pre as [|c pre IH]; intros tl pos H; simpl in *.
  - rewrite Nat.add_0_r in H.
    destruct tl; simpl; destruct (rmatch r pos _ [] k_done) as [[? ?]|]; done.
  - destruct (rmatch r pos (c :: pre ++ tl) [] k_done) as [[? ?]|]; [done|].
    apply IH. replace (S pos + length pre) with (pos + S (length pre)) by lia. done.
Qed.

Lemma js_match_occurs r text : js_match text r <> None <-> occurs r text.
Proof.
  unfold js_match, occurs. split.
  - destruct (scan r 0 text) as [m|] eqn:E; [intros _|done].
    apply scan_sound in E as (pre & tl & e & cs & -> & _ & Hr & _).
    apply rmatch_sound in Hr as (w & rest' & new & -> & Hm & _ & _).
    exists pre, w, rest'. auto.
  - intros (pre & w & post & -> & Hm).
    apply scan_complete. simpl. eapply rmatch_complete; eauto.
Qed.

Lemma rmatch_reaches r pos rest cs k res :
  rmatch r pos rest cs k = Some res -> exists p r' c, k p r' c = Some res.
Proof.
  intros H. apply rmatch_sound in H as (w & rest' & new & _ & _ & _ & Hk). eauto.
Qed.

Lemma capture_head n w cs : capture n ((n, w) :: cs) = Some w.
Proof. simpl. by rewrite Nat.eqb_refl. Qed.

Lemma rmatch_last_group r : forall n b pos rest cs res,
  last_group r = Some (n, b) ->
  rmatch r pos rest cs k_done = Some res ->
  exists p w rest', capture n (snd res) = Some w /\ matches b p w rest'.
Proof.
  induction r as [|p|r1 _ r2 IH2|r1 _ r2 _|g r1 _|m r1 _|r1 _| |];
    intros n b pos rest cs res Hl H; simpl in Hl; try done.
  - cbn [rmatch] in H. apply rmatch_reaches in H as (p & r' & c & H). eauto.
  - inversion Hl; subst. cbn [rmatch] in H.
    apply rmatch_sound in H as (w & rest' & new & -> & Hm & _ & Hk).
    unfold k_done in Hk. inversion Hk; subst. simpl.
    replace (pos + length w - pos) with (length w) by lia.
    rewrite take_app_length, Nat.eqb_refl. eauto.
Qed.

Lemma js_match_last_group r n b text m :
  last_group r = Some (n, b) ->
  js_match text r = Some m ->
  exists p w rest', m_group n m = Some w /\ matches b p w rest'.
Proof.
  intros Hl H. apply scan_sound in H as (pre & tl & e & cs & _ & _ & Hr & Hc).
  eapply rmatch_last_group in Hr as (p & w & rest' & Hcap & Hm); eauto.
  unfold m_group. rewrite Hc. eauto.
Qed.

Lemma js_match_section T S L text m :
  groups L = [] ->
  js_match text (Seq T (Seq (Group 1 S) (Look L))) = Some m ->
  is_Some (m_group 1 m).
Proof.
  intros HL H. apply scan_sound in H as (pre & tl & e & cs & _ & _ & Hr & Hc).
  cbn [rmatch] in Hr. apply rmatch_reaches in Hr as (p & r' & c & Hr).
  apply rmatch_sound in Hr as (w & rest' & new & -> & _ & _ & Hk).
  destruct (rmatch L _ _ _ k_done) as [[e' cs']|] eqn:E; [|done].
  apply rmatch_sound in E as (w2 & rest2 & new2 & _ & _ & Hn2 & Hk2).
  rewrite HL in Hn2. destruct new2 as [|[i s] new2].
  2:{ inversion Hn2; subst. simpl in *. done. }
  unfold k_done in Hk2, Hk. inversion Hk2; subst. inversion Hk; subst.
  unfold m_group. rewrite <- H1. simpl. eauto.
Qed.

Lemma matches_pure r pos w rest :
  matches r pos w rest -> pure r = true -> forall pos' rest', matches r pos' w rest'.
Proof.
  induction 1; simpl; intros Hp pos' rest'; try done;
    try (apply andb_true_iff in Hp as [Hp1 Hp2]); try (constructor; auto; fail).
Qed.

Lemma matches_Seq_inv r1 r2 pos w rest :
  matches (Seq r1 r2) pos w rest ->
  exists w1 w2, w = w1 ++ w2 /\ matches r1 pos w1 (w2 ++ rest)
                /\ matches r2 (pos + length w1) w2 rest.
Proof. inversion 1; subst; eauto. Qed.

Lemma matches_Chr_inv p pos w rest :
  matches (Chr p) pos w rest -> exists c, w = [c] /\ p c = true.
Proof. inversion 1; subst; eauto. Qed.

Lemma matches_Bol_inv pos w rest : matches Bol pos w rest -> w = [] /\ pos = 0.
Proof. inversion 1; subst; eauto. Qed.

Lemma matches_Eol_inv pos w rest : matches Eol pos w rest -> w = [] /\ rest = [].
Proof. inversion 1; subst; eauto. Qed.

Local Open Scope N_scope.

Lemma is_space_spec c :
  is_space c = true ->
  (9 <= c <= 13) \/ c = 32 \/ c = 160 \/ c = 5760 \/ (8192 <= c <= 8202)
  \/ c = 8232 \/ c = 8233 \/ c = 8239 \/ c = 8287 \/ c = 12288 \/ c = 65279.
Proof.
  unfold is_space, in_range.
  rewrite !orb_true_iff, !andb_true_iff, !N.eqb_eq, !N.leb_le. tauto.
Qed.

Lemma canonicalize_inv c v :
  canonicalize c = v -> v < 256 -> c = v \/ c = v + 32.
Proof.
  unfold canonicalize, in_range.
  destruct (_ && _) eqn:E1.
  - apply andb_true_iff in E1 as [E1 _]. apply N.leb_le in E1. lia.
  - destruct (_ && _ && _) eqn:E2.
    + apply andb_true_iff in E2 as [E2 _]. apply andb_true_iff in E2 as [E2 _].
      apply N.leb_le in E2. lia.
    + destruct (c =? 255); [lia|]. destruct (c =? 181); [lia|auto].
Qed.

Lemma letter_not_space c : in_ranges_ci letters c = true -> is_space c = false.
Proof.
  unfold in_ranges_ci. intros H. apply existsb_exists in H as (a & Ha & Hc).
  apply N.eqb_eq in Hc. symmetry in Hc.
  vm_compute in Ha.
  repeat (destruct Ha as [<-|Ha];
          [apply canonicalize_inv in Hc; [|reflexivity];
           destruct Hc as [-> | ->]; reflexivity|]).
  destruct Ha.
Qed.

Lemma digit_not_space c : is_digit c = true -> is_space c = false.
Proof.
  unfold is_digit, in_range. rewrite andb_true_iff, !N.leb_le. intros [H1 H2].
  apply not_true_is_false. intros Hs. apply is_space_spec in Hs. lia.
Qed.

Local Open Scope nat_scope.

Lemma trim_start_id c s : is_space c = false -> trim_start (c :: s) = c :: s.
Proof. intros H. simpl. by rewrite H. Qed.

Lemma trim_id c s d :
  is_space c = false -> is_space d = false -> trim (c :: s ++ [d]) = c :: s ++ [d].
Proof.
  intros Hc Hd. unfold trim, trim_end. rewrite (trim_start_id c) by done.
  replace (c :: s ++ [d]) with ((c :: s) ++ [d]) by done.
  rewrite rev_unit, (trim_start_id d) by done.
  rewrite <- rev_unit, rev_involutive. done.
Qed.

Lemma month_year_shape pos w rest :
  matches month_year pos w rest ->
  exists c s d, w = c :: s ++ [d] /\ is_space c = false /\ is_space d = false.
Proof.
  unfold month_year, plus, rep_4, cls_ci, digit. cbn [seqs]. intros H.
  apply matches_Seq_inv in H as (w1 & w2 & -> & H1 & H2).
  apply matches_Seq_inv in H1 as (a & s1 & -> & Ha & _).
  apply matches_Chr_inv in Ha as (c & -> & Hc).
  apply matches_Seq_inv in H2 as (w3 & w4 & -> & _ & H4).
  apply matches_Seq_inv in H4 as (d1 & w5 & -> & _ & H5).
  apply matches_Seq_inv in H5 as (d2 & w6 & -> & _ & H6).
  apply matches_Seq_inv in H6 as (d3 & d4 & -> & _ & H7).
  apply matches_Chr_inv in H7 as (d & -> & Hd).
  exists c, (s1 ++ w3 ++ d1 ++ d2 ++ d3), d.
  split; [|split].
  - simpl. f_equal. rewrite <- !app_assoc. done.
  - by apply letter_not_space.
  - by apply digit_not_space.
Qed.

Lemma month_year_pure : pure month_year = true.
Proof. reflexivity. Qed.

(** The anchored pattern of the optional fields accepts exactly the words
    of [month_year]. *)
Lemma test_anchored r v :
  pure r = true ->
  test (seqs [Bol; r; Eol]) v = true <-> matches r 0 v [].
Proof.
  intros Hp. unfold test.
  assert (js_match v (seqs [Bol; r; Eol]) <> None <-> matches r 0 v []) as Hiff.
  { rewrite js_match_occurs. cbn [seqs]. split.
    - intros (pre & w & post & -> & H).
      apply matches_Seq_inv in H as (w1 & w2 & -> & H1 & H2).
      apply matches_Bol_inv in H1 as [-> Hpos].
      apply matches_Seq_inv in H2 as (w3 & w4 & -> & H3 & H4).
      apply matches_Eol_inv in H4 as [-> ->].
      destruct pre; [|done]. simpl. rewrite ?app_nil_r.
      eapply matches_pure; eauto.
    - intros H. exists [], v, []. split; [by rewrite app_nil_r|].
      assert (matches (Seq r Eol) 0 (v ++ []) []) as H2.
      { apply M_Seq; [|constructor]. eapply matches_pure; eauto. }
      rewrite app_nil_r in H2.
      apply (M_Seq Bol (Seq r Eol) 0 [] v []); [constructor|exact H2]. }
  destruct (js_match v _); split; intros H; try done.
  - apply Hiff. done.
  - exfalso. by apply Hiff in H.
Qed.

End Matcher.

(** * The extractor without its log *)

Section ExtractorFacts.

Local Open Scope nat_scope.

Variable world : Type.
Variable logger_info : list log_arg -> world -> world.
Variable logger_error : list log_arg -> world -> world.
Variable parsePDFBuffer : File -> world -> outcome jsstring * world.

Lemma group1_or_empty_ok r b text w :
  last_group r = Some (1, b) ->
  group1_or_empty world (js_match text r) w = (Ok (field_value r text), w).
Proof.
  intros Hl. unfold group1_or_empty, field_value.
  destruct (js_match text r) as [m|] eqn:E; [|done].
  destruct (js_match_last_group _ _ _ _ _ Hl E) as (p & g & rest' & Hg & _).
  rewrite Hg. done.
Qed.

Lemma datos_built (f p pl vr vc fo : jsstring) :
  obj_set K_folio fo
    (obj_set K_valido_c vc
       (obj_set K_valido_rt vr
          (obj_set K_valido_c []
             (obj_set K_valido_rt []
                (obj_set K_placa pl (obj_set K_planta p (obj_set K_fecha f ([] : obj jsstring))))))))
  = [ (K_fecha, f); (K_planta, p); (K_placa, pl); (K_valido_rt, vr);
      (K_valido_c, vc); (K_folio, fo) ].
Proof. reflexivity. Qed.

Lemma extraer_result text w :
  fst (extraerDatosCRT world logger_info text w) = extraction text.
Proof.
  unfold extraerDatosCRT, extraction, extracted, bind, info.
  rewrite (group1_or_empty_ok re_fecha (date_body true)) by reflexivity.
  rewrite (group1_or_empty_ok re_planta (plus (cls_ci alnum_dash))) by reflexivity.
  rewrite (group1_or_empty_ok re_placa (plus (cls_ci alnum))) by reflexivity.
  unfold section_valido, section_text, has_section.
  destruct (js_match text re_revision_section) as [rm|] eqn:Er;
    destruct (js_match text re_contaminantes_section) as [cm|] eqn:Ec.
  all: try (destruct (js_match_section title_revision (Star false any)
                        (Alt title_contaminantes Eol) text rm eq_refl Er) as [rs Hrs];
            rewrite Hrs; cbn [defined ret fst snd];
            destruct (js_match rs validoPattern) as [rv|]).
  all: try (destruct (js_match_section title_contaminantes (Star false any)
                        (Alt (seqs [str_ci "CERTIFICADO"; ws]) Eol) text cm eq_refl Ec)
              as [cs' Hcs];
            rewrite Hcs; cbn [defined ret fst snd];
            destruct (js_match cs' validoPattern) as [cv|]).
  all: cbn [defined ret throw fst snd negb andb bool_decide].
  all: repeat case_bool_decide;
    repeat match goal with
           | H : ~ is_Some (Some _) |- _ => exfalso; apply H; eexists; reflexivity
           | H : is_Some None |- _ => exfalso; destruct H; discriminate
           end.
  all: cbn [negb andb fst snd throw ret].
  all: try reflexivity.
  all: try rewrite (group1_or_empty_ok re_folio (seqs [str_ci "N°B"; plus digit])) by reflexivity.
  all: reflexivity.
Qed.

Lemma fst_bind {A B} (m : M world A) (f : A -> M world B) w :
  fst (bind world m f w)
  = match fst (m w) with
    | Ok a => fst (f a (snd (m w)))
    | Throw e => Throw e
    end.
Proof. unfold bind. destruct (m w) as [[a|e] w']; reflexivity. Qed.

Lemma check_required_result datos errors entry w :
  fst (check_required world logger_info datos errors entry w)
  = Ok (add_error errors (required_error datos entry)).
Proof.
  unfold check_required, required_error. destruct entry as [field pattern].
  destruct (negb (truthy (obj_get field datos))); [reflexivity|].
  destruct (negb (test pattern _)); reflexivity.
Qed.

Lemma check_optional_result datos errors entry w :
  fst (check_optional world logger_info datos errors entry w)
  = Ok (add_error errors (optional_error datos entry)).
Proof.
  unfold check_optional, optional_error. destruct entry as [field pattern].
  destruct (truthy (obj_get field datos)); [|reflexivity].
  destruct (negb (test pattern _)); reflexivity.
Qed.

Lemma for_of_result {A St} (f : St -> A -> M world St) (g : St -> A -> St) l :
  (forall acc x w, fst (f acc x w) = Ok (g acc x)) ->
  forall acc w, fst (for_of world f l acc w) = Ok (fold_left g l acc).
Proof.
  intros Hf. induction l as [|x l IH]; intros acc w; [reflexivity|].
  cbn [for_of fold_left]. rewrite fst_bind, Hf. apply IH.
Qed.

Lemma validation_result datos fileName w :
  fst (bestEffortValidationCRT world logger_info datos fileName w)
  = validation datos fileName.
Proof.
  unfold bestEffortValidationCRT, validation, validation_errors.
  rewrite fst_bind. cbn [info fst snd].
  rewrite fst_bind.
  rewrite (for_of_result _ (fun acc entry => add_error acc (required_error datos entry)))
    by apply check_required_result.
  rewrite fst_bind.
  rewrite (for_of_result _ (fun acc entry => add_error acc (optional_error datos entry)))
    by apply check_optional_result.
  rewrite fst_bind.
  destruct (negb (has_value datos K_valido_rt) && negb (has_value datos K_valido_c));
    cbn [bind info ret fst snd];
    match goal with |- context [0 <? length ?l] => destruct (0 <? length l) end;
    reflexivity.
Qed.

Lemma procesar_result file w :
  fst (procesarPDFCRT world logger_info logger_error parsePDFBuffer file w)
  = match fst (parsePDFBuffer file
                 (logger_info [LogString (utf16 "Procesando archivo PDF: "
                                          ++ file_name file)] w)) with
    | Ok text => process_text (file_name file) text
    | Throw e => Throw e
    end.
Proof.
  unfold procesarPDFCRT, try_catch.
  match goal with
  | |- fst (match ?m w with _ => _ end) = _ =>
    assert (fst (m w) = match fst (parsePDFBuffer file
                 (logger_info [LogString (utf16 "Procesando archivo PDF: "
                                          ++ file_name file)] w)) with
    | Ok text => process_text (file_name file) text
    | Throw e => Throw e
    end) as Hm; [|destruct (m w) as [[a|e] w']; cbn [fst] in Hm; rewrite <- Hm; reflexivity]
  end.
  rewrite fst_bind. cbn [info fst snd]. rewrite fst_bind.
  destruct (parsePDFBuffer file _) as [[text|e] w1]; [|reflexivity].
  cbn [fst snd]. rewrite fst_bind. cbn [info fst snd].
  rewrite fst_bind. cbn [info fst snd]. rewrite fst_bind, extraer_result.
  unfold process_text. destruct (extraction text) as [datos|e]; [|reflexivity].
  rewrite fst_bind. cbn [info fst snd]. rewrite fst_bind. cbn [info fst snd].
  rewrite fst_bind, validation_result.
  destruct (validation datos (file_name file)) as [[]|e]; reflexivity.
Qed.

End ExtractorFacts.

(** * Titles, sections and their dates *)

Section SectionLemmas.

Local Open Scope nat_scope.

Lemma matches_star_any g pos w : matches (Star g any) pos w [].
Proof.
  revert pos. induction w as [|c w IH]; intros pos; [constructor|].
  change (c :: w) with ([c] ++ w). apply M_StarS; [done| |apply IH].
  by constructor.
Qed.

Lemma occurs_section T L text :
  occurs (Seq T (Seq (Group 1 (Star false any)) (Look (Alt L Eol)))) text
  <-> occurs T text.
Proof.
  split.
  - intros (pre & w & post & -> & H).
    apply matches_Seq_inv in H as (w1 & w2 & -> & H1 & _).
    exists pre, w1, (w2 ++ post). split; [by rewrite <- app_assoc|done].
  - intros (pre & w & post & -> & H).
    exists pre, (w ++ post ++ []), []. split; [by rewrite !app_nil_r|].
    apply M_Seq; [by rewrite !app_nil_r|].
    apply M_Seq.
    + constructor. apply matches_star_any.
    + apply (M_Look (Alt L Eol) _ [] []). apply M_AltR. constructor.
Qed.

Lemma has_section_revision text :
  has_section re_revision_section text = true <-> occurs title_revision text.
Proof.
  unfold has_section. rewrite bool_decide_eq_true, <- not_eq_None_Some, js_match_occurs.
  apply occurs_section.
Qed.

Lemma has_section_contaminantes text :
  has_section re_contaminantes_section text = true <-> occurs title_contaminantes text.
Proof.
  unfold has_section. rewrite bool_decide_eq_true, <- not_eq_None_Some, js_match_occurs.
  apply occurs_section.
Qed.

Lemma month_year_value v :
  matches month_year 0 v [] ->
  v <> [] /\ trim v = v /\ test (seqs [Bol; month_year; Eol]) v = true.
Proof.
  intros H. destruct (month_year_shape _ _ _ H) as (c & s & d & -> & Hc & Hd).
  split; [done|]. split; [by apply trim_id|].
  by apply test_anchored.
Qed.

Lemma valido_value_ok sec vm :
  js_match sec validoPattern = Some vm -> matches month_year 0 (valido_value vm) [].
Proof.
  intros H.
  destruct (js_match_last_group validoPattern 2 month_year sec vm eq_refl H)
    as (p & v & rest' & Hg & Hm).
  pose proof (matches_pure _ _ _ _ Hm eq_refl 0 []) as Hm0.
  destruct (month_year_value v Hm0) as (Hne & Ht & _).
  unfold valido_value. rewrite Hg.
  destruct v as [|c v]; [done|]. unfold js_or. cbn [truthy]. cbv iota. cbn [truthy]. cbv iota. cbn [default from_option id]. by rewrite Ht.
Qed.

Lemma section_valido_cases r text :
  (has_valido r text /\ matches month_year 0 (section_valido r text) [])
  \/ (~ has_valido r text /\ section_valido r text = []).
Proof.
  unfold has_valido, section_valido.
  destruct (section_text r text) as [sec|].
  - destruct (js_match sec validoPattern) as [vm|] eqn:E.
    + left. split; [|by eapply valido_value_ok].
      exists sec. split; [done|]. apply js_match_occurs. by rewrite E.
    + right. split; [|done]. intros (sec' & Hs & Ho). inversion Hs; subst.
      apply js_match_occurs in Ho. done.
  - right. split; [|done]. intros (sec' & Hs & _). done.
Qed.

End SectionLemmas.

(** * Validation *)

Section ValidationLemmas.

Local Open Scope nat_scope.

Lemma truthy_spec (v : option jsstring) :
  truthy v = false <-> empty_value v.
Proof.
  unfold empty_value. destruct v as [[|c s]|]; simpl; split; intros H; auto;
    try done; destruct H; done.
Qed.

Lemma required_error_None datos field pattern :
  required_error datos (field, pattern) = None <-> field_ok datos field pattern.
Proof.
  unfold required_error, field_ok.
  destruct (obj_get field datos) as [[|c s]|]; simpl.
  - split; [done|]. intros (v & Hv & Hne & _). inversion Hv; subst. done.
  - destruct (test pattern (c :: s)) eqn:E; simpl.
    + split; [|done]. intros _. exists (c :: s). done.
    + split; [done|]. intros (v & Hv & _ & Ht). inversion Hv; subst. congruence.
  - split; [done|]. intros (v & Hv & _). done.
Qed.

Lemma optional_error_None datos field pattern :
  optional_error datos (field, pattern) = None
  <-> empty_value (obj_get field datos) \/ field_ok datos field pattern.
Proof.
  unfold optional_error, field_ok, empty_value.
  destruct (obj_get field datos) as [[|c s]|]; simpl.
  - split; auto.
  - destruct (test pattern (c :: s)) eqn:E; simpl.
    + split; [|done]. intros _. right. exists (c :: s). done.
    + split; [done|]. intros [[H|H]|(v & Hv & _ & Ht)]; try done.
      inversion Hv; subst. congruence.
  - split; auto.
Qed.

Lemma required_error_Some datos field pattern :
  required_error datos (field, pattern) <> None
  <-> empty_value (obj_get field datos) \/ malformed datos field pattern.
Proof.
  unfold required_error, malformed, empty_value.
  destruct (obj_get field datos) as [[|c s]|]; simpl.
  - split; auto.
  - destruct (test pattern (c :: s)) eqn:E; simpl.
    + split; [done|]. intros [[H|H]|(v & Hv & _ & Ht)]; try done.
      inversion Hv; subst. congruence.
    + split; [|done]. intros _. right. exists (c :: s). done.
  - split; auto.
Qed.

Lemma optional_error_Some datos field pattern :
  optional_error datos (field, pattern) <> None <-> malformed datos field pattern.
Proof.
  unfold optional_error, malformed.
  destruct (obj_get field datos) as [[|c s]|]; simpl.
  - split; [done|]. intros (v & Hv & Hne & _). inversion Hv; subst. done.
  - destruct (test pattern (c :: s)) eqn:E; simpl.
    + split; [done|]. intros (v & Hv & _ & Ht). inversion Hv; subst. congruence.
    + split; [|done]. intros _. exists (c :: s). done.
  - split; [done|]. intros (v & Hv & _). done.
Qed.

Lemma fold_add_error_nil {A} (g : A -> option jsstring) l acc :
  fold_left (fun acc x => add_error acc (g x)) l acc = []
  <-> acc = [] /\ Forall (fun x => g x = None) l.
Proof.
  revert acc. induction l as [|x l IH]; intros acc; simpl.
  - split; [auto|]. by intros [? _].
  - rewrite IH. destruct (g x) as [msg|] eqn:E; simpl.
    + split.
      * intros [H _]. by destruct acc.
      * intros [_ H]. inversion H; subst. congruence.
    + split.
      * intros [? ?]. split; [done|]. by constructor.
      * intros [? H]. inversion H; subst. done.
Qed.

(** [has_value] on a field that passes the optional check. *)
Lemma has_value_optional datos k :
  optional_error datos (k, seqs [Bol; month_year; Eol]) = None ->
  has_value datos k = truthy (obj_get k datos).
Proof.
  intros H. apply optional_error_None in H. unfold has_value.
  destruct H as [H|(v & Hv & Hne & Ht)].
  - apply truthy_spec in H. by rewrite H.
  - rewrite Hv. apply test_anchored in Ht; [|done].
    destruct (month_year_value v Ht) as (_ & Htrim & _).
    cbn [default from_option id]. rewrite Htrim.
    destruct v; [done|]. reflexivity.
Qed.

Lemma validation_errors_nil datos :
  validation_errors datos = []
  <-> Forall (fun e => required_error datos e = None) requiredPatterns
      /\ Forall (fun e => optional_error datos e = None) optionalPatterns
      /\ ~ (empty_value (obj_get K_valido_rt datos)
            /\ empty_value (obj_get K_valido_c datos)).
Proof.
  unfold validation_errors.
  assert (Hopt : Forall (fun e => optional_error datos e = None) optionalPatterns ->
                 has_value datos K_valido_rt = truthy (obj_get K_valido_rt datos)
                 /\ has_value datos K_valido_c = truthy (obj_get K_valido_c datos)).
  { intros H. unfold optionalPatterns in H.
    apply Forall_cons in H as [H1 H2]. apply Forall_cons in H2 as [H2 _].
    split; [exact (has_value_optional _ _ H1)|exact (has_value_optional _ _ H2)]. }
  rewrite <- (truthy_spec (obj_get K_valido_rt datos)),
          <- (truthy_spec (obj_get K_valido_c datos)).
  destruct (negb (has_value datos K_valido_rt) && negb (has_value datos K_valido_c)) eqn:E.
  - split.
    + intros H. by destruct (fold_left _ optionalPatterns _).
    + intros (_ & H2 & H3). exfalso. apply Hopt in H2 as [Hr Hc].
      rewrite Hr, Hc in E. apply andb_true_iff in E as [E1 E2].
      apply negb_true_iff in E1, E2. auto.
  - rewrite fold_add_error_nil, fold_add_error_nil. split.
    + intros [[_ H1] H2]. split; [done|]. split; [done|].
      apply Hopt in H2 as [Hr Hc]. rewrite Hr, Hc in E.
      intros [E1 E2]. rewrite E1, E2 in E. done.
    + intros (H1 & H2 & _). done.
Qed.

Lemma required_all_ok datos :
  (forall field pattern, In (field, pattern) requiredPatterns -> field_ok datos field pattern) ->
  Forall (fun e => required_error datos e = None) requiredPatterns.
Proof.
  intros Hreq. apply Forall_forall. intros [field pattern] He.
  apply required_error_None, Hreq. by apply list_elem_of_In.
Qed.

Lemma optional_one_ok datos :
  (empty_value (obj_get K_valido_rt datos)
   /\ field_ok datos K_valido_c (seqs [Bol; month_year; Eol])
   \/ field_ok datos K_valido_rt (seqs [Bol; month_year; Eol])
      /\ empty_value (obj_get K_valido_c datos)) ->
  Forall (fun e => optional_error datos e = None) optionalPatterns.
Proof.
  intros [[He Hf]|[Hf He]].
  - apply Forall_cons; split; [apply optional_error_None; left; exact He|].
    apply Forall_cons; split; [apply optional_error_None; right; exact Hf|].
    apply Forall_nil_2.
  - apply Forall_cons; split; [apply optional_error_None; right; exact Hf|].
    apply Forall_cons; split; [apply optional_error_None; left; exact He|].
    apply Forall_nil_2.
Qed.

Lemma validation_errors_ne datos :
  validation_errors datos <> []
  <-> (exists field pattern,
         In (field, pattern) requiredPatterns
         /\ (empty_value (obj_get field datos) \/ malformed datos field pattern))
     \/ (exists field pattern,
           In (field, pattern) optionalPatterns /\ malformed datos field pattern)
     \/ (empty_value (obj_get K_valido_rt datos) /\ empty_value (obj_get K_valido_c datos)).
Proof.
  assert (Hnil := validation_errors_nil datos). split.
  - intros Hne.
    destruct (decide (Forall (fun e => required_error datos e = None) requiredPatterns))
      as [H1|H1].
    2:{ left. apply not_Forall_Exists in H1; [|intros; apply _].
        apply Exists_exists in H1 as ([field pattern] & Hin & Hbad).
        exists field, pattern. split; [by apply list_elem_of_In|].
        by apply required_error_Some. }
    destruct (decide (Forall (fun e => optional_error datos e = None) optionalPatterns))
      as [H2|H2].
    2:{ right; left. apply not_Forall_Exists in H2; [|intros; apply _].
        apply Exists_exists in H2 as ([field pattern] & Hin & Hbad).
        exists field, pattern. split; [by apply list_elem_of_In|].
        by apply optional_error_Some. }
    right; right.
    rewrite <- (truthy_spec (obj_get K_valido_rt datos)),
            <- (truthy_spec (obj_get K_valido_c datos)) in Hnil |- *.
    destruct (truthy (obj_get K_valido_rt datos)) eqn:Er;
      destruct (truthy (obj_get K_valido_c datos)) eqn:Ec; try done;
      exfalso; apply Hne, Hnil;
      (split; [done|]); (split; [done|]); intros [? ?]; done.
  - intros H Hn. apply Hnil in Hn as (H1 & H2 & H3).
    rewrite Forall_forall in H1, H2.
    destruct H as [(field & pattern & Hin & Hbad)|[(field & pattern & Hin & Hbad)|Hbad]];
      [| |done].
    + apply required_error_Some in Hbad. apply Hbad. apply H1.
      by apply list_elem_of_In.
    + apply optional_error_Some in Hbad. apply Hbad. apply H2.
      by apply list_elem_of_In.
Qed.

Lemma validation_cases datos fileName :
  (validation_errors datos = [] /\ validation datos fileName = Ok tt)
  \/ (validation_errors datos <> []
      /\ validation datos fileName
         = Throw (validation_error fileName (validation_errors datos))).
Proof.
  unfold validation. destruct (validation_errors datos) as [|m errs]; [left|right]; done.
Qed.

End ValidationLemmas.

Section ValidationFacts.

Local Open Scope nat_scope.

Variable world : Type.
Variable logger_info : list log_arg -> world -> world.

(** C2. [bestEffortValidationCRT] throws exactly when a required field
    (of [requiredPatterns]) is absent or empty or fails its pattern, or an
    optional field that is not empty fails its pattern, or both optional
    fields are empty. With the required fields in order, one optional
    field empty and the other one valid is no error. The function has no
    value to return and only reads [datos]: on success the outcome is
    [Ok tt], and the error thrown otherwise carries every message. *)
Theorem bestEffortValidationCRT_throws_iff
    (datos : obj jsstring) (fileName : jsstring) (w : world) :
  let result := fst (bestEffortValidationCRT world logger_info datos fileName w) in
  let rt := obj_get K_valido_rt datos in
  let co := obj_get K_valido_c datos in
  ((exists e, result = Throw e) <->
     (exists field pattern,
        In (field, pattern) requiredPatterns
        /\ (empty_value (obj_get field datos) \/ malformed datos field pattern))
     \/ (exists field pattern,
          In (field, pattern) optionalPatterns /\ malformed datos field pattern)
     \/ (empty_value rt /\ empty_value co))
  /\ ((forall field pattern,
         In (field, pattern) requiredPatterns -> field_ok datos field pattern) ->
      (empty_value rt /\ field_ok datos K_valido_c (seqs [Bol; month_year; Eol])
       \/ field_ok datos K_valido_rt (seqs [Bol; month_year; Eol]) /\ empty_value co) ->
      result = Ok tt)
  /\ (result = Ok tt \/ result = Throw (validation_error fileName (validation_errors datos))).
Proof.
  cbv zeta. rewrite validation_result.
  destruct (validation_cases datos fileName) as [[Hn ->]|[Hn ->]].
  - split; [|split; auto]. split; [intros [e He]; done|].
    intros H. apply validation_errors_ne in H. done.
  - split; [|split; auto].
    + split; [intros _; by apply validation_errors_ne|eauto].
    + intros Hreq Hopt. exfalso. apply Hn, validation_errors_nil.
      split; [by apply required_all_ok|]. split; [by apply optional_one_ok|].
      intros [Hr Hc].
      destruct Hopt as [[_ (v & Hv & Hne & _)]|[(v & Hv & Hne & _) _]].
      * rewrite Hv in Hc. destruct Hc as [Hc|Hc]; [done|]. by inversion Hc.
      * rewrite Hv in Hr. destruct Hr as [Hr|Hr]; [done|]. by inversion Hr.
Qed.
End ValidationFacts.

(** * Extraction and the four cases of sections *)

Section ExtractionLemmas.

Local Open Scope nat_scope.

Lemma field_value_absent r text : ~ occurs r text -> field_value r text = [].
Proof.
  intros H. unfold field_value. destruct (js_match text r) eqn:E; [|done].
  exfalso. apply H, js_match_occurs. by rewrite E.
Qed.

Lemma has_valido_section r text :
  has_valido r text -> has_section r text = true.
Proof.
  intros (sec & Hs & _). unfold has_section, section_text in *.
  destruct (js_match text r); [|done]. apply bool_decide_eq_true. eauto.
Qed.

Lemma section_valido_absent r text :
  has_section r text = false -> section_valido r text = [].
Proof.
  unfold has_section, section_valido, section_text. intros H.
  destruct (js_match text r); [|done].
  apply bool_decide_eq_false in H. exfalso. apply H. eauto.
Qed.

Lemma extraction_cases text :
  (occurs title_revision text \/ occurs title_contaminantes text)
  /\ extraction text = Ok (extracted text)
  \/ ~ occurs title_revision text /\ ~ occurs title_contaminantes text
     /\ extraction text = Throw no_certificate.
Proof.
  unfold extraction.
  rewrite <- has_section_revision, <- has_section_contaminantes.
  destruct (has_section re_revision_section text);
    destruct (has_section re_contaminantes_section text); cbn [negb andb]; auto.
Qed.

Lemma ordenados_extracted (name text : jsstring) :
  datosOrdenados (obj_set K_nombre name (extracted text))
  = [ (K_nombre, VString name);
      (K_fecha, VString (field_value re_fecha text));
      (K_planta, VString (field_value re_planta text));
      (K_placa, VString (field_value re_placa text));
      (K_valido_rt, VString (section_valido re_revision_section text));
      (K_valido_c, VString (section_valido re_contaminantes_section text));
      (K_folio, VString (field_value re_folio text)) ].
Proof. reflexivity. Qed.

Lemma extracted_valido_rt text :
  obj_get K_valido_rt (extracted text) = Some (section_valido re_revision_section text).
Proof. reflexivity. Qed.

Lemma extracted_valido_c text :
  obj_get K_valido_c (extracted text) = Some (section_valido re_contaminantes_section text).
Proof. reflexivity. Qed.

Lemma has_valido_value r text :
  has_valido r text ->
  section_valido r text <> []
  /\ test (seqs [Bol; month_year; Eol]) (section_valido r text) = true.
Proof.
  intros H. destruct (section_valido_cases r text) as [[_ Hm]|[Hn _]]; [|done].
  destruct (month_year_value _ Hm) as (Hne & _ & Ht). done.
Qed.

Lemma optional_extracted_ok text :
  Forall (fun e => optional_error (extracted text) e = None) optionalPatterns.
Proof.
  unfold optionalPatterns.
  apply Forall_cons; split; [|apply Forall_cons; split; [|apply Forall_nil_2]];
    apply optional_error_None.
  - rewrite extracted_valido_rt. unfold field_ok. rewrite extracted_valido_rt.
    destruct (section_valido_cases re_revision_section text) as [[H _]|[_ ->]].
    + right. apply has_valido_value in H as [? ?]. eauto.
    + left. by right.
  - rewrite extracted_valido_c. unfold field_ok. rewrite extracted_valido_c.
    destruct (section_valido_cases re_contaminantes_section text) as [[H _]|[_ ->]].
    + right. apply has_valido_value in H as [? ?]. eauto.
    + left. by right.
Qed.

Lemma validation_extracted_ok text name :
  fixed_fields_valid text ->
  has_valido re_revision_section text \/ has_valido re_contaminantes_section text ->
  validation (extracted text) name = Ok tt.
Proof.
  intros Hfix Hv.
  destruct (validation_cases (extracted text) name) as [[_ ->]|[Hn _]]; [done|].
  exfalso. apply Hn, validation_errors_nil.
  split; [by apply required_all_ok|]. split; [apply optional_extracted_ok|].
  rewrite extracted_valido_rt, extracted_valido_c. intros [Hr Hc].
  destruct Hv as [H|H]; apply has_valido_value in H as [Hne _].
  - destruct Hr as [Hr|Hr]; [done|]. by inversion Hr.
  - destruct Hc as [Hc|Hc]; [done|]. by inversion Hc.
Qed.

Lemma validation_extracted_none text name :
  fixed_fields_valid text ->
  ~ has_valido re_revision_section text ->
  ~ has_valido re_contaminantes_section text ->
  validation (extracted text) name = Throw (validation_error name [msg_none]).
Proof.
  intros Hfix Hr Hc. unfold validation, validation_errors.
  assert (fold_left (fun acc entry => add_error acc (required_error (extracted text) entry))
            requiredPatterns [] = []) as ->.
  { apply fold_add_error_nil. split; [done|]. by apply required_all_ok. }
  assert (fold_left (fun acc entry => add_error acc (optional_error (extracted text) entry))
            optionalPatterns [] = []) as ->.
  { apply fold_add_error_nil. split; [done|]. apply optional_extracted_ok. }
  unfold has_value. rewrite extracted_valido_rt, extracted_valido_c.
  destruct (section_valido_cases re_revision_section text) as [[? _]|[_ ->]]; [done|].
  destruct (section_valido_cases re_contaminantes_section text) as [[? _]|[_ ->]]; [done|].
  reflexivity.
Qed.

End ExtractionLemmas.

Section CrtFacts.

Local Open Scope nat_scope.

Variable world : Type.
Variable logger_info : list log_arg -> world -> world.
Variable logger_error : list log_arg -> world -> world.
Variable parsePDFBuffer : File -> world -> outcome jsstring * world.

(** C4. When at least one of the two certificate titles occurs in the
    text, [extraerDatosCRT] returns a record, and a fixed field whose
    pattern occurs nowhere in the text is the empty string in it. It
    throws exactly when neither title occurs, and then the error is the
    one of the missing certificates. *)
Theorem extraerDatosCRT_missing_fields (text : jsstring) (w : world) :
  let result := fst (extraerDatosCRT world logger_info text w) in
  ((occurs title_revision text \/ occurs title_contaminantes text) ->
     exists datos, result = Ok datos
       /\ (~ occurs re_fecha text -> obj_get K_fecha datos = Some [])
       /\ (~ occurs re_planta text -> obj_get K_planta datos = Some [])
       /\ (~ occurs re_placa text -> obj_get K_placa datos = Some [])
       /\ (~ occurs re_folio text -> obj_get K_folio datos = Some []))
  /\ ((exists e, result = Throw e)
      <-> ~ occurs title_revision text /\ ~ occurs title_contaminantes text)
  /\ (forall e, result = Throw e -> e = no_certificate).
Proof.
  cbv zeta. rewrite extraer_result.
  destruct (extraction_cases text) as [[Hs ->]|(Hr & Hc & ->)].
  - split; [|split].
    + intros _. exists (extracted text). split; [done|].
      repeat split; intros H; unfold extracted;
        rewrite (field_value_absent _ _ H); reflexivity.
    + split; [intros [e He]; done|]. intros [? ?]. destruct Hs; done.
    + intros e He. done.
  - split; [|split].
    + intros [H|H]; done.
    + split; [done|eauto].
    + intros e He. by inversion He.
Qed.

(** C3. An entry that [procesarPDFCRT] returns has the seven keys of the
    header row of [generarExcel], in that order; each of them holds a
    string; and the "Válido Hasta" field of a certificate whose title does
    not occur in the text is there with the empty string. *)
Theorem procesarPDFCRT_entry_schema (file : File) (w : world) (entry : obj jsval) :
  fst (procesarPDFCRT world logger_info logger_error parsePDFBuffer file w) = Ok entry ->
  obj_keys entry = headers
  /\ (forall k, In k headers -> exists s, obj_get k entry = Some (VString s))
  /\ exists text,
       fst (parsePDFBuffer file
              (logger_info [LogString (utf16 "Procesando archivo PDF: "
                                       ++ file_name file)] w)) = Ok text
       /\ (~ occurs title_revision text ->
           obj_get K_valido_rt entry = Some (VString []))
       /\ (~ occurs title_contaminantes text ->
           obj_get K_valido_c entry = Some (VString [])).
Proof.
  rewrite procesar_result.
  destruct (fst (parsePDFBuffer file _)) as [text|e]; [|done].
  unfold process_text.
  destruct (extraction_cases text) as [[Hs ->]|(Hr & Hc & ->)]; [|done].
  destruct (validation (extracted text) (file_name file)) as [[]|e]; [|done].
  rewrite ordenados_extracted. intros H. injection H as <-.
  split; [reflexivity|]. split.
  - intros k Hk. unfold headers in Hk.
    repeat (destruct Hk as [<-|Hk]; [eexists; reflexivity|]). destruct Hk.
  - exists text. split; [done|]. split; intros Hn.
    + rewrite (section_valido_absent re_revision_section text); [reflexivity|].
      apply not_true_is_false. by rewrite has_section_revision.
    + rewrite (section_valido_absent re_contaminantes_section text); [reflexivity|].
      apply not_true_is_false. by rewrite has_section_contaminantes.
Qed.

(** C1, as amended. For a text whose fixed fields are extracted and
    pass their patterns: with the Revisión Técnica title only, and a
    "VÁLIDO HASTA" date in that section, [procesarPDFCRT] succeeds with the
    date and an empty "Válido Hasta Contaminantes"; likewise with the
    Contaminantes title only; with both titles and a date in each section
    it succeeds with both fields non-empty; with neither title it fails
    with the error of the missing certificates, thrown by the extraction;
    and with a title but no date in any section it fails in the
    validation, which asks for one of the two dates. *)
Theorem crt_section_cases (file : File) (text : jsstring) (w : world) :
  (forall w', fst (parsePDFBuffer file w') = Ok text) ->
  fixed_fields_valid text ->
  let result := fst (procesarPDFCRT world logger_info logger_error parsePDFBuffer file w) in
  let vr := section_valido re_revision_section text in
  let vc := section_valido re_contaminantes_section text in
  (occurs title_revision text -> ~ occurs title_contaminantes text ->
   has_valido re_revision_section text ->
   exists entry, result = Ok entry
     /\ obj_get K_valido_rt entry = Some (VString vr) /\ vr <> []
     /\ obj_get K_valido_c entry = Some (VString []))
  /\ (~ occurs title_revision text -> occurs title_contaminantes text ->
      has_valido re_contaminantes_section text ->
      exists entry, result = Ok entry
        /\ obj_get K_valido_rt entry = Some (VString [])
        /\ obj_get K_valido_c entry = Some (VString vc) /\ vc <> [])
  /\ (occurs title_revision text -> occurs title_contaminantes text ->
      has_valido re_revision_section text ->
      has_valido re_contaminantes_section text ->
      exists entry, result = Ok entry
        /\ obj_get K_valido_rt entry = Some (VString vr) /\ vr <> []
        /\ obj_get K_valido_c entry = Some (VString vc) /\ vc <> [])
  /\ (~ occurs title_revision text -> ~ occurs title_contaminantes text ->
      result = Throw no_certificate)
  /\ (occurs title_revision text \/ occurs title_contaminantes text ->
      ~ has_valido re_revision_section text ->
      ~ has_valido re_contaminantes_section text ->
      result = Throw (validation_error (file_name file) [msg_none])).
Proof.
  intros Hparse Hfix. cbv zeta. rewrite procesar_result, Hparse. unfold process_text.
  assert (Hok : has_valido re_revision_section text
                \/ has_valido re_contaminantes_section text ->
                match extraction text with
                | Ok datos =>
                  match validation datos (file_name file) with
                  | Ok _ => Ok (datosOrdenados (obj_set K_nombre (file_name file) datos))
                  | Throw e => Throw e
                  end
                | Throw e => Throw e
                end
                = Ok (datosOrdenados (obj_set K_nombre (file_name file) (extracted text)))).
  { intros Hv. unfold extraction.
    assert (has_section re_revision_section text = true
            \/ has_section re_contaminantes_section text = true) as Hs.
    { destruct Hv as [H|H]; apply has_valido_section in H; auto. }
    assert (negb (has_section re_revision_section text)
            && negb (has_section re_contaminantes_section text) = false) as ->.
    { destruct Hs as [-> | ->]; [done|]. by rewrite andb_false_r. }
    by rewrite (validation_extracted_ok text (file_name file) Hfix Hv). }
  rewrite ordenados_extracted in Hok.
  repeat split.
  - intros _ Hc Hv. eexists. split; [apply Hok; auto|].
    apply has_valido_value in Hv as [Hne _].
    rewrite (section_valido_absent re_contaminantes_section text); [done|].
    apply not_true_is_false. by rewrite has_section_contaminantes.
  - intros Hr _ Hv. eexists. split; [apply Hok; auto|].
    apply has_valido_value in Hv as [Hne _].
    rewrite (section_valido_absent re_revision_section text); [done|].
    apply not_true_is_false. by rewrite has_section_revision.
  - intros _ _ Hvr Hvc. eexists. split; [apply Hok; auto|].
    apply has_valido_value in Hvr as [Hr _]. apply has_valido_value in Hvc as [Hc _].
    done.
  - intros Hr Hc.
    destruct (extraction_cases text) as [[[Hs|Hs] _]|(_ & _ & ->)]; done.
  - intros Hs Hr Hc.
    destruct (extraction_cases text) as [[_ ->]|(Hnr & Hnc & _)].
    + by rewrite (validation_extracted_none text (file_name file) Hfix Hr Hc).
    + destruct Hs; done.
Qed.

End CrtFacts.

(** * The batch pipeline *)

Section PipelineFacts.

Import Pipeline.
Local Open Scope nat_scope.

Lemma emit_length n r cs : length (emit n r cs) = length cs.
Proof.
  revert r. induction cs as [|c cs IH]; intros r; [done|].
  cbn [emit]. destruct (on_completion n r c) as [r' ev] eqn:E. simpl. by rewrite IH.
Qed.

Lemma emit_sequence n r cs :
  map sequence (emit n r cs) = seq (S (completed r)) (length cs).
Proof.
  revert r. induction cs as [|c cs IH]; intros r; [done|].
  cbn [emit]. unfold on_completion. cbn [map length seq sequence completed].
  f_equal. rewrite IH. done.
Qed.

Lemma emit_lookup n r cs k ev :
  emit n r cs !! k = Some ev ->
  exists c, cs !! k = Some c
    /\ sequence ev = S (completed r + k)
    /\ total ev = n
    /\ elapsedMs ev = (done_at c - started r)%Z
    /\ estimatedRemainingMs ev = eta (done_at c - started r) (S (completed r + k)) n
    /\ fileName ev = source_of (done_outcome c).
Proof.
  revert r k. induction cs as [|c cs IH]; intros r k H; [done|].
  cbn [emit] in H. unfold on_completion in H. destruct k as [|k]; simpl in H.
  - inversion H; subst. exists c. simpl. rewrite Nat.add_0_r. done.
  - apply IH in H as (c' & Hc & Hs & Ht & He & Hx & Hf). exists c'.
    cbn [completed started] in *. rewrite Hs, Ht, He, Hx, Hf.
    replace (S (completed r) + k) with (completed r + S k) by lia. done.
Qed.

Lemma emit_counters n r cs k ev :
  succeeded r + failed r = completed r ->
  emit n r cs !! k = Some ev ->
  runningSuccesses ev + runningFailures ev = sequence ev.
Proof.
  revert r k. induction cs as [|c cs IH]; intros r k Hr H; [done|].
  cbn [emit] in H. unfold on_completion in H. destruct k as [|k]; simpl in H.
  - inversion H; subst. simpl. destruct (is_success (done_outcome c)); lia.
  - eapply IH; [|exact H]. simpl. destruct (is_success (done_outcome c)); lia.
Qed.

Lemma submit_indices files : map task_index (submit files) = seq 0 (length files).
Proof.
  unfold submit. apply list_eq. intros i.
  rewrite list_lookup_fmap, list_lookup_imap.
  destruct (files !! i) as [f|] eqn:E; simpl.
  - symmetry. apply lookup_seq. split; [done|]. by eapply lookup_lt_Some.
  - symmetry. apply lookup_seq_ge. by apply lookup_ge_None.
Qed.

Lemma submit_length files : length (submit files) = length files.
Proof. by rewrite <- (length_map task_index), submit_indices, length_seq. Qed.

Lemma dispatch_indices process latency timeout tasks : forall slots,
  map done_index (dispatch process latency timeout slots tasks) = map task_index tasks.
Proof.
  induction tasks as [|t tasks IH]; intros slots; [done|].
  cbn [dispatch map done_index]. by rewrite IH.
Qed.

Lemma completion_order_perm cs : completion_order cs ≡ₚ cs.
Proof. apply merge_sort_Permutation. Qed.

(** Aggregation *)
Lemma aggregate_from_lookup cs : forall (m : gmap nat ExtractionOutcome) i,
  NoDup (map done_index cs) ->
  fold_left (fun agg c => <[done_index c := done_outcome c]> agg) cs m !! i
  = match list_find (fun c => done_index c = i) cs with
    | Some (_, c) => Some (done_outcome c)
    | None => m !! i
    end.
Proof.
  induction cs as [|c cs IH]; intros m i Hnd; [done|].
  cbn [fold_left map] in *. apply NoDup_cons in Hnd as [Hnotin Hnd].
  rewrite IH by done. cbn [list_find]. 
  destruct (decide (done_index c = i)) as [Heq|Hne].
  - subst i. cbn [fmap option_fmap option_map].
    destruct (list_find (fun c0 => done_index c0 = done_index c) cs) as [[j c']|] eqn:E.
    + exfalso. apply list_find_Some in E as (Hj & Hc' & _).
      apply Hnotin. rewrite <- Hc'. apply list_elem_of_fmap_2.
      by eapply list_elem_of_lookup_2.
    + simpl. by rewrite lookup_insert_eq.
  - destruct (list_find (fun c0 => done_index c0 = i) cs) as [[j c']|] eqn:E; simpl.
    + done.
    + by rewrite lookup_insert_ne.
Qed.

Lemma aggregate_lookup cs c :
  NoDup (map done_index cs) -> c ∈ cs ->
  aggregate cs !! done_index c = Some (done_outcome c).
Proof.
  intros Hnd Hc. unfold aggregate. rewrite aggregate_from_lookup by done.
  destruct (list_find (fun c0 => done_index c0 = done_index c) cs) as [[j c']|] eqn:E.
  - apply list_find_Some in E as (Hj & Hi & _). f_equal.
    assert (c' = c) as ->; [|done].
    apply list_elem_of_lookup in Hc as [k Hk].
    assert (j = k) as ->.
    { apply (NoDup_lookup (map done_index cs) j k (done_index c) Hnd).
      - by rewrite list_lookup_fmap, Hj, <- Hi.
      - by rewrite list_lookup_fmap, Hk. }
    congruence.
  - exfalso. apply list_find_None in E. rewrite Forall_forall in E.
    by apply (E c).
Qed.

Lemma dispatch_lookup process latency timeout tasks : forall slots i t,
  tasks !! i = Some t ->
  exists c, dispatch process latency timeout slots tasks !! i = Some c
    /\ done_index c = task_index t
    /\ done_outcome c = task_outcome process latency timeout t.
Proof.
  induction tasks as [|t0 tasks IH]; intros slots i t H; [done|].
  destruct i as [|i]; cbn [dispatch].
  - inversion H; subst. eexists. split; [reflexivity|]. done.
  - simpl in H. apply (IH _ _ _ H).
Qed.

Lemma submit_lookup files i t : submit files !! i = Some t -> task_index t = i.
Proof.
  unfold submit. rewrite list_lookup_imap. destruct (files !! i); [|done].
  simpl. intros H. by inversion H.
Qed.

Lemma add_outcome_counts rep o :
  totalProcessed (add_outcome rep o) = S (totalProcessed rep)
  /\ totalSuccess (add_outcome rep o) + totalFailure (add_outcome rep o)
     = S (totalSuccess rep + totalFailure rep).
Proof. destruct o; simpl; lia. Qed.

Lemma fold_outcomes_counts outs : forall rep,
  totalProcessed (fold_left add_outcome outs rep) = totalProcessed rep + length outs
  /\ totalSuccess (fold_left add_outcome outs rep)
     + totalFailure (fold_left add_outcome outs rep)
     = totalSuccess rep + totalFailure rep + length outs.
Proof.
  induction outs as [|o outs IH]; intros rep; simpl; [lia|].
  destruct (IH (add_outcome rep o)) as [-> ->].
  destruct (add_outcome_counts rep o) as [-> ->]. lia.
Qed.

Lemma build_report_outcomes (agg : gmap nat ExtractionOutcome) outs :
  (forall i o, outs !! i = Some o -> agg !! i = Some o) ->
  build_report (length outs) agg = fold_left add_outcome outs empty_report.
Proof.
  unfold build_report. induction outs as [|o outs IH] using rev_ind; intros H; [done|].
  rewrite length_app. cbn [length]. rewrite Nat.add_1_r, seq_S, !fold_left_app.
  cbn [fold_left Nat.add].
  rewrite IH.
  - rewrite (H (length outs) o); [done|]. by rewrite lookup_app_r, Nat.sub_diag.
  - intros i o' Hi. apply H. by apply lookup_app_l_Some.
Qed.

(** The report of a set of completions does not depend on their order. *)
Lemma report_of_completions (tasks : list DocumentTask) process latency timeout slots cs :
  map task_index tasks = seq 0 (length tasks) ->
  cs ≡ₚ dispatch process latency timeout slots tasks ->
  build_report (length tasks) (aggregate cs)
  = fold_left add_outcome (map (task_outcome process latency timeout) tasks) empty_report.
Proof.
  intros Hidx Hperm.
  rewrite <- (length_map (task_outcome process latency timeout) tasks).
  apply build_report_outcomes. intros i o Ho.
  rewrite list_lookup_fmap in Ho.
  destruct (tasks !! i) as [t|] eqn:Et; [|done]. simpl in Ho. inversion Ho; subst.
  destruct (dispatch_lookup process latency timeout tasks slots i t Et)
    as (c & Hc & Hi & Hout).
  assert (task_index t = i) as Hti.
  { assert (map task_index tasks !! i = Some (task_index t)) as Hl
      by (by rewrite list_lookup_fmap, Et).
    rewrite Hidx in Hl. apply lookup_seq in Hl as [? _]. lia. }
  rewrite <- Hout, <- Hti, <- Hi. apply aggregate_lookup.
  - rewrite Hperm, dispatch_indices, Hidx. apply NoDup_seq.
  - rewrite Hperm. by eapply list_elem_of_lookup_2.
Qed.

Lemma run_batch_done cfg start process latency files evs rep :
  run_batch cfg start process latency files = Done evs rep ->
  files <> []
  /\ evs = emit (length files) (new_reporter start)
             (completion_order
                (dispatch process latency (task_timeout cfg)
                       (replicate (concurrency cfg) start) (submit files)))
  /\ rep = fold_left add_outcome
             (map (task_outcome process latency (task_timeout cfg)) (submit files))
             empty_report.
Proof.
  unfold run_batch. destruct (preconditions cfg files) eqn:Hp; [|done].
  cbn [negb]. intros H. inversion H; subst. clear H.
  split; [|split; [done|]].
  - intros ->. done.
  - rewrite <- (submit_length files).
    apply (report_of_completions _ _ _ _ (replicate (concurrency cfg) start)).
    + by rewrite submit_indices, submit_length.
    + apply completion_order_perm.
Qed.

Lemma build_report_counts (agg : gmap nat ExtractionOutcome) l : forall rep,
  Forall (fun i => is_Some (agg !! i)) l ->
  let rep' := fold_left (fun rep i => match agg !! i with
                                      | Some o => add_outcome rep o
                                      | None => rep
                                      end) l rep in
  totalProcessed rep' = totalProcessed rep + length l
  /\ totalSuccess rep' + totalFailure rep'
     = totalSuccess rep + totalFailure rep + length l.
Proof.
  induction l as [|i l IH]; intros rep Hl; cbn zeta; simpl; [lia|].
  apply Forall_cons in Hl as [[o Ho] Hl]. rewrite Ho.
  destruct (IH (add_outcome rep o) Hl) as [-> ->].
  destruct (add_outcome_counts rep o) as [-> ->]. lia.
Qed.

(** C6. For completions that cover the submission indices 0 .. n-1 once
    each, in any order, the report has [totalProcessed = n] and
    [totalSuccess + totalFailure = totalProcessed]; so has the report of
    every batch that [run_batch] brings to [Done], with n the number of
    files. *)
Theorem batch_report_counts :
  (forall n cs,
     map done_index cs ≡ₚ seq 0 n ->
     totalProcessed (build_report n (aggregate cs)) = n
     /\ totalSuccess (build_report n (aggregate cs))
        + totalFailure (build_report n (aggregate cs))
        = totalProcessed (build_report n (aggregate cs)))
  /\ (forall cfg start process latency files evs rep,
        run_batch cfg start process latency files = Done evs rep ->
        totalProcessed rep = length files
        /\ totalSuccess rep + totalFailure rep = totalProcessed rep).
Proof.
  split.
  - intros n cs Hperm.
    assert (NoDup (map done_index cs)) as Hnd by (rewrite Hperm; apply NoDup_seq).
    assert (Forall (fun i => is_Some (aggregate cs !! i)) (seq 0 n)) as Hsome.
    { apply Forall_forall. intros i Hi.
      assert (i ∈ map done_index cs) as Hin by (by rewrite Hperm).
      apply list_elem_of_fmap in Hin as (c & -> & Hc).
      rewrite aggregate_lookup by done. eauto. }
    destruct (build_report_counts (aggregate cs) (seq 0 n) empty_report Hsome)
      as [H1 H2].
    unfold build_report. rewrite H1, H2, length_seq. simpl. done.
  - intros cfg start process latency files evs rep H.
    apply run_batch_done in H as (_ & _ & ->).
    destruct (fold_outcomes_counts
                (map (task_outcome process latency (task_timeout cfg)) (submit files))
                empty_report) as [-> ->].
    rewrite length_map, submit_length. simpl. done.
Qed.

(** C5. Whatever the order in which the n tasks complete, the sequence
    numbers of the events are 1, 2, ..., n; so are they for every batch
    that [run_batch] brings to [Done]. The k-th event (from 0) has number
    k + 1, the count of completions so far, which is also the sum of its
    two running totals; the submission index of the task plays no part. *)
Theorem progress_sequence_numbers :
  (forall n start cs,
     map done_index cs ≡ₚ seq 0 n ->
     map sequence (emit n (new_reporter start) cs) = seq 1 n)
  /\ (forall cfg start process latency files evs rep,
        run_batch cfg start process latency files = Done evs rep ->
        map sequence evs = seq 1 (length files))
  /\ (forall n start cs k ev,
        emit n (new_reporter start) cs !! k = Some ev ->
        sequence ev = S k
        /\ runningSuccesses ev + runningFailures ev = sequence ev).
Proof.
  split; [|split].
  - intros n start cs Hperm. rewrite emit_sequence. simpl.
    apply Permutation_length in Hperm. rewrite length_map, length_seq in Hperm.
    by rewrite Hperm.
  - intros cfg start process latency files evs rep H.
    apply run_batch_done in H as (_ & -> & _).
    rewrite emit_sequence. simpl. f_equal.
    rewrite (Permutation_length (completion_order_perm _)).
    rewrite <- (length_map done_index), dispatch_indices, length_map. apply submit_length.
  - intros n start cs k ev H. split.
    + apply emit_lookup in H as (c & _ & Hs & _). by rewrite Hs.
    + eapply emit_counters; [|exact H]. done.
Qed.





Lemma earlier_trans : Transitive earlier.
Proof. intros a b c. unfold earlier. lia. Qed.






End PipelineFacts.

(** * Sample runs *)

Section SampleRuns.

Import Pipeline.
Local Open Scope nat_scope.

Lemma occurs_computed r text : js_match text r <> None -> occurs r text.
Proof. apply js_match_occurs. Qed.

Lemma not_occurs_computed r text : js_match text r = None -> ~ occurs r text.
Proof. intros H Ho. by apply js_match_occurs in Ho. Qed.


Lemma fixed_fields_check_valid text :
  fixed_fields_check text = true -> fixed_fields_valid text.
Proof.
  unfold fixed_fields_check. rewrite forallb_forall. intros H field pattern Hin.
  apply required_error_None. specialize (H _ Hin).
  by destruct (required_error (extracted text) (field, pattern)).
Qed.

Lemma doc_both_fixed : fixed_fields_valid doc_both.
Proof. apply fixed_fields_check_valid. vm_compute. reflexivity. Qed.

Lemma doc_revision_undated_fixed : fixed_fields_valid doc_revision_undated.
Proof. apply fixed_fields_check_valid. vm_compute. reflexivity. Qed.

Lemma has_valido_computed r text sec :
  section_text r text = Some sec -> js_match sec validoPattern <> None ->
  has_valido r text.
Proof. intros Hs Hm. exists sec. split; [done|]. by apply js_match_occurs. Qed.

(** C1, counterexample. The fixed fields of this text are valid and it has
    the Revisión Técnica title only, yet [procesarPDFCRT] fails: the
    section has no "VÁLIDO HASTA" date. *)
Lemma revision_only_undated_fails :
  fixed_fields_valid doc_revision_undated
  /\ occurs title_revision doc_revision_undated
  /\ ~ occurs title_contaminantes doc_revision_undated
  /\ procesar (pdf "a.pdf" doc_revision_undated)
     = Throw (validation_error (utf16 "a.pdf") [msg_none]).
Proof.
  split; [exact doc_revision_undated_fixed|]. split; [|split].
  - apply occurs_computed. vm_compute. discriminate.
  - apply not_occurs_computed. vm_compute. reflexivity.
  - vm_compute. reflexivity.
Qed.

(** C1, the amended statement at a text with both certificates. *)
Lemma crt_section_cases_witness :
  fixed_fields_valid doc_both
  /\ exists entry, procesar (pdf "a.pdf" doc_both) = Ok entry
       /\ obj_get K_valido_rt entry = Some (VString (utf16 "OCTUBRE 2024"))
       /\ obj_get K_valido_c entry = Some (VString (utf16 "ABRIL 2024")).
Proof.
  split; [exact doc_both_fixed|].
  assert (Hp : forall w' : log,
             fst (text_of_bytes (pdf "a.pdf" doc_both) w') = Ok doc_both)
    by (intros w'; reflexivity).
  pose proof (crt_section_cases log log_info log_info text_of_bytes
                (pdf "a.pdf" doc_both) doc_both [] Hp doc_both_fixed) as H.
  cbv zeta in H. destruct H as (_ & _ & Hboth & _).
  destruct Hboth as (entry & He & Hr & _ & Hc & _).
  - apply occurs_computed. vm_compute. discriminate.
  - apply occurs_computed. vm_compute. discriminate.
  - eapply has_valido_computed; [vm_compute; reflexivity|]. vm_compute. discriminate.
  - eapply has_valido_computed; [vm_compute; reflexivity|]. vm_compute. discriminate.
  - exists entry. split; [exact He|]. split.
    + rewrite Hr. vm_compute. reflexivity.
    + rewrite Hc. vm_compute. reflexivity.
Defined.

(** C3 at a text with both certificates. *)
Lemma procesarPDFCRT_entry_schema_witness :
  exists entry, procesar (pdf "a.pdf" doc_both) = Ok entry
    /\ obj_keys entry = headers.
Proof.
  destruct (procesar (pdf "a.pdf" doc_both)) as [entry|e] eqn:E.
  - exists entry. split; [reflexivity|].
    exact (proj1 (procesarPDFCRT_entry_schema log log_info log_info text_of_bytes
                    (pdf "a.pdf" doc_both) [] entry E)).
  - exfalso. vm_compute in E. discriminate.
Defined.


End SampleRuns.

(** * Determinism *)

Section Determinism.

Import Pipeline.
Local Open Scope nat_scope.




End Determinism.

(** * The sheet *)

Section ExcelFacts.

Local Open Scope nat_scope.

Lemma forEach_from_name {A} (f : A -> nat -> worksheet -> worksheet) l :
  (forall x i s, sheet_name (f x i s) = sheet_name s) ->
  forall k s, sheet_name (forEach_from f l k s) = sheet_name s.
Proof.
  intros Hf. induction l as [|x l IH]; intros k s; [done|].
  cbn [forEach_from]. by rewrite IH, Hf.
Qed.

(** One row of cells, written from column [k + 1] on. *)
Lemma row_cells (f : jsstring -> jsval) (r : nat) (hs : list jsstring) :
  forall k sh r' c',
    sheet_cells
      (forEach_from (fun h col s => cell_value r (col + 1) (f h) s) hs k sh) !! (r', c')
    = if decide (r' = r /\ k + 1 <= c' /\ c' < k + 1 + length hs)
      then f <$> hs !! (c' - (k + 1))
      else sheet_cells sh !! (r', c').
Proof.
  induction hs as [|h hs IH]; intros k sh r' c'; cbn [forEach_from length].
  - destruct (decide _) as [(_ & H1 & H2)|_]; [lia|done].
  - rewrite IH. cbn [cell_value sheet_cells].
    destruct (decide (r' = r /\ S k + 1 <= c' /\ c' < S k + 1 + length hs))
      as [(-> & H1 & H2)|Hn].
    + rewrite decide_True by lia.
      replace (c' - (k + 1)) with (S (c' - (S k + 1))) by lia. done.
    + destruct (decide ((r, k + 1) = (r', c'))) as [Heq|Hne].
      * inversion Heq; subst. rewrite lookup_insert_eq, decide_True by lia.
        by rewrite Nat.sub_diag.
      * rewrite lookup_insert_ne by done.
        destruct (decide (r' = r /\ k + 1 <= c' /\ c' < k + 1 + S (length hs)))
          as [(-> & H1 & H2)|_]; [|done].
        exfalso. destruct (decide (c' = k + 1)) as [->|?]; [done|].
        apply Hn. lia.
Qed.

(** The rows of the records, written from row [k + 2] on. *)
Lemma record_cells (g : jsstring -> obj jsval -> jsval) (hs : list jsstring)
    (regs : list (obj jsval)) :
  forall k sh r' c',
    sheet_cells
      (forEach_from
         (fun reg row s =>
            forEach_from (fun h col s' => cell_value (row + 2) (col + 1) (g h reg) s')
                         hs 0 s) regs k sh) !! (r', c')
    = if decide (k + 2 <= r' /\ r' < k + 2 + length regs /\ 1 <= c' /\ c' < 1 + length hs)
      then match regs !! (r' - (k + 2)), hs !! (c' - 1) with
           | Some reg, Some h => Some (g h reg)
           | _, _ => None
           end
      else sheet_cells sh !! (r', c').
Proof.
  induction regs as [|reg regs IH]; intros k sh r' c'; cbn [forEach_from length].
  - destruct (decide _) as [(H1 & H2 & _)|_]; [lia|done].
  - rewrite IH.
    destruct (decide (S k + 2 <= r' /\ r' < S k + 2 + length regs
                      /\ 1 <= c' /\ c' < 1 + length hs)) as [(H1 & H2 & H3 & H4)|Hn].
    + rewrite decide_True by lia.
      replace (r' - (k + 2)) with (S (r' - (S k + 2))) by lia. done.
    + rewrite (row_cells (fun h => g h reg) (k + 2) hs 0 sh r' c').
      destruct (decide (r' = k + 2 /\ 0 + 1 <= c' /\ c' < 0 + 1 + length hs))
        as [(-> & H1 & H2)|Hn'].
      * rewrite decide_True by lia. rewrite Nat.sub_diag. cbn [lookup list_lookup].
        replace (c' - (0 + 1)) with (c' - 1) by lia.
        destruct (hs !! (c' - 1)); done.
      * rewrite decide_False; [done|]. intros (H1 & H2 & H3 & H4).
        destruct (decide (r' = k + 2)) as [->|?]; [apply Hn'; lia|apply Hn; lia].
Qed.

Lemma headers_length : length headers = 7.
Proof. reflexivity. Qed.

(** C9. [generarExcel] throws on an empty list of records. Otherwise the
    sheet "Datos" has the seven headers in row 1, columns 1 to 7, and the
    record of index i has in row i + 2, under each header, its value for
    that key, the empty string when the key is missing or null; no other
    cell is written. *)
Theorem generarExcel_sheet :
  generarExcel [] = Throw (JsError (utf16 "No hay registros para generar el Excel."))
  /\ forall registros : list (obj jsval),
       registros <> [] ->
       exists d,
         generarExcel registros = Ok d
         /\ download_name d = utf16 "Consolidado.xlsx"
         /\ sheet_name (download_sheet d) = utf16 "Datos"
         /\ (forall j h, headers !! j = Some h ->
               sheet_cells (download_sheet d) !! (1, j + 1) = Some (VString h))
         /\ (forall i registro j h,
               registros !! i = Some registro -> headers !! j = Some h ->
               sheet_cells (download_sheet d) !! (i + 2, j + 1)
               = Some (nullish_or (obj_read h registro) (VString []))
               /\ (obj_get h registro = None \/ obj_get h registro = Some VNull ->
                   sheet_cells (download_sheet d) !! (i + 2, j + 1)
                   = Some (VString [])))
         /\ (forall r c, is_Some (sheet_cells (download_sheet d) !! (r, c)) ->
               1 <= r <= length registros + 1 /\ 1 <= c <= 7).
Proof.
  split; [reflexivity|]. intros registros Hne.
  unfold generarExcel. destruct registros as [|reg0 regs0] eqn:Eregs; [done|].
  rewrite <- Eregs. assert (0 < length registros) as Hlen by (subst; simpl; lia).
  replace (Nat.eqb (length registros) 0) with false
    by (symmetry; apply Nat.eqb_neq; lia).
  cbv zeta. eexists. split; [reflexivity|]. cbn [download_name download_sheet].
  split; [reflexivity|]. unfold forEach.
  assert (Hcell : forall r' c',
    sheet_cells
      (forEach_from
         (fun registro rowIndex sh =>
            forEach_from
              (fun header colIndex sh' =>
                 cell_value (rowIndex + 2) (colIndex + 1)
                   (nullish_or (obj_read header registro) (VString [])) sh')
              headers 0 sh) registros 0
         (forEach_from
            (fun header colIndex sh => cell_value 1 (colIndex + 1) (VString header) sh)
            headers 0 (set_name (utf16 "Datos") blank))) !! (r', c')
    = if decide (0 + 2 <= r' /\ r' < 0 + 2 + length registros
                 /\ 1 <= c' /\ c' < 1 + length headers)
      then match registros !! (r' - (0 + 2)), headers !! (c' - 1) with
           | Some reg, Some h => Some (nullish_or (obj_read h reg) (VString []))
           | _, _ => None
           end
      else if decide (r' = 1 /\ 0 + 1 <= c' /\ c' < 0 + 1 + length headers)
           then VString <$> headers !! (c' - (0 + 1))
           else None).
  { intros r' c'.
    rewrite (record_cells (fun h reg => nullish_or (obj_read h reg) (VString []))
               headers registros 0 _ r' c').
    destruct (decide _); [done|].
    rewrite (row_cells VString 1 headers 0 _ r' c').
    destruct (decide _); done. }
  pose proof headers_length as Hh.
  split; [|split; [|split]].
  - rewrite forEach_from_name.
    + rewrite forEach_from_name; [done|]. intros; reflexivity.
    + intros reg i s. rewrite forEach_from_name; [done|]. intros; reflexivity.
  - intros j h Hj. rewrite Hcell.
    assert (j < 7) by (rewrite <- headers_length; by eapply lookup_lt_Some).
    rewrite decide_False by lia. rewrite decide_True by lia.
    replace (j + 1 - (0 + 1)) with j by lia. by rewrite Hj.
  - intros i registro j h Hi Hj.
    assert (j < 7) by (rewrite <- headers_length; by eapply lookup_lt_Some).
    assert (i < length registros) by (by eapply lookup_lt_Some).
    rewrite Hcell, decide_True by lia.
    replace (i + 2 - (0 + 2)) with i by lia. replace (j + 1 - 1) with j by lia.
    rewrite Hi, Hj. split; [done|].
    unfold obj_read. intros [-> | ->]; reflexivity.
  - intros r c [v Hv]. rewrite Hcell in Hv.
    destruct (decide (0 + 2 <= r /\ _)); [lia|].
    destruct (decide (r = 1 /\ _)); [lia|done].
Qed.

End ExcelFacts.

(** * Character classes under the i flag *)

Section CharacterClasses.
Local Open Scope nat_scope.

Lemma matches_star_chr g p pos w rest :
  matches (Star g (Chr p)) pos w rest <-> Forall (fun c => p c = true) w.
Proof.
  split.
  - remember (Star g (Chr p)) as r eqn:Hr. induction 1; try done.
    inversion Hr; subst. apply Forall_app. split; [|by apply IHmatches2].
      match goal with H : matches (Chr _) _ _ _ |- _ =>
        apply matches_Chr_inv in H as (c & -> & Hc) end.
      by apply Forall_singleton.
  - revert pos. induction w as [|c w IH]; intros pos H; [constructor|].
    apply Forall_cons in H as [Hc Hw].
    change (c :: w) with ([c] ++ w). apply M_StarS; [done|by constructor|by apply IH].
Qed.

Lemma matches_plus_chr p pos w rest :
  matches (plus (Chr p)) pos w rest <-> w <> [] /\ Forall (fun c => p c = true) w.
Proof.
  unfold plus. split.
  - intros H. apply matches_Seq_inv in H as (w1 & w2 & -> & H1 & H2).
    apply matches_Chr_inv in H1 as (c & -> & Hc). apply matches_star_chr in H2.
    split; [done|]. by apply Forall_cons.
  - intros [Hne H]. destruct w as [|c w]; [done|].
    apply Forall_cons in H as [Hc Hw].
    change (c :: w) with ([c] ++ w). apply M_Seq; [by constructor|].
    by apply matches_star_chr.
Qed.

Local Open Scope N_scope.

Lemma members_spec rs a : In a (members rs) <-> in_ranges rs a = true.
Proof.
  unfold members, in_ranges. rewrite in_flat_map, existsb_exists.
  split; intros ([lo hi] & Hin & H); exists (lo, hi); (split; [done|]); simpl in *.
  - apply in_map_iff in H as (n & <- & Hn). apply in_seq in Hn.
    unfold in_range. apply andb_true_iff. rewrite !N.leb_le. lia.
  - unfold in_range in H. apply andb_true_iff in H. rewrite !N.leb_le in H.
    apply in_map_iff. exists (N.to_nat a). split; [lia|]. apply in_seq. lia.
Qed.

Lemma in_ranges_ci_spec rs c :
  in_ranges_ci rs c = true
  <-> exists a, in_ranges rs a = true /\ canonicalize a = canonicalize c.
Proof.
  unfold in_ranges_ci. rewrite existsb_exists.
  split; intros (a & Ha & Hc); exists a.
  - apply members_spec in Ha. by apply N.eqb_eq in Hc.
  - split; [by apply members_spec|by apply N.eqb_eq].
Qed.

Lemma in_ranges_ci_weaken rs c : in_ranges rs c = true -> in_ranges_ci rs c = true.
Proof. intros H. apply in_ranges_ci_spec. eauto. Qed.

(** The small letters a pattern with the i flag adds to [[A-Z]]. *)
Lemma canonicalize_upper c a :
  canonicalize c = a -> 65 <= a <= 90 -> c = a \/ (97 <= c <= 122 /\ c = a + 32).
Proof.
  unfold canonicalize, in_range.
  destruct (_ && _) eqn:E1.
  - apply andb_true_iff in E1 as [E1 E1']. apply N.leb_le in E1, E1'. lia.
  - destruct (_ && _ && _) eqn:E2.
    + apply andb_true_iff in E2 as [E2 _]. apply andb_true_iff in E2 as [E2 _].
      apply N.leb_le in E2. lia.
    + destruct (c =? 255); [lia|]. destruct (c =? 181); [lia|auto].
Qed.

Lemma canonicalize_ascii c a :
  canonicalize c = a -> a < 65 -> c = a.
Proof.
  unfold canonicalize, in_range.
  destruct (_ && _) eqn:E1.
  - apply andb_true_iff in E1 as [E1 E1']. apply N.leb_le in E1, E1'. lia.
  - destruct (_ && _ && _) eqn:E2.
    + apply andb_true_iff in E2 as [E2 _]. apply andb_true_iff in E2 as [E2 _].
      apply N.leb_le in E2. lia.
    + destruct (c =? 255); [lia|]. destruct (c =? 181); [lia|auto].
Qed.

Lemma canonicalize_small c : 97 <= c <= 122 -> canonicalize c = c - 32.
Proof.
  intros H. unfold canonicalize, in_range.
  replace (97 <=? c) with true by (symmetry; apply N.leb_le; lia).
  replace (c <=? 122) with true by (symmetry; apply N.leb_le; lia). done.
Qed.

Lemma canonicalize_fixed a : a < 97 -> canonicalize a = a.
Proof.
  intros H. unfold canonicalize, in_range.
  replace (97 <=? a) with false by (symmetry; apply N.leb_gt; lia).
  replace (224 <=? a) with false by (symmetry; apply N.leb_gt; lia).
  replace (a =? 255) with false by (symmetry; apply N.eqb_neq; lia).
  replace (a =? 181) with false by (symmetry; apply N.eqb_neq; lia). done.
Qed.

Lemma in_range_spec lo hi c : in_range lo hi c = true <-> lo <= c <= hi.
Proof. unfold in_range. rewrite andb_true_iff, !N.leb_le. done. Qed.

Lemma alnum_spec c :
  in_ranges alnum c = true <-> 65 <= c <= 90 \/ 48 <= c <= 57.
Proof.
  unfold in_ranges, alnum. cbn [existsb fst snd].
  rewrite !orb_true_iff, !in_range_spec. intuition lia.
Qed.

Lemma alnum_dash_spec c :
  in_ranges alnum_dash c = true <-> 65 <= c <= 90 \/ 48 <= c <= 57 \/ c = 45.
Proof.
  unfold in_ranges, alnum_dash. cbn [existsb fst snd].
  rewrite !orb_true_iff, !in_range_spec. intuition lia.
Qed.

Lemma alnum_ci_spec c :
  in_ranges_ci alnum c = true <-> in_ranges alnum c = true \/ 97 <= c <= 122.
Proof.
  rewrite in_ranges_ci_spec. split.
  - intros (a & Ha & Hc). apply alnum_spec in Ha.
    rewrite (canonicalize_fixed a) in Hc by lia. symmetry in Hc.
    destruct Ha as [Ha|Ha].
    + apply canonicalize_upper in Hc; [|lia].
      destruct Hc as [->|[? _]]; [left; apply alnum_spec; lia|by right].
    + apply canonicalize_ascii in Hc as ->; [|lia]. left. apply alnum_spec. lia.
  - intros [H|H]; [eauto|].
    exists (c - 32). split; [apply alnum_spec; lia|].
    rewrite (canonicalize_small c) by done. apply canonicalize_fixed. lia.
Qed.

Lemma alnum_dash_ci_spec c :
  in_ranges_ci alnum_dash c = true <-> in_ranges alnum_dash c = true \/ 97 <= c <= 122.
Proof.
  rewrite in_ranges_ci_spec. split.
  - intros (a & Ha & Hc). apply alnum_dash_spec in Ha.
    rewrite (canonicalize_fixed a) in Hc by lia. symmetry in Hc.
    destruct Ha as [Ha|Ha].
    + apply canonicalize_upper in Hc; [|lia].
      destruct Hc as [->|[? _]]; [left; apply alnum_dash_spec; lia|by right].
    + apply canonicalize_ascii in Hc as ->; [|lia]. left. apply alnum_dash_spec. lia.
  - intros [H|H]; [eauto|].
    exists (c - 32). split; [apply alnum_dash_spec; lia|].
    rewrite (canonicalize_small c) by done. apply canonicalize_fixed. lia.
Qed.

End CharacterClasses.

(** * The order in which the matcher tries: greedy runs and the first match *)

Section MatcherPriority.
Local Open Scope nat_scope.

Lemma rmatch_seqs_cons r l pos rest cs k :
  rmatch (seqs (r :: l)) pos rest cs k
  = rmatch r pos rest cs (fun p r' c => rmatch (seqs l) p r' c k).
Proof.
  destruct l as [|r2 l]; [|reflexivity]. cbn [seqs]. apply rmatch_ext. reflexivity.
Qed.

Lemma lit_ci_spec a c : in_ranges_ci [(a, a)] c = true <-> canonicalize a = canonicalize c.
Proof.
  rewrite in_ranges_ci_spec. split.
  - intros (a' & Ha & Hc). unfold in_ranges in Ha. cbn [existsb fst snd] in Ha.
    rewrite orb_false_r in Ha. apply in_range_spec in Ha.
    replace a with a' by lia. done.
  - intros H. exists a. split; [|done]. unfold in_ranges. cbn [existsb fst snd].
    rewrite orb_false_r. apply in_range_spec. lia.
Qed.

Lemma rmatch_lits l : forall label pos rest cs k,
  same_ci l label ->
  rmatch (seqs (map lit_ci l)) pos (label ++ rest) cs k = k (pos + length label) rest cs.
Proof.
  unfold same_ci.
  induction l as [|a l IH]; intros label pos rest cs k H.
  - destruct label; [|done]. cbn. by rewrite Nat.add_0_r.
  - destruct label as [|c label]; [done|]. cbn [map] in H. inversion H as [[Hc Hl]].
    cbn [map]. rewrite rmatch_seqs_cons. unfold lit_ci at 1. cbn [rmatch app].
    apply lit_ci_spec in Hc.
    match goal with |- (if ?b then _ else _) = _ =>
      replace b with true by (symmetry; exact Hc) end.
    rewrite IH by done.
    cbn [length]. f_equal. lia.
Qed.

Lemma rmatch_str_ci s label pos rest cs k :
  same_ci (utf16 s) label ->
  rmatch (str_ci s) pos (label ++ rest) cs k = k (pos + length label) rest cs.
Proof. apply rmatch_lits. Qed.

Lemma rmatch_Chr_cons p pos c rest cs k :
  rmatch (Chr p) pos (c :: rest) cs k = if p c then k (S pos) rest cs else None.
Proof. reflexivity. Qed.

Lemma rmatch_Seq r1 r2 pos rest cs k :
  rmatch (Seq r1 r2) pos rest cs k
  = rmatch r1 pos rest cs (fun p r c => rmatch r2 p r c k).
Proof. reflexivity. Qed.

Lemma rmatch_Chr_nil p pos cs k : rmatch (Chr p) pos [] cs k = None.
Proof. reflexivity. Qed.

(** A greedy quantifier on one set of characters takes the whole run when
    what follows can go on from its end. *)
Lemma star_run p k x : forall w fuel pos rest cs,
  all p w -> stops p rest -> length (w ++ rest) < fuel ->
  k (pos + length w) rest cs = Some x ->
  star_loop true (rmatch (Chr p)) k fuel pos (w ++ rest) cs = Some x.
Proof.
  induction w as [|c w IH]; intros fuel pos rest cs Hw Hs Hf Hk;
    (destruct fuel as [|fuel]; [cbn in Hf; lia|]); cbn [star_loop app].
  - rewrite Nat.add_0_r in Hk.
    destruct rest as [|c rest]; [by rewrite rmatch_Chr_nil|].
    rewrite rmatch_Chr_cons, (Hs c) by done. done.
  - apply Forall_cons in Hw as [Hc Hw]. rewrite rmatch_Chr_cons, Hc.
    replace (length (w ++ rest) <? length (c :: w ++ rest)) with true
      by (symmetry; apply Nat.ltb_lt; cbn; lia).
    rewrite (IH fuel (S pos) rest cs); [done|done|done|cbn in Hf; lia|].
    rewrite <- Hk. f_equal. cbn. lia.
Qed.

Lemma rmatch_star_run p k x w pos rest cs :
  all p w -> stops p rest ->
  k (pos + length w) rest cs = Some x ->
  rmatch (Star true (Chr p)) pos (w ++ rest) cs k = Some x.
Proof. intros. cbn [rmatch]. apply star_run; auto. Qed.

Lemma rmatch_plus_run p k x w pos rest cs :
  run p w -> stops p rest ->
  k (pos + length w) rest cs = Some x ->
  rmatch (plus (Chr p)) pos (w ++ rest) cs k = Some x.
Proof.
  intros [Hne Hw] Hs Hk. destruct w as [|c w]; [done|].
  apply Forall_cons in Hw as [Hc Hw].
  unfold plus. rewrite rmatch_Seq. cbn [app]. rewrite rmatch_Chr_cons, Hc.
  apply rmatch_star_run; auto. rewrite <- Hk. f_equal. cbn. lia.
Qed.

(** A pattern that matches no word at an offset fails there. *)
Lemma rmatch_none r pos rest cs k :
  (forall w rest', rest = w ++ rest' -> ~ matches r pos w rest') ->
  rmatch r pos rest cs k = None.
Proof.
  intros H. destruct (rmatch r pos rest cs k) as [res|] eqn:E; [|done].
  apply rmatch_sound in E as (w & rest' & new & -> & Hm & _). exfalso. by eapply H.
Qed.

Lemma scan_first r tl e cs : forall pre pos,
  (forall pre1 pre2, pre = pre1 ++ pre2 -> pre2 <> [] ->
     rmatch r (pos + length pre1) (pre2 ++ tl) [] k_done = None) ->
  rmatch r (pos + length pre) tl [] k_done = Some (e, cs) ->
  scan r pos (pre ++ tl)
  = Some (MatchResult (pos + length pre) (firstn (e - (pos + length pre)) tl) cs).
Proof.
  induction pre as [|c pre IH]; intros pos Hnone Hm.
  - cbn [app length] in *. rewrite Nat.add_0_r in *.
    destruct tl; cbn [scan]; rewrite Hm; done.
  - assert (E := Hnone [] (c :: pre) eq_refl ltac:(done)).
    cbn [length app] in E. rewrite Nat.add_0_r in E.
    cbn [app scan]. rewrite E, (IH (S pos)).
    + cbn [length]. replace (S pos + length pre) with (pos + S (length pre)) by lia.
      reflexivity.
    + intros pre1 pre2 -> Hne.
      rewrite <- (Hnone (c :: pre1) pre2); [|done|done]. f_equal. cbn. lia.
    + rewrite <- Hm. f_equal. cbn. lia.
Qed.

Lemma js_match_first r pre tl e cs :
  first_at r (pre ++ tl) (length pre) ->
  rmatch r (length pre) tl [] k_done = Some (e, cs) ->
  js_match (pre ++ tl) r = Some (MatchResult (length pre) (firstn (e - length pre) tl) cs).
Proof.
  intros Hfirst Hm. unfold js_match.
  rewrite (scan_first r tl e cs pre 0); [done| |done].
  intros pre1 pre2 -> Hne. apply rmatch_none. intros w rest' Heq Hmw.
  cbn in Hmw. specialize (Hfirst pre1 w rest').
  rewrite <- app_assoc, Heq in Hfirst. specialize (Hfirst eq_refl Hmw).
  rewrite length_app in Hfirst. destruct pre2; [done|]. cbn in Hfirst. lia.
Qed.

End MatcherPriority.

(** * The fields that the extractor finds *)

Section PlantaFound.
Local Open Scope nat_scope.

Lemma rmatch_Group n r pos rest cs k :
  rmatch (Group n r) pos rest cs k
  = rmatch r pos rest cs
      (fun pos' rest' cs' => k pos' rest' ((n, firstn (pos' - pos) rest) :: cs')).
Proof. reflexivity. Qed.

Lemma first_at_computed r text n :
  forallb (fun p => match rmatch r p (drop p text) [] k_done with
                    | None => true
                    | Some _ => false
                    end) (seq 0 n) = true ->
  first_at r text n.
Proof.
  intros H pre w post -> Hm.
  destruct (Nat.le_gt_cases n (length pre)) as [|Hlt]; [done|exfalso].
  rewrite forallb_forall in H. specialize (H (length pre)).
  rewrite drop_app_length in H.
  pose proof (rmatch_complete _ _ _ _ Hm [] k_done) as Hc.
  destruct (rmatch r (length pre) (w ++ post) [] k_done) eqn:E.
  - assert (false = true) by (apply H, in_seq; lia). done.
  - by apply Hc.
Qed.

(** A word that starts and ends with a character that is no white space
    is left as it is by [trim]. *)
Lemma trim_fixed w :
  (forall c, head w = Some c -> is_space c = false) ->
  (forall c, last w = Some c -> is_space c = false) ->
  trim w = w.
Proof.
  intros Hh Hl. destruct w as [|c w]; [done|].
  specialize (Hh c eq_refl).
  destruct (rev w) as [|d w'] eqn:E.
  - apply (f_equal (@rev _)) in E. rewrite rev_involutive in E. subst w.
    unfold trim, trim_end. rewrite (trim_start_id c) by done. cbn [rev app].
    by rewrite (trim_start_id c) by done.
  - apply (f_equal (@rev _)) in E. rewrite rev_involutive in E. cbn [rev] in E. subst w.
    apply trim_id; [done|]. apply Hl.
    change (c :: rev w' ++ [d]) with ((c :: rev w') ++ [d]). apply last_snoc.
Qed.

Lemma trim_run p w :
  (forall c, p c = true -> is_space c = false) -> run p w -> trim w = w.
Proof.
  intros Hp [Hne Hw]. apply trim_fixed; intros c Hc; apply Hp.
  - destruct w as [|d w]; [done|]. inversion Hc; subst.
    by apply Forall_cons in Hw as [? _].
  - apply last_Some in Hc as [w' ->]. apply Forall_app in Hw as [_ Hw].
    by apply Forall_cons in Hw as [? _].
Qed.

Lemma alnum_dash_not_space c : in_ranges_ci alnum_dash c = true -> is_space c = false.
Proof.
  intros H. apply alnum_dash_ci_spec in H. apply not_true_is_false. intros Hs.
  apply is_space_spec in Hs. rewrite alnum_dash_spec in H. lia.
Qed.

Lemma alnum_not_space c : in_ranges_ci alnum c = true -> is_space c = false.
Proof.
  intros H. apply alnum_ci_spec in H. apply not_true_is_false. intros Hs.
  apply is_space_spec in Hs. rewrite alnum_spec in H. lia.
Qed.

Lemma stops_run (p q : jschar -> bool) w rest :
  (forall c, q c = true -> p c = false) -> run q w -> stops p (w ++ rest).
Proof.
  intros Hpq [Hne Hw] c Hc. destruct w as [|d w]; [done|].
  cbn in Hc. inversion Hc; subst. apply Forall_cons in Hw as [Hd _]. auto.
Qed.

Lemma planta_match pos label sp value post :
  same_ci (utf16 "PLANTA:") label -> all is_space sp ->
  run (in_ranges_ci alnum_dash) value -> stops (in_ranges_ci alnum_dash) post ->
  rmatch re_planta pos (label ++ sp ++ value ++ post) [] k_done
  = Some (pos + length label + length sp + length value, [(1, value)]).
Proof.
  intros Hl Hsp Hv Hp. unfold re_planta.
  rewrite rmatch_seqs_cons, rmatch_str_ci by done.
  rewrite rmatch_seqs_cons.
  apply rmatch_star_run; [done|by eapply stops_run; [apply alnum_dash_not_space|]|].
  cbn [seqs]. rewrite rmatch_Group. unfold cls_ci.
  apply rmatch_plus_run; [done|done|].
  unfold k_done. do 3 f_equal.
  replace (pos + length label + length sp + length value - (pos + length label + length sp))
    with (length value) by lia.
  by rewrite take_app_length.
Qed.

Lemma field_value_first r pre tl e value :
  first_at r (pre ++ tl) (length pre) ->
  rmatch r (length pre) tl [] k_done = Some (e, [(1, value)]) ->
  trim value = value ->
  field_value r (pre ++ tl) = value.
Proof.
  intros Hf Hm Hv. unfold field_value.
  rewrite (js_match_first r pre tl e [(1, value)]) by done.
  unfold m_group. cbn [m_caps capture Nat.eqb default from_option id]. done.
Qed.

Variable world : Type.
Variable logger_info : list log_arg -> world -> world.

Lemma extraer_ok text w datos :
  fst (extraerDatosCRT world logger_info text w) = Ok datos -> datos = extracted text.
Proof.
  rewrite extraer_result.
  destruct (extraction_cases text) as [[_ ->]|(_ & _ & ->)]; [|done].
  intros H. by inversion H.
Qed.

(** X7. "Planta" is the whole code that follows the first "PLANTA:":
    when the text reads, at the first offset where the pattern matches, the
    label in any case, optional white space, and a run of letters, digits
    and dashes that ends there, the field is that run. *)
Theorem extraerDatosCRT_planta_found
    (text pre label sp value post : jsstring) (w : world) (datos : obj jsstring) :
  text = pre ++ label ++ sp ++ value ++ post ->
  same_ci (utf16 "PLANTA:") label ->
  all is_space sp ->
  run (in_ranges_ci alnum_dash) value ->
  stops (in_ranges_ci alnum_dash) post ->
  first_at re_planta text (length pre) ->
  fst (extraerDatosCRT world logger_info text w) = Ok datos ->
  obj_get K_planta datos = Some value.
Proof.
  intros -> Hl Hsp Hv Hp Hf H. apply extraer_ok in H as ->.
  change (Some (field_value re_planta (pre ++ label ++ sp ++ value ++ post)) = Some value).
  f_equal. eapply field_value_first; [done|by apply planta_match|].
  eapply trim_run; [apply alnum_dash_not_space|done].
Qed.

End PlantaFound.

Section DateMatching.
Local Open Scope nat_scope.

Lemma rmatch_opt_skip p pos rest cs k :
  stops p rest -> rmatch (opt (Chr p)) pos rest cs k = k pos rest cs.
Proof.
  intros Hs. unfold opt. cbn [rmatch].
  destruct rest as [|c rest]; [done|]. by rewrite (Hs c).
Qed.

Lemma rmatch_opt_take p pos c rest cs k x :
  p c = true -> k (S pos) rest cs = Some x ->
  rmatch (opt (Chr p)) pos (c :: rest) cs k = Some x.
Proof. intros Hc Hk. unfold opt. cbn [rmatch]. by rewrite Hc, Hk. Qed.

Lemma space_not_digit c : is_space c = true -> is_digit c = false.
Proof.
  intros H. apply not_true_is_false. intros Hd. apply digit_not_space in Hd. congruence.
Qed.

Lemma space_not_letter c : is_space c = true -> in_ranges_ci letters c = false.
Proof.
  intros H. apply not_true_is_false. intros Hd. apply letter_not_space in Hd. congruence.
Qed.

Lemma rmatch_rep_4 y pos rest cs k :
  digits 4 y ->
  rmatch (rep_4 digit) pos (y ++ rest) cs k = k (pos + 4) rest cs.
Proof.
  intros [Hl Hy].
  destruct y as [|y1 [|y2 [|y3 [|y4 [|]]]]]; try done.
  apply Forall_cons in Hy as [H1 Hy]. apply Forall_cons in Hy as [H2 Hy].
  apply Forall_cons in Hy as [H3 Hy]. apply Forall_cons in Hy as [H4 _].
  unfold rep_4, digit. cbn [rmatch app]. rewrite H1, H2, H3, H4. f_equal. lia.
Qed.

Lemma rmatch_rep_1_2 d pos rest cs k x :
  (length d = 1 \/ length d = 2) -> all is_digit d -> stops is_digit rest ->
  k (pos + length d) rest cs = Some x ->
  rmatch (rep_1_2 digit) pos (d ++ rest) cs k = Some x.
Proof.
  intros Hl Hd Hs Hk. unfold rep_1_2, digit. rewrite rmatch_Seq.
  destruct d as [|d1 [|d2 [|]]]; cbn [length] in Hl; try lia.
  - apply Forall_cons in Hd as [H1 _]. cbn [app]. rewrite rmatch_Chr_cons, H1.
    rewrite rmatch_opt_skip by done. rewrite <- Hk. f_equal. cbn. lia.
  - apply Forall_cons in Hd as [H1 Hd]. apply Forall_cons in Hd as [H2 _].
    cbn [app]. rewrite rmatch_Chr_cons, H1.
    apply rmatch_opt_take; [done|]. rewrite <- Hk. f_equal. cbn. lia.
Qed.

Lemma stops_digits p n w rest :
  (forall c, is_digit c = true -> p c = false) -> digits (S n) w -> stops p (w ++ rest).
Proof.
  intros Hp [Hl Hw]. eapply stops_run; [exact Hp|]. split; [|done]. by destruct w.
Qed.

Lemma stops_digits12 p w rest :
  (forall c, is_digit c = true -> p c = false) ->
  (length w = 1 \/ length w = 2) -> all is_digit w -> stops p (w ++ rest).
Proof.
  intros Hp Hl Hw. eapply stops_run; [exact Hp|]. split; [|done].
  destruct w; cbn in Hl; [lia|done].
Qed.

Lemma date_match pos d s1 m s2 y post cs k x :
  (length d = 1 \/ length d = 2) -> all is_digit d -> run is_space s1 ->
  run (in_ranges_ci letters) m -> run is_space s2 -> digits 4 y ->
  k (pos + length (d ++ s1 ++ m ++ s2 ++ y)) post cs = Some x ->
  rmatch (date_body true) pos (d ++ s1 ++ m ++ s2 ++ y ++ post) cs k = Some x.
Proof.
  intros Hdl Hd Hs1 Hm Hs2 Hy Hk. unfold date_body.
  rewrite rmatch_seqs_cons.
  apply rmatch_rep_1_2; [done|done|by eapply stops_run; [apply space_not_digit|]|].
  rewrite rmatch_seqs_cons.
  apply rmatch_plus_run; [done|by eapply stops_run; [apply letter_not_space|]|].
  rewrite rmatch_seqs_cons. unfold cls_ci.
  apply rmatch_plus_run; [done|by eapply stops_run; [apply space_not_letter|]|].
  rewrite rmatch_seqs_cons.
  apply rmatch_plus_run; [done|by eapply stops_digits; [apply digit_not_space|]|].
  cbn [seqs]. rewrite rmatch_rep_4 by done.
  rewrite <- Hk. f_equal. rewrite !length_app. destruct Hy as [-> _]. lia.
Qed.

Lemma fecha_match pos label sp d s1 m s2 y post :
  same_ci (utf16 "FECHA REVISIÓN:") label -> all is_space sp ->
  (length d = 1 \/ length d = 2) -> all is_digit d -> run is_space s1 ->
  run (in_ranges_ci letters) m -> run is_space s2 -> digits 4 y ->
  rmatch re_fecha pos (label ++ sp ++ d ++ s1 ++ m ++ s2 ++ y ++ post) [] k_done
  = Some (pos + length label + length sp + length (d ++ s1 ++ m ++ s2 ++ y),
          [(1, d ++ s1 ++ m ++ s2 ++ y)]).
Proof.
  intros Hl Hsp Hdl Hd Hs1 Hm Hs2 Hy. unfold re_fecha.
  rewrite rmatch_seqs_cons, rmatch_str_ci by done.
  rewrite rmatch_seqs_cons.
  apply rmatch_star_run; [done|by eapply stops_digits12; [apply digit_not_space| |]|].
  cbn [seqs]. rewrite rmatch_Group.
  apply date_match; try done.
  unfold k_done.
  match goal with |- context [firstn ?n _] =>
    replace n with (length (d ++ s1 ++ m ++ s2 ++ y)) by lia end.
  assert (d ++ s1 ++ m ++ s2 ++ y ++ post = (d ++ s1 ++ m ++ s2 ++ y) ++ post) as ->
    by (by rewrite <- !app_assoc).
  by rewrite take_app_length.
Qed.

End DateMatching.

Section FieldsFound.
Local Open Scope nat_scope.

Lemma placa_match pos label sp value post :
  same_ci (utf16 "PLACA PATENTE") label -> run is_space sp ->
  run (in_ranges_ci alnum) value -> stops (in_ranges_ci alnum) post ->
  rmatch re_placa pos (label ++ sp ++ value ++ post) [] k_done
  = Some (pos + length label + length sp + length value, [(1, value)]).
Proof.
  intros Hl Hsp Hv Hp. unfold re_placa.
  rewrite rmatch_seqs_cons, rmatch_str_ci by done.
  rewrite rmatch_seqs_cons.
  apply rmatch_plus_run; [done|by eapply stops_run; [apply alnum_not_space|]|].
  cbn [seqs]. rewrite rmatch_Group. unfold cls_ci.
  apply rmatch_plus_run; [done|done|].
  unfold k_done.
  match goal with |- context [firstn ?n _] => replace n with (length value) by lia end.
  by rewrite take_app_length.
Qed.

Lemma folio_match pos label ds post :
  same_ci (utf16 "N°B") label -> run is_digit ds -> stops is_digit post ->
  rmatch re_folio pos (label ++ ds ++ post) [] k_done
  = Some (pos + length label + length ds, [(1, label ++ ds)]).
Proof.
  intros Hl Hd Hp. unfold re_folio.
  rewrite rmatch_Group, rmatch_seqs_cons, rmatch_str_ci by done.
  cbn [seqs]. apply rmatch_plus_run; [done|done|].
  match goal with |- context [firstn ?n _] => replace n with (length (label ++ ds))
    by (rewrite length_app; lia) end.
  by rewrite app_assoc, take_app_length.
Qed.

Lemma folio_trim label ds :
  same_ci (utf16 "N°B") label -> run is_digit ds -> trim (label ++ ds) = label ++ ds.
Proof.
  intros Hl [Hne Hd]. apply trim_fixed; intros c Hc.
  - destruct label as [|c1 label]; [done|]. inversion Hc; subst.
    unfold same_ci in Hl. change (utf16 "N°B") with [78; 176; 66]%N in Hl.
    cbn [map] in Hl. injection Hl as H1 _.
    change (canonicalize 78%N) with 78%N in H1. symmetry in H1.
    apply canonicalize_upper in H1; [|lia].
    destruct H1 as [->|[_ ->]]; reflexivity.
  - rewrite last_app in Hc. destruct (last ds) as [d|] eqn:E.
    + inversion Hc; subst. apply last_Some in E as [ds' ->].
      apply Forall_app in Hd as [_ Hd]. apply Forall_cons in Hd as [Hd _].
      by apply digit_not_space.
    + apply last_None in E. done.
Qed.

Lemma date_trim d s1 m s2 y :
  (length d = 1 \/ length d = 2) -> all is_digit d -> digits 4 y ->
  trim (d ++ s1 ++ m ++ s2 ++ y) = d ++ s1 ++ m ++ s2 ++ y.
Proof.
  intros Hl Hd [Hyl Hy]. apply trim_fixed; intros c Hc; apply digit_not_space.
  - destruct d as [|d1 d]; [cbn in Hl; lia|]. inversion Hc; subst.
    by apply Forall_cons in Hd as [? _].
  - rewrite !app_assoc, last_app in Hc. destruct (last y) as [e|] eqn:E.
    + inversion Hc; subst. apply last_Some in E as [y' ->].
      apply Forall_app in Hy as [_ Hy]. by apply Forall_cons in Hy as [? _].
    + apply last_None in E. subst. done.
Qed.

Variable world : Type.
Variable logger_info : list log_arg -> world -> world.

(** X6. "Fecha de Revisión" is the date that follows the first
    "FECHA REVISIÓN:" of the text that a date follows: when the text reads,
    at the first offset where the pattern matches, the label in any case,
    optional white space, one or two digits, white space, letters, white
    space and four digits, the field is that date, with its white space as
    it is in the text. *)
Theorem extraerDatosCRT_fecha_found
    (text pre label sp d s1 m s2 y post : jsstring) (w : world) (datos : obj jsstring) :
  text = pre ++ label ++ sp ++ d ++ s1 ++ m ++ s2 ++ y ++ post ->
  same_ci (utf16 "FECHA REVISIÓN:") label ->
  all is_space sp ->
  (length d = 1 \/ length d = 2) -> all is_digit d ->
  run is_space s1 -> run (in_ranges_ci letters) m -> run is_space s2 ->
  digits 4 y ->
  first_at re_fecha text (length pre) ->
  fst (extraerDatosCRT world logger_info text w) = Ok datos ->
  obj_get K_fecha datos = Some (d ++ s1 ++ m ++ s2 ++ y).
Proof.
  intros -> Hl Hsp Hdl Hd Hs1 Hm Hs2 Hy Hf H. apply (extraer_ok world logger_info) in H as ->.
  change (Some (field_value re_fecha (pre ++ label ++ sp ++ d ++ s1 ++ m ++ s2 ++ y ++ post))
          = Some (d ++ s1 ++ m ++ s2 ++ y)).
  f_equal. eapply field_value_first; [done|by apply fecha_match|by apply date_trim].
Qed.

(** X8. "Placa Patente" is the whole run of letters and digits that
    follows the first "PLACA PATENTE" and its white space. *)
Theorem extraerDatosCRT_placa_found
    (text pre label sp value post : jsstring) (w : world) (datos : obj jsstring) :
  text = pre ++ label ++ sp ++ value ++ post ->
  same_ci (utf16 "PLACA PATENTE") label ->
  run is_space sp ->
  run (in_ranges_ci alnum) value ->
  stops (in_ranges_ci alnum) post ->
  first_at re_placa text (length pre) ->
  fst (extraerDatosCRT world logger_info text w) = Ok datos ->
  obj_get K_placa datos = Some value.
Proof.
  intros -> Hl Hsp Hv Hp Hf H. apply (extraer_ok world logger_info) in H as ->.
  change (Some (field_value re_placa (pre ++ label ++ sp ++ value ++ post)) = Some value).
  f_equal. eapply field_value_first; [done|by apply placa_match|].
  eapply trim_run; [apply alnum_not_space|done].
Qed.

(** X9. "Folio" is the first "N°B" that digits follow, as the text
    writes it, with all of these digits. *)
Theorem extraerDatosCRT_folio_found
    (text pre label ds post : jsstring) (w : world) (datos : obj jsstring) :
  text = pre ++ label ++ ds ++ post ->
  same_ci (utf16 "N°B") label ->
  run is_digit ds ->
  stops is_digit post ->
  first_at re_folio text (length pre) ->
  fst (extraerDatosCRT world logger_info text w) = Ok datos ->
  obj_get K_folio datos = Some (label ++ ds).
Proof.
  intros -> Hl Hd Hp Hf H. apply (extraer_ok world logger_info) in H as ->.
  change (Some (field_value re_folio (pre ++ label ++ ds ++ post)) = Some (label ++ ds)).
  f_equal. eapply field_value_first; [done|by apply folio_match|by apply folio_trim].
Qed.

End FieldsFound.

(** * The shape of the words of the field patterns *)

Section WordShapes.
Local Open Scope nat_scope.

Lemma matches_seqs_cons r l pos w rest :
  matches (seqs (r :: l)) pos w rest
  <-> exists w1 w2, w = w1 ++ w2 /\ matches r pos w1 (w2 ++ rest)
                    /\ matches (seqs l) (pos + length w1) w2 rest.
Proof.
  destruct l as [|r2 l].
  - cbn [seqs]. split.
    + intros H. exists w, []. rewrite app_nil_r. split; [done|]. split; [done|constructor].
    + intros (w1 & w2 & -> & H1 & H2). inversion H2; subst.
      by rewrite app_nil_r in *.
  - change (seqs (r :: r2 :: l)) with (Seq r (seqs (r2 :: l))). split.
    + apply matches_Seq_inv.
    + intros (w1 & w2 & -> & H1 & H2). by constructor.
Qed.

Lemma matches_lit_ci a pos w rest :
  matches (lit_ci a) pos w rest <-> exists c, w = [c] /\ canonicalize a = canonicalize c.
Proof.
  unfold lit_ci. split.
  - intros H. apply matches_Chr_inv in H as (c & -> & Hc). exists c.
    by apply lit_ci_spec in Hc.
  - intros (c & -> & Hc). constructor. by apply lit_ci_spec.
Qed.

Lemma matches_lits l : forall pos w rest,
  matches (seqs (map lit_ci l)) pos w rest <-> same_ci l w.
Proof.
  unfold same_ci. induction l as [|a l IH]; intros pos w rest.
  - cbn. split.
    + inversion 1; subst. done.
    + destruct w; [|done]. constructor.
  - cbn [map]. rewrite matches_seqs_cons. split.
    + intros (w1 & w2 & -> & H1 & H2). apply matches_lit_ci in H1 as (c & -> & Hc).
      apply IH in H2. cbn. by rewrite Hc, H2.
    + destruct w as [|c w]; [done|]. cbn [map]. intros H. injection H as Hc Hw.
      exists [c], w. split; [done|]. split.
      * apply matches_lit_ci. eauto.
      * by apply IH.
Qed.

Lemma matches_str_ci s pos w rest : matches (str_ci s) pos w rest <-> same_ci (utf16 s) w.
Proof. apply matches_lits. Qed.

Lemma matches_rep_4 pos w rest : matches (rep_4 digit) pos w rest <-> digits 4 w.
Proof.
  unfold rep_4, digit, digits, all. split.
  - intros H.
    apply matches_Seq_inv in H as (w1 & w' & -> & H1 & H).
    apply matches_Seq_inv in H as (w2 & w'' & -> & H2 & H).
    apply matches_Seq_inv in H as (w3 & w4 & -> & H3 & H4).
    apply matches_Chr_inv in H1 as (c1 & -> & Hc1).
    apply matches_Chr_inv in H2 as (c2 & -> & Hc2).
    apply matches_Chr_inv in H3 as (c3 & -> & Hc3).
    apply matches_Chr_inv in H4 as (c4 & -> & Hc4).
    split; [done|]. repeat (apply Forall_cons; split; [done|]). apply Forall_nil_2.
  - intros [Hl H]. destruct w as [|c1 [|c2 [|c3 [|c4 [|]]]]]; try done.
    apply Forall_cons in H as [H1 H]. apply Forall_cons in H as [H2 H].
    apply Forall_cons in H as [H3 H]. apply Forall_cons in H as [H4 _].
    apply (M_Seq _ _ pos [c1] [c2; c3; c4]); [by constructor|].
    apply (M_Seq _ _ _ [c2] [c3; c4]); [by constructor|].
    apply (M_Seq _ _ _ [c3] [c4]); by constructor.
Qed.

Lemma matches_rep_1_2 pos w rest :
  matches (rep_1_2 digit) pos w rest <-> (length w = 1 \/ length w = 2) /\ all is_digit w.
Proof.
  unfold rep_1_2, opt, digit, all. split.
  - intros H. apply matches_Seq_inv in H as (w1 & w2 & -> & H1 & H2).
    apply matches_Chr_inv in H1 as (c1 & -> & Hc1).
    inversion H2 as [| | |? ? ? ? ? H3|? ? ? ? ? H3| | | | | |]; subst.
    + apply matches_Chr_inv in H3 as (c2 & -> & Hc2). split; [by right|].
      repeat (apply Forall_cons; split; [done|]). apply Forall_nil_2.
    + inversion H3; subst. split; [by left|].
      repeat (apply Forall_cons; split; [done|]). apply Forall_nil_2.
  - intros [Hl H]. destruct w as [|c1 [|c2 [|]]]; cbn in Hl; try lia.
    + apply Forall_cons in H as [H1 _].
      apply (M_Seq _ _ pos [c1] []); [by constructor|]. apply M_AltR. constructor.
    + apply Forall_cons in H as [H1 H]. apply Forall_cons in H as [H2 _].
      apply (M_Seq _ _ pos [c1] [c2]); [by constructor|]. apply M_AltL. by constructor.
Qed.

Lemma date_body_words ci pos w rest :
  matches (date_body ci) pos w rest
  <-> date_word (if ci then in_ranges_ci letters else in_ranges letters) w.
Proof.
  unfold date_body, date_word, ws.
  rewrite matches_seqs_cons.
  setoid_rewrite matches_seqs_cons. setoid_rewrite matches_seqs_cons.
  setoid_rewrite matches_seqs_cons. cbn [seqs].
  setoid_rewrite matches_rep_1_2. setoid_rewrite matches_rep_4.
  setoid_rewrite matches_plus_chr.
  assert (forall pos w rest,
            matches (plus ((if ci then cls_ci else cls) letters)) pos w rest
            <-> run (if ci then in_ranges_ci letters else in_ranges letters) w) as Hl.
  { intros. destruct ci; apply matches_plus_chr. }
  setoid_rewrite Hl. unfold run. split.
  - intros (d & ? & -> & [? ?] & s1 & ? & -> & ? & m & ? & -> & ? & s2 & y & -> & ? & ?).
    exists d, s1, m, s2, y. done.
  - intros (d & s1 & m & s2 & y & -> & ? & ? & ? & ? & ? & ?).
    exists d, (s1 ++ m ++ s2 ++ y). split; [done|]. split; [done|].
    exists s1, (m ++ s2 ++ y). split; [done|]. split; [done|].
    exists m, (s2 ++ y). split; [done|]. split; [done|].
    exists s2, y. done.
Qed.

Lemma month_year_words pos w rest : matches month_year pos w rest <-> month_word w.
Proof.
  unfold month_year, month_word, ws, cls_ci.
  rewrite matches_seqs_cons. setoid_rewrite matches_seqs_cons. cbn [seqs].
  setoid_rewrite matches_rep_4. setoid_rewrite matches_plus_chr. unfold run. split.
  - intros (m & ? & -> & ? & s & y & -> & ? & ?). exists m, s, y. done.
  - intros (m & s & y & -> & ? & ? & ?).
    exists m, (s ++ y). split; [done|]. split; [done|]. exists s, y. done.
Qed.

Lemma folio_words pos w rest :
  matches (seqs [str_ci "N°B"; plus digit]) pos w rest <-> folio_word w.
Proof.
  unfold folio_word, digit. rewrite matches_seqs_cons. cbn [seqs].
  setoid_rewrite matches_str_ci. setoid_rewrite matches_plus_chr. unfold run. split.
  - intros (l & ds & -> & ? & ?). exists l, ds. done.
  - intros (l & ds & -> & ? & ?). exists l, ds. done.
Qed.

End WordShapes.

(** * The values of a record after extraction *)

Section LetterClasses.
Local Open Scope N_scope.

Lemma letters_spec a :
  in_ranges letters a = true
  <-> 65 <= a <= 90 \/ a = 193 \/ a = 201 \/ a = 205 \/ a = 211 \/ a = 218 \/ a = 209.
Proof.
  change letters
    with [(65, 90); (193, 193); (201, 201); (205, 205); (211, 211); (218, 218); (209, 209)].
  unfold in_ranges. cbn [existsb fst snd].
  rewrite !orb_true_iff, !in_range_spec. intuition lia.
Qed.

Lemma small_letters_spec c :
  in_ranges small_letters c = true
  <-> 97 <= c <= 122 \/ c = 225 \/ c = 233 \/ c = 237 \/ c = 243 \/ c = 250 \/ c = 241.
Proof.
  change small_letters
    with [(97, 122); (225, 225); (233, 233); (237, 237); (243, 243); (250, 250); (241, 241)].
  unfold in_ranges. cbn [existsb fst snd].
  rewrite !orb_true_iff, !in_range_spec. intuition lia.
Qed.

Lemma letters_ci_spec c :
  in_ranges_ci letters c = true
  <-> in_ranges letters c = true \/ in_ranges small_letters c = true.
Proof.
  rewrite in_ranges_ci_spec. split.
  - intros (a & Ha & Hc). symmetry in Hc.
    assert (canonicalize a = a /\ a < 256) as [Ea Hlt].
    { apply letters_spec in Ha.
      destruct Ha as [Ha|Ha]; [split; [apply canonicalize_fixed|]; lia|].
      repeat (destruct Ha as [->|Ha]; [split; reflexivity|]). subst. split; reflexivity. }
    rewrite Ea in Hc. apply canonicalize_inv in Hc; [|done].
    destruct Hc as [-> | ->]; [by left|right].
    apply small_letters_spec. apply letters_spec in Ha. lia.
  - intros [H|H]; [by exists c|].
    apply small_letters_spec in H. exists (c - 32). split.
    + apply letters_spec. lia.
    + destruct H as [H|H].
      * rewrite (canonicalize_small c) by done. apply canonicalize_fixed. lia.
      * repeat (destruct H as [->|H]; [reflexivity|]). subst. reflexivity.
Qed.

Lemma small_not_letter c : in_ranges small_letters c = true -> in_ranges letters c = false.
Proof.
  intros H. apply not_true_is_false. intros Hl.
  apply small_letters_spec in H. apply letters_spec in Hl. lia.
Qed.

Lemma small_not_digit c : in_ranges small_letters c = true -> is_digit c = false.
Proof.
  intros H. apply not_true_is_false. intros Hd.
  apply small_letters_spec in H. apply in_range_spec in Hd. lia.
Qed.

Lemma small_not_space c : in_ranges small_letters c = true -> is_space c = false.
Proof.
  intros H. apply not_true_is_false. intros Hs.
  apply small_letters_spec in H. apply is_space_spec in Hs. lia.
Qed.

Lemma alnum_dash_not_terminator c :
  in_ranges_ci alnum_dash c = true -> negb (is_line_terminator c) = true.
Proof.
  intros H. apply alnum_dash_ci_spec in H. rewrite alnum_dash_spec in H.
  apply negb_true_iff, not_true_is_false. unfold is_line_terminator.
  rewrite !orb_true_iff, !N.eqb_eq. lia.
Qed.

End LetterClasses.

Section ExtractedValues.
Local Open Scope nat_scope.

(** The value of a fixed field: empty when its pattern occurs nowhere,
    and otherwise a word of its capture group, trimmed. *)
Lemma field_value_cases r b text :
  last_group r = Some (1, b) ->
  (~ occurs r text /\ field_value r text = [])
  \/ (occurs r text /\ exists p g rest, matches b p g rest /\ field_value r text = trim g).
Proof.
  intros Hl. unfold field_value. destruct (js_match text r) as [m|] eqn:E.
  - right. split; [apply js_match_occurs; by rewrite E|].
    destruct (js_match_last_group _ _ _ _ _ Hl E) as (p & g & rest & Hg & Hm).
    exists p, g, rest. by rewrite Hg.
  - left. split; [|done]. intros H. apply js_match_occurs in H. done.
Qed.

Lemma fecha_cases text :
  (~ occurs re_fecha text /\ field_value re_fecha text = [])
  \/ (occurs re_fecha text /\ date_word (in_ranges_ci letters) (field_value re_fecha text)).
Proof.
  destruct (field_value_cases re_fecha (date_body true) text eq_refl)
    as [?|[Ho (p & g & rest & Hm & ->)]]; [by left|right]. split; [done|].
  apply date_body_words in Hm. cbv iota in Hm.
  destruct Hm as (d & s1 & m & s2 & y & -> & Hdl & Hd & Hs1 & Hm & Hs2 & Hy).
  rewrite date_trim by done. exists d, s1, m, s2, y. done.
Qed.

Lemma planta_cases text :
  (~ occurs re_planta text /\ field_value re_planta text = [])
  \/ (occurs re_planta text /\ run (in_ranges_ci alnum_dash) (field_value re_planta text)).
Proof.
  destruct (field_value_cases re_planta (plus (cls_ci alnum_dash)) text eq_refl)
    as [?|[Ho (p & g & rest & Hm & ->)]]; [by left|right]. split; [done|].
  apply matches_plus_chr in Hm.
  by rewrite (trim_run _ _ alnum_dash_not_space Hm).
Qed.

Lemma placa_cases text :
  (~ occurs re_placa text /\ field_value re_placa text = [])
  \/ (occurs re_placa text /\ run (in_ranges_ci alnum) (field_value re_placa text)).
Proof.
  destruct (field_value_cases re_placa (plus (cls_ci alnum)) text eq_refl)
    as [?|[Ho (p & g & rest & Hm & ->)]]; [by left|right]. split; [done|].
  apply matches_plus_chr in Hm.
  by rewrite (trim_run _ _ alnum_not_space Hm).
Qed.

Lemma folio_cases text :
  (~ occurs re_folio text /\ field_value re_folio text = [])
  \/ (occurs re_folio text /\ folio_word (field_value re_folio text)).
Proof.
  destruct (field_value_cases re_folio (seqs [str_ci "N°B"; plus digit]) text eq_refl)
    as [?|[Ho (p & g & rest & Hm & ->)]]; [by left|right]. split; [done|].
  apply folio_words in Hm. destruct Hm as (l & ds & -> & Hl & Hd).
  rewrite folio_trim by done. exists l, ds. done.
Qed.

Lemma valido_cases r text :
  section_valido r text = [] /\ ~ has_valido r text
  \/ month_word (section_valido r text) /\ has_valido r text.
Proof.
  destruct (section_valido_cases r text) as [[H Hm]|[H ->]]; [right|by left].
  split; [|done]. by apply month_year_words in Hm.
Qed.

Lemma run_ne p w : run p w -> w <> [].
Proof. by intros [? _]. Qed.

Lemma date_word_ne p w : date_word p w -> w <> [].
Proof.
  intros (d & s1 & m & s2 & y & -> & Hl & _). destruct d; [cbn in Hl; lia|done].
Qed.

Lemma month_word_ne w : month_word w -> w <> [].
Proof. intros (m & s & y & -> & [Hm _] & _). by destruct m. Qed.

Lemma folio_word_ne w : folio_word w -> w <> [].
Proof. intros (l & ds & -> & _ & [Hd _]). destruct l; [done|done]. Qed.

(** The characters of a date. *)
Lemma date_word_chars p w :
  date_word p w ->
  Forall (fun c => is_digit c = true \/ is_space c = true \/ p c = true) w.
Proof.
  intros (d & s1 & m & s2 & y & -> & _ & Hd & [_ Hs1] & [_ Hm] & [_ Hs2] & [_ Hy]).
  repeat (apply Forall_app; split);
    (eapply Forall_impl; [eassumption|]); cbn; auto.
Qed.

Lemma date_word_upper w :
  date_word (in_ranges_ci letters) w ->
  (forall c, In c w -> in_ranges small_letters c = false) ->
  date_word (in_ranges letters) w.
Proof.
  intros (d & s1 & m & s2 & y & -> & Hdl & Hd & Hs1 & [Hne Hm] & Hs2 & Hy) Hw.
  exists d, s1, m, s2, y. repeat split; try done; try apply Hs1; try apply Hs2; try apply Hy.
  apply Forall_forall. intros c Hc. unfold all in Hm.
  rewrite Forall_forall in Hm. specialize (Hm c Hc). cbv beta in Hm.
  apply letters_ci_spec in Hm as [Hm|Hm]; [done|].
  rewrite Hw in Hm; [done|].
  apply in_or_app. right. apply in_or_app. right. apply in_or_app. left.
  by apply list_elem_of_In.
Qed.

(** [test] of the pattern of "Fecha de Revisión" on a date that was
    extracted. *)
Lemma fecha_test v :
  date_word (in_ranges_ci letters) v ->
  test (seqs [Bol; date_body false; Eol]) v = true
  <-> forall c, In c v -> in_ranges small_letters c = false.
Proof.
  intros Hv. rewrite test_anchored by reflexivity. rewrite date_body_words. cbv iota.
  split.
  - intros H c Hc. apply date_word_chars in H. rewrite Forall_forall in H.
    apply list_elem_of_In in Hc. specialize (H c Hc). cbv beta in H.
    apply not_true_is_false. intros Hs.
    destruct H as [H|[H|H]].
    + apply small_not_digit in Hs. congruence.
    + apply small_not_space in Hs. congruence.
    + apply small_not_letter in Hs. congruence.
  - by apply date_word_upper.
Qed.

Lemma placa_test v :
  run (in_ranges_ci alnum) v ->
  test (seqs [Bol; plus (cls alnum); Eol]) v = true
  <-> forall c, In c v -> in_range 97 122 c = false.
Proof.
  intros [Hne Hv]. rewrite test_anchored by reflexivity. unfold cls.
  rewrite matches_plus_chr. split.
  - intros [_ H] c Hc. rewrite Forall_forall in H.
    apply list_elem_of_In in Hc. specialize (H c Hc). cbv beta in H.
    apply alnum_spec in H. apply not_true_is_false. intros Hs.
    apply in_range_spec in Hs. lia.
  - intros H. split; [done|]. apply Forall_forall. intros c Hc. unfold all in Hv.
    rewrite Forall_forall in Hv. specialize (Hv c Hc). cbv beta in Hv.
    apply alnum_ci_spec in Hv as [Hv|Hv]; [done|].
    apply list_elem_of_In in Hc. apply H in Hc.
    apply in_range_spec in Hv. congruence.
Qed.

Lemma planta_test v :
  run (in_ranges_ci alnum_dash) v -> test (seqs [Bol; plus dot; Eol]) v = true.
Proof.
  intros [Hne Hv]. apply test_anchored; [reflexivity|]. unfold dot.
  apply matches_plus_chr. split; [done|].
  eapply Forall_impl; [exact Hv|]. intros c Hc. by apply alnum_dash_not_terminator.
Qed.

Lemma folio_test v :
  folio_word v -> test (seqs [Bol; str_ci "N°B"; plus digit; Eol]) v = true.
Proof.
  intros Hv. unfold test.
  destruct (js_match v (seqs [Bol; str_ci "N°B"; plus digit; Eol])) eqn:E; [done|].
  exfalso. assert (js_match v (seqs [Bol; str_ci "N°B"; plus digit; Eol]) <> None) as H;
    [|done].
  apply js_match_occurs. exists [], v, []. split; [by rewrite app_nil_r|].
  apply matches_seqs_cons. exists [], v. split; [done|]. split; [constructor|].
  apply matches_seqs_cons. destruct Hv as (l & ds & -> & Hl & Hd).
  exists l, ds. split; [done|]. split; [by apply matches_str_ci|].
  apply matches_seqs_cons. exists ds, []. split; [by rewrite app_nil_r|].
  split; [by apply matches_plus_chr|]. constructor.
Qed.

End ExtractedValues.

Section ValidationOfExtracted.
Local Open Scope nat_scope.

Lemma none_or_some (q : jschar -> bool) v :
  (forall c, In c v -> q c = false) \/ (exists c, In c v /\ q c = true).
Proof.
  destruct (existsb q v) eqn:E.
  - right. by apply existsb_exists in E.
  - left. intros c Hc. apply not_true_is_false. intros Hq.
    assert (existsb q v = true) by (apply existsb_exists; eauto). congruence.
Qed.

Lemma malformed_extracted text field v pattern :
  obj_get field (extracted text) = Some v ->
  malformed (extracted text) field pattern <-> v <> [] /\ test pattern v = false.
Proof.
  intros Hv. unfold malformed. rewrite Hv. split.
  - intros (v' & Hv' & ? & ?). by inversion Hv'; subst.
  - intros [? ?]. by exists v.
Qed.

Lemma field_ok_extracted text field v pattern :
  obj_get field (extracted text) = Some v ->
  field_ok (extracted text) field pattern <-> v <> [] /\ test pattern v = true.
Proof.
  intros Hv. unfold field_ok. rewrite Hv. split.
  - intros (v' & Hv' & ? & ?). by inversion Hv'; subst.
  - intros [? ?]. by exists v.
Qed.

Lemma extracted_fecha text :
  obj_get K_fecha (extracted text) = Some (field_value re_fecha text).
Proof. reflexivity. Qed.
Lemma extracted_planta text :
  obj_get K_planta (extracted text) = Some (field_value re_planta text).
Proof. reflexivity. Qed.
Lemma extracted_placa text :
  obj_get K_placa (extracted text) = Some (field_value re_placa text).
Proof. reflexivity. Qed.
Lemma extracted_folio text :
  obj_get K_folio (extracted text) = Some (field_value re_folio text).
Proof. reflexivity. Qed.

Lemma required_fecha : obj_get K_fecha requiredPatterns = Some (seqs [Bol; date_body false; Eol]).
Proof. reflexivity. Qed.
Lemma required_placa : obj_get K_placa requiredPatterns = Some (seqs [Bol; plus (cls alnum); Eol]).
Proof. reflexivity. Qed.
Lemma required_planta : obj_get K_planta requiredPatterns = Some (seqs [Bol; plus dot; Eol]).
Proof. reflexivity. Qed.
Lemma required_folio :
  obj_get K_folio requiredPatterns = Some (seqs [Bol; str_ci "N°B"; plus digit; Eol]).
Proof. reflexivity. Qed.

Lemma fecha_ok text :
  field_ok (extracted text) K_fecha (seqs [Bol; date_body false; Eol])
  <-> occurs re_fecha text
      /\ forall c, In c (field_value re_fecha text) -> in_ranges small_letters c = false.
Proof.
  rewrite (field_ok_extracted _ _ _ _ (extracted_fecha text)).
  destruct (fecha_cases text) as [[Hn ->]|[Ho Hw]].
  - split; [by intros [? _]|by intros [? _]].
  - rewrite (fecha_test _ Hw). split; [by intros [_ ?]|].
    intros [_ ?]. split; [by eapply date_word_ne|done].
Qed.

Lemma placa_ok text :
  field_ok (extracted text) K_placa (seqs [Bol; plus (cls alnum); Eol])
  <-> occurs re_placa text
      /\ forall c, In c (field_value re_placa text) -> in_range 97 122 c = false.
Proof.
  rewrite (field_ok_extracted _ _ _ _ (extracted_placa text)).
  destruct (placa_cases text) as [[Hn ->]|[Ho Hw]].
  - split; [by intros [? _]|by intros [? _]].
  - rewrite (placa_test _ Hw). split; [by intros [_ ?]|].
    intros [_ ?]. split; [by eapply run_ne|done].
Qed.

Lemma planta_ok text :
  field_ok (extracted text) K_planta (seqs [Bol; plus dot; Eol]) <-> occurs re_planta text.
Proof.
  rewrite (field_ok_extracted _ _ _ _ (extracted_planta text)).
  destruct (planta_cases text) as [[Hn ->]|[Ho Hw]].
  - split; [by intros [? _]|done].
  - split; [done|]. intros _. split; [by eapply run_ne|by apply planta_test].
Qed.

Lemma folio_ok text :
  field_ok (extracted text) K_folio (seqs [Bol; str_ci "N°B"; plus digit; Eol])
  <-> occurs re_folio text.
Proof.
  rewrite (field_ok_extracted _ _ _ _ (extracted_folio text)).
  destruct (folio_cases text) as [[Hn ->]|[Ho Hw]].
  - split; [by intros [? _]|done].
  - split; [done|]. intros _. split; [by eapply folio_word_ne|by apply folio_test].
Qed.

Lemma required_extracted_ok text :
  Forall (fun e => required_error (extracted text) e = None) requiredPatterns
  <-> (occurs re_fecha text
       /\ forall c, In c (field_value re_fecha text) -> in_ranges small_letters c = false)
      /\ (occurs re_placa text
          /\ forall c, In c (field_value re_placa text) -> in_range 97 122 c = false)
      /\ occurs re_planta text /\ occurs re_folio text.
Proof.
  unfold requiredPatterns.
  rewrite !Forall_cons, Forall_nil, !required_error_None.
  rewrite fecha_ok, placa_ok, planta_ok, folio_ok. tauto.
Qed.

Lemma valido_some text :
  ~ (empty_value (obj_get K_valido_rt (extracted text))
     /\ empty_value (obj_get K_valido_c (extracted text)))
  <-> has_valido re_revision_section text \/ has_valido re_contaminantes_section text.
Proof.
  rewrite extracted_valido_rt, extracted_valido_c. unfold empty_value.
  destruct (valido_cases re_revision_section text) as [[-> Hr]|[Hr Hr']];
    destruct (valido_cases re_contaminantes_section text) as [[-> Hc]|[Hc Hc']].
  - split; [intros H; exfalso; apply H; auto|tauto].
  - split; [auto|]. intros _ [_ [H|H]]; [done|]. apply month_word_ne in Hc. congruence.
  - split; [auto|]. intros _ [[H|H] _]; [done|]. apply month_word_ne in Hr. congruence.
  - split; [auto|]. intros _ [[H|H] _]; [done|]. apply month_word_ne in Hr. congruence.
Qed.

End ValidationOfExtracted.

Section Acceptance.
Local Open Scope nat_scope.
Variable world : Type.
Variable logger_info : list log_arg -> world -> world.
Variable logger_error : list log_arg -> world -> world.
Variable parsePDFBuffer : File -> world -> outcome jsstring * world.

(** X4. The record of [extraerDatosCRT] has its six keys in the order of
    the code, and each value is either the empty string, when its pattern
    occurs nowhere (for a "Válido Hasta", when its section has no date), or
    a word of the shape that the pattern captures: day, month and year for
    the date; letters, digits and dashes for the plant; letters and digits
    for the plate; month and year for a "Válido Hasta"; N°B and digits for
    the folio. *)
Theorem extraerDatosCRT_value_shapes (text : jsstring) (w : world) (datos : obj jsstring) :
  fst (extraerDatosCRT world logger_info text w) = Ok datos ->
  obj_keys datos = [K_fecha; K_planta; K_placa; K_valido_rt; K_valido_c; K_folio]
  /\ (exists v, obj_get K_fecha datos = Some v
        /\ (~ occurs re_fecha text /\ v = []
            \/ occurs re_fecha text /\ date_word (in_ranges_ci letters) v))
  /\ (exists v, obj_get K_planta datos = Some v
        /\ (~ occurs re_planta text /\ v = []
            \/ occurs re_planta text /\ run (in_ranges_ci alnum_dash) v))
  /\ (exists v, obj_get K_placa datos = Some v
        /\ (~ occurs re_placa text /\ v = []
            \/ occurs re_placa text /\ run (in_ranges_ci alnum) v))
  /\ (exists v, obj_get K_valido_rt datos = Some v
        /\ (v = [] /\ ~ has_valido re_revision_section text
            \/ month_word v /\ has_valido re_revision_section text))
  /\ (exists v, obj_get K_valido_c datos = Some v
        /\ (v = [] /\ ~ has_valido re_contaminantes_section text
            \/ month_word v /\ has_valido re_contaminantes_section text))
  /\ (exists v, obj_get K_folio datos = Some v
        /\ (~ occurs re_folio text /\ v = []
            \/ occurs re_folio text /\ folio_word v)).
Proof.
  intros H. apply (extraer_ok world logger_info) in H as ->.
  split; [reflexivity|].
  split; [exists (field_value re_fecha text); split; [reflexivity|apply fecha_cases]|].
  split; [exists (field_value re_planta text); split; [reflexivity|apply planta_cases]|].
  split; [exists (field_value re_placa text); split; [reflexivity|apply placa_cases]|].
  split; [exists (section_valido re_revision_section text);
          split; [reflexivity|apply valido_cases]|].
  split; [exists (section_valido re_contaminantes_section text);
          split; [reflexivity|apply valido_cases]|].
  exists (field_value re_folio text); split; [reflexivity|apply folio_cases].
Qed.

(** X5. What [bestEffortValidationCRT] can object to in a record that
    [extraerDatosCRT] made: the plant, the folio and the two "Válido
    Hasta" fields never have a wrong format; the plate has one exactly when
    it holds a small letter from a to z, and the date exactly when it
    holds a small letter, accented ones and ñ included. The extraction
    ignores the case of letters and the validation does not. *)
Theorem validation_after_extraction (text : jsstring) (w : world) (datos : obj jsstring) :
  fst (extraerDatosCRT world logger_info text w) = Ok datos ->
  (forall pattern, obj_get K_planta requiredPatterns = Some pattern ->
     ~ malformed datos K_planta pattern)
  /\ (forall pattern, obj_get K_folio requiredPatterns = Some pattern ->
        ~ malformed datos K_folio pattern)
  /\ (forall field pattern, In (field, pattern) optionalPatterns ->
        ~ malformed datos field pattern)
  /\ (forall pattern, obj_get K_placa requiredPatterns = Some pattern ->
        (malformed datos K_placa pattern
         <-> exists v c, obj_get K_placa datos = Some v /\ In c v
                         /\ in_range 97 122 c = true))
  /\ (forall pattern, obj_get K_fecha requiredPatterns = Some pattern ->
        (malformed datos K_fecha pattern
         <-> exists v c, obj_get K_fecha datos = Some v /\ In c v
                         /\ in_ranges small_letters c = true)).
Proof.
  intros H. apply (extraer_ok world logger_info) in H as ->.
  split; [|split; [|split; [|split]]].
  - intros pattern Hp. rewrite required_planta in Hp. apply (inj Some) in Hp as <-.
    rewrite (malformed_extracted _ _ _ _ (extracted_planta text)).
    intros [Hne Ht]. destruct (planta_cases text) as [[_ Hv]|[_ Hv]]; [done|].
    apply planta_test in Hv. exact (diff_true_false (eq_trans (eq_sym Hv) Ht)).
  - intros pattern Hp. rewrite required_folio in Hp. apply (inj Some) in Hp as <-.
    rewrite (malformed_extracted _ _ _ _ (extracted_folio text)).
    intros [Hne Ht]. destruct (folio_cases text) as [[_ Hv]|[_ Hv]]; [done|].
    apply folio_test in Hv. exact (diff_true_false (eq_trans (eq_sym Hv) Ht)).
  - intros field pattern Hin Hm. apply optional_error_Some in Hm. apply Hm.
    pose proof (optional_extracted_ok text) as Hopt. rewrite Forall_forall in Hopt.
    apply Hopt. by apply list_elem_of_In.
  - intros pattern Hp. rewrite required_placa in Hp. apply (inj Some) in Hp as <-.
    rewrite (malformed_extracted _ _ _ _ (extracted_placa text)), extracted_placa.
    destruct (placa_cases text) as [[_ Hv]|[_ Hv]].
    + rewrite Hv. split; [by intros [? _]|]. intros (v & c & Hv' & Hc & _).
      inversion Hv'; subst. done.
    + pose proof (placa_test _ Hv) as Ht. split.
      * intros [_ Hf].
        destruct (none_or_some (in_range 97 122) (field_value re_placa text))
          as [Hn|(c & Hc & Hq)];
          [destruct (diff_true_false (eq_trans (eq_sym (proj2 Ht Hn)) Hf))|eauto].
      * intros (v & c & Hv' & Hc & Hq). inversion Hv'; subst.
        split; [by eapply run_ne|]. apply not_true_is_false. intros Htrue.
        pose proof (proj1 Ht Htrue c Hc) as Hq'.
        exact (diff_true_false (eq_trans (eq_sym Hq) Hq')).
  - intros pattern Hp. rewrite required_fecha in Hp. apply (inj Some) in Hp as <-.
    rewrite (malformed_extracted _ _ _ _ (extracted_fecha text)), extracted_fecha.
    destruct (fecha_cases text) as [[_ Hv]|[_ Hv]].
    + rewrite Hv. split; [by intros [? _]|]. intros (v & c & Hv' & Hc & _).
      inversion Hv'; subst. done.
    + pose proof (fecha_test _ Hv) as Ht. split.
      * intros [_ Hf].
        destruct (none_or_some (in_ranges small_letters) (field_value re_fecha text))
          as [Hn|(c & Hc & Hq)];
          [destruct (diff_true_false (eq_trans (eq_sym (proj2 Ht Hn)) Hf))|eauto].
      * intros (v & c & Hv' & Hc & Hq). inversion Hv'; subst.
        split; [by eapply date_word_ne|]. apply not_true_is_false. intros Htrue.
        pose proof (proj1 Ht Htrue c Hc) as Hq'.
        exact (diff_true_false (eq_trans (eq_sym Hq) Hq')).
Qed.

(** X3. The files that [procesarPDFCRT] accepts, when the text of the
    file can be read: it returns an entry exactly when the text has one of
    the two titles, a date of revision without a small letter, a plate
    without a small letter from a to z, a plant, a folio, and a
    "VÁLIDO HASTA" date in the section of one of the certificates. *)
Theorem procesarPDFCRT_accepts_iff (file : File) (text : jsstring) (w : world) :
  (forall w', fst (parsePDFBuffer file w') = Ok text) ->
  ((exists entry,
      fst (procesarPDFCRT world logger_info logger_error parsePDFBuffer file w) = Ok entry)
   <-> (occurs title_revision text \/ occurs title_contaminantes text)
       /\ (occurs re_fecha text
           /\ forall c, In c (field_value re_fecha text) -> in_ranges small_letters c = false)
       /\ (occurs re_placa text
           /\ forall c, In c (field_value re_placa text) -> in_range 97 122 c = false)
       /\ occurs re_planta text
       /\ occurs re_folio text
       /\ (has_valido re_revision_section text
           \/ has_valido re_contaminantes_section text)).
Proof.
  intros Hparse. rewrite procesar_result, Hparse. unfold process_text.
  destruct (extraction_cases text) as [[Ht ->]|(Hr & Hc & ->)].
  - destruct (validation_cases (extracted text) (file_name file)) as [[Hn ->]|[Hn ->]].
    + split; [intros _|eauto]. split; [done|].
      apply validation_errors_nil in Hn as (Hreq & _ & Hone).
      apply required_extracted_ok in Hreq. apply valido_some in Hone. tauto.
    + split; [by intros [? ?]|]. intros (_ & Hf & Hp & Hpl & Hfo & Hv).
      exfalso. apply Hn, validation_errors_nil.
      split; [apply required_extracted_ok; tauto|].
      split; [apply optional_extracted_ok|]. by apply valido_some.
  - split; [by intros [? ?]|]. intros [[?|?] _]; done.
Qed.

End Acceptance.

(** * The boundaries of a section *)

Section SectionBoundaries.
Local Open Scope nat_scope.

Lemma rmatch_Star g r pos rest cs k :
  rmatch (Star g r) pos rest cs k = star_loop g (rmatch r) k (S (length rest)) pos rest cs.
Proof. reflexivity. Qed.

Lemma rmatch_Look r pos rest cs k :
  rmatch (Look r) pos rest cs k
  = match rmatch r pos rest cs k_done with
    | Some (_, cs') => k pos rest cs'
    | None => None
    end.
Proof. reflexivity. Qed.

(** A lazy [[\s\S]*?] stops at the first offset from which the rest of the
    pattern matches. *)
Lemma lazy_first k : forall fuel pos rest cs res,
  star_loop false (rmatch any) k fuel pos rest cs = Some res ->
  exists w rest',
    rest = w ++ rest' /\ k (pos + length w) rest' cs = Some res
    /\ forall w1 w2, w = w1 ++ w2 -> w2 <> [] ->
         k (pos + length w1) (w2 ++ rest') cs = None.
Proof.
  induction fuel as [|fuel IH]; intros pos rest cs res H; [done|].
  cbn [star_loop] in H. destruct (k pos rest cs) as [x|] eqn:Ek.
  - exists [], rest. cbn. rewrite Nat.add_0_r. split; [done|]. split; [congruence|].
    intros w1 w2 Hw Hne. by destruct w1, w2.
  - destruct rest as [|c rest]; [done|]. unfold any in H. rewrite rmatch_Chr_cons in H.
    destruct (length rest <? length (c :: rest)); [|done].
    apply IH in H as (w & rest' & -> & Hk & Hmin).
    exists (c :: w), rest'. split; [done|]. split.
    + rewrite <- Hk. f_equal. cbn. lia.
    + intros w1 w2 Hw Hne. destruct w1 as [|c1 w1].
      * cbn in Hw. subst w2. cbn. by rewrite Nat.add_0_r.
      * cbn in Hw. injection Hw as <- Hw.
        rewrite <- (Hmin w1 w2 Hw Hne). f_equal. cbn. lia.
Qed.

(** The first offset at which [scan] finds a match: the matcher fails at
    every offset before it. *)
Lemma scan_leftmost r : forall rest pos m,
  scan r pos rest = Some m ->
  exists pre tl e cs,
    rest = pre ++ tl /\ m_index m = pos + length pre
    /\ rmatch r (pos + length pre) tl [] k_done = Some (e, cs)
    /\ m_caps m = cs
    /\ forall pre1 pre2, pre = pre1 ++ pre2 -> pre2 <> [] ->
         rmatch r (pos + length pre1) (pre2 ++ tl) [] k_done = None.
Proof.
  induction rest as [|c rest IH]; intros pos m H; cbn [scan] in H.
  - destruct (rmatch r pos [] [] k_done) as [[e cs]|] eqn:E; [|done].
    inversion H; subst. exists [], [], e, cs. cbn. rewrite Nat.add_0_r.
    repeat split; auto. intros pre1 pre2 Hp Hne. by destruct pre1, pre2.
  - destruct (rmatch r pos (c :: rest) [] k_done) as [[e cs]|] eqn:E.
    + inversion H; subst. exists [], (c :: rest), e, cs. cbn. rewrite Nat.add_0_r.
      repeat split; auto. intros pre1 pre2 Hp Hne. by destruct pre1, pre2.
    + apply IH in H as (pre & tl & e & cs & -> & Hi & Hr & Hc & Hmin).
      exists (c :: pre), tl, e, cs. cbn [length app].
      replace (pos + S (length pre)) with (S pos + length pre) by lia.
      repeat split; auto. intros pre1 pre2 Hp Hne. destruct pre1 as [|c1 pre1].
      * cbn in Hp. subst pre2. cbn. by rewrite Nat.add_0_r.
      * cbn in Hp. injection Hp as <- Hp.
        rewrite <- (Hmin pre1 pre2 Hp Hne). f_equal. cbn. lia.
Qed.

Lemma no_groups_no_captures (new : captures) :
  Forall (fun b => In (fst b) []) new -> new = [].
Proof. destruct new as [|b new]; [done|]. intros H. by apply Forall_cons in H as [[] _]. Qed.

(** What a section pattern [T([\s\S]*?)(?=L|$)] finds: the first title, and
    after it the text up to the first offset at which [L] matches or the
    text ends. *)
Lemma section_found T L text m :
  groups T = [] -> groups L = [] ->
  js_match text (seqs [T; Group 1 (Star false any); Look (Alt L Eol)]) = Some m ->
  exists pre title sec post,
    text = pre ++ title ++ sec ++ post
    /\ m_group 1 m = Some sec
    /\ matches T (length pre) title (sec ++ post)
    /\ first_at T text (length pre)
    /\ (post = []
        \/ exists t post', post = t ++ post'
             /\ matches L (length pre + length title + length sec) t post')
    /\ forall s1 s2 t rest, sec = s1 ++ s2 -> s2 <> [] -> s2 ++ post = t ++ rest ->
         ~ matches L (length pre + length title + length s1) t rest.
Proof.
  intros HT HL H. unfold js_match in H.
  apply scan_leftmost in H as (pre & tl & e & cs & -> & _ & Hr & Hc & Hmin).
  cbn [Nat.add] in Hr, Hmin.
  rewrite rmatch_seqs_cons in Hr.
  apply rmatch_sound in Hr as (title & rest1 & new1 & -> & Hmt & Hn1 & Hk1).
  rewrite HT in Hn1. apply no_groups_no_captures in Hn1 as ->. cbn [app] in Hk1.
  rewrite rmatch_seqs_cons, rmatch_Group, rmatch_Star in Hk1.
  apply lazy_first in Hk1 as (sec & post & -> & Hk & Hlazy).
  cbn [seqs] in Hk, Hlazy. rewrite rmatch_Look in Hk.
  exists pre, title, sec, post. split; [done|].
  assert (Hlook : forall p r c,
            match rmatch (Alt L Eol) p r c k_done with
            | Some (_, cs') => k_done p r cs'
            | None => None
            end = Some (e, cs) ->
            cs = c /\ exists t r', r = t ++ r' /\ matches (Alt L Eol) p t r').
  { intros p r c Hm.
    destruct (rmatch (Alt L Eol) p r c k_done) as [[e' cs']|] eqn:E; [|done].
    apply rmatch_sound in E as (t & r' & new & -> & Hmt' & Hn & Hk').
    cbn [groups] in Hn. rewrite HL in Hn. apply no_groups_no_captures in Hn as ->.
    unfold k_done in Hk', Hm. inversion Hk'; subst. inversion Hm; subst. eauto. }
  apply Hlook in Hk as [-> (t & post' & -> & Hend)].
  split.
  { unfold m_group. rewrite Hc. cbn [capture Nat.eqb].
    replace (length pre + length title + length sec - (length pre + length title))
      with (length sec) by lia.
    by rewrite take_app_length. }
  split; [done|]. split.
  { intros pre' w' post'' Heq Hm'.
    destruct (Nat.le_gt_cases (length pre) (length pre')) as [|Hlt]; [done|exfalso].
    assert (exists pre2, pre = pre' ++ pre2 /\ pre2 <> []) as (pre2 & -> & Hne).
    { exists (drop (length pre') pre). split.
      - apply (f_equal (take (length pre'))) in Heq.
        rewrite take_app_le in Heq by lia. rewrite take_app_length in Heq.
        rewrite <- Heq at 1. by rewrite take_drop.
      - intros Hd. apply (f_equal length) in Hd. rewrite length_drop in Hd. cbn in Hd. lia. }
    specialize (Hmin pre' pre2 eq_refl Hne).
    rewrite <- app_assoc in Heq. apply app_inv_head in Heq. rewrite Heq in Hmin.
    revert Hmin.
    assert (Hall : matches (seqs [T; Group 1 (Star false any); Look (Alt L Eol)])
                     (length pre') (w' ++ post'' ++ []) []).
    { apply matches_seqs_cons. exists w', (post'' ++ []). split; [done|].
      rewrite !app_nil_r. split; [done|].
      apply matches_seqs_cons. exists post'', []. rewrite app_nil_r. split; [done|].
      split; [constructor; apply matches_star_any|].
      cbn [seqs]. apply (M_Look (Alt L Eol) _ [] []). apply M_AltR. constructor. }
    pose proof (rmatch_complete _ _ _ _ Hall [] k_done) as Hcomp.
    rewrite !app_nil_r in Hcomp. apply Hcomp. done. }
  split.
  { inversion Hend as [| | |? ? ? ? ? Hl|? ? ? ? ? He| | | | | |]; subst.
    - right. exists t, post'. done.
    - left. inversion He; subst. done. }
  intros s1 s2 t' rest Hs Hne Heq Hm'. subst sec.
  specialize (Hlazy s1 s2 eq_refl Hne). rewrite rmatch_Look in Hlazy.
  revert Hlazy. rewrite Heq.
  pose proof (rmatch_complete (Alt L Eol) (length pre + length title + length s1) t' rest
                (M_AltL _ _ _ _ _ Hm')) as Hcomp.
  match goal with |- context [rmatch (Alt L Eol) ?p ?r ?c k_done] =>
    specialize (Hcomp c k_done); destruct (rmatch (Alt L Eol) p r c k_done) as [[? ?]|]
  end; [done|]. intros _. by apply Hcomp.
Qed.

End SectionBoundaries.

(** * The date of validity in a section *)

Section ValidoMatching.
Local Open Scope nat_scope.

Lemma rmatch_opt_none r pos rest cs k :
  rmatch r pos rest cs k = None -> rmatch (opt r) pos rest cs k = k pos rest cs.
Proof. intros H. unfold opt. cbn [rmatch]. by rewrite H. Qed.

Lemma rmatch_opt_some r pos rest cs k x :
  rmatch r pos rest cs k = Some x -> rmatch (opt r) pos rest cs k = Some x.
Proof. intros H. unfold opt. cbn [rmatch]. by rewrite H. Qed.

(** A run of characters of a set, followed by a text that does not start
    with one, is cut in one way only. *)
Lemma run_unique p : forall w1 w2 r1 r2,
  all p w1 -> all p w2 -> stops p r1 -> stops p r2 ->
  w1 ++ r1 = w2 ++ r2 -> w1 = w2 /\ r1 = r2.
Proof.
  induction w1 as [|c w1 IH]; intros w2 r1 r2 H1 H2 Hs1 Hs2 Heq.
  - destruct w2 as [|d w2]; [done|]. cbn in Heq. subst r1.
    apply Forall_cons in H2 as [Hd _]. rewrite (Hs1 d) in Hd; done.
  - destruct w2 as [|d w2].
    + cbn in Heq. subst r2. apply Forall_cons in H1 as [Hc _].
      rewrite (Hs2 c) in Hc; done.
    + cbn in Heq. injection Heq as <- Heq.
      apply Forall_cons in H1 as [_ H1]. apply Forall_cons in H2 as [_ H2].
      destruct (IH w2 r1 r2) as [-> ->]; done.
Qed.

Lemma letter_not_digit c : in_ranges_ci letters c = true -> is_digit c = false.
Proof.
  intros H. apply not_true_is_false. intros Hd. apply in_range_spec in Hd.
  apply letters_ci_spec in H as [H|H].
  - apply letters_spec in H. lia.
  - apply small_letters_spec in H. lia.
Qed.

Lemma digit_not_letter c : is_digit c = true -> in_ranges_ci letters c = false.
Proof.
  intros H. apply not_true_is_false. intros Hd. apply letter_not_digit in Hd. congruence.
Qed.

(** A letter up to case: what [canonicalize] sends to one of A-Z. *)
Lemma same_ci_letter a c :
  (65 <= a <= 90)%N -> canonicalize a = canonicalize c ->
  in_ranges_ci letters c = true.
Proof.
  intros Ha Hc. apply in_ranges_ci_spec. exists a. split; [|done].
  apply letters_spec. auto.
Qed.

(** After VÁLIDO HASTA, white space, a month and a year, the optional
    [\s*FECHA REVISIÓN:] finds nothing. *)
Lemma no_fecha_label pos sp m s y post :
  all is_space sp -> run (in_ranges_ci letters) m -> run is_space s -> digits 4 y ->
  forall w rest,
    sp ++ m ++ s ++ y ++ post = w ++ rest ->
    ~ matches (seqs [Star true ws; str_ci "FECHA REVISIÓN:"]) pos w rest.
Proof.
  intros Hsp Hm Hs Hy w rest Heq H.
  apply matches_seqs_cons in H as (sp' & L & -> & Hsp' & HL).
  apply matches_star_chr in Hsp'. cbn [seqs] in HL. apply matches_str_ci in HL.
  unfold same_ci in HL. change (utf16 "FECHA REVISIÓN:")
    with [70; 69; 67; 72; 65; 32; 82; 69; 86; 73; 83; 73; 211; 78; 58]%N in HL.
  destruct L as [|l1 [|l2 [|l3 [|l4 [|l5 [|l6 [|l7 L]]]]]]]; try done.
  cbn [map] in HL.
  injection HL as H1 H2 H3 H4 H5 H6 H7 _.
  change (canonicalize 70%N) with 70%N in H1. change (canonicalize 69%N) with 69%N in H2.
  change (canonicalize 67%N) with 67%N in H3. change (canonicalize 72%N) with 72%N in H4.
  change (canonicalize 65%N) with 65%N in H5. change (canonicalize 32%N) with 32%N in H6.
  change (canonicalize 82%N) with 82%N in H7.
  assert (Hl1 := same_ci_letter 70 l1 ltac:(lia) H1).
  assert (Hl2 := same_ci_letter 69 l2 ltac:(lia) H2).
  assert (Hl3 := same_ci_letter 67 l3 ltac:(lia) H3).
  assert (Hl4 := same_ci_letter 72 l4 ltac:(lia) H4).
  assert (Hl5 := same_ci_letter 65 l5 ltac:(lia) H5).
  assert (Hl7 := same_ci_letter 82 l7 ltac:(lia) H7).
  symmetry in H6. apply canonicalize_ascii in H6; [|lia]. subst l6.
  rewrite <- app_assoc in Heq.
  destruct (run_unique is_space sp sp' (m ++ s ++ y ++ post)
              ((l1 :: l2 :: l3 :: l4 :: l5 :: 32%N :: l7 :: L) ++ rest)) as [<- Heq'];
    [done|done| | |done|].
  { eapply stops_run; [apply letter_not_space|exact Hm]. }
  { intros c Hc. inversion Hc; subst. by apply letter_not_space. }
  change ((l1 :: l2 :: l3 :: l4 :: l5 :: 32%N :: l7 :: L) ++ rest)
    with ([l1; l2; l3; l4; l5] ++ 32%N :: l7 :: L ++ rest) in Heq'.
  destruct (run_unique (in_ranges_ci letters) m [l1; l2; l3; l4; l5]
              (s ++ y ++ post) (32%N :: l7 :: L ++ rest)) as [_ Heq''];
    [apply Hm| | | |done|].
  { repeat (apply Forall_cons; split; [done|]). apply Forall_nil_2. }
  { eapply stops_run; [apply space_not_letter|exact Hs]. }
  { intros c Hc. inversion Hc; subst. reflexivity. }
  destruct Hs as [Hne Hs]. destruct s as [|c1 s]; [done|].
  cbn in Heq''. injection Heq'' as _ Heq''.
  destruct s as [|c2 s].
  - destruct Hy as [Hyl Hy]. destruct y as [|y1 y]; [done|].
    cbn in Heq''. injection Heq'' as -> _. apply Forall_cons in Hy as [Hy _].
    apply letter_not_digit in Hl7. congruence.
  - cbn in Heq''. injection Heq'' as -> _.
    apply Forall_cons in Hs as [_ Hs]. apply Forall_cons in Hs as [Hs _].
    apply letter_not_space in Hl7. congruence.
Qed.

(** A date does not start with a letter. *)
Lemma no_date_at_letter pos m rest0 :
  run (in_ranges_ci letters) m ->
  forall w rest,
    m ++ rest0 = w ++ rest ->
    ~ matches (seqs [Group 1 (date_body true); plus ws]) pos w rest.
Proof.
  intros [Hne Hm] w rest Heq H.
  apply matches_seqs_cons in H as (g & sp & -> & Hg & _).
  inversion Hg as [| | | | | | |? ? ? ? ? Hd| | |]; subst.
  apply date_body_words in Hd. cbv iota in Hd.
  destruct Hd as (d & s1 & m' & s2 & y & -> & Hdl & Hd & _).
  destruct d as [|d1 d]; [cbn in Hdl; lia|]. apply Forall_cons in Hd as [Hd1 _].
  destruct m as [|c m]; [done|]. apply Forall_cons in Hm as [Hc _].
  cbn in Heq. injection Heq as -> _. apply letter_not_digit in Hc. congruence.
Qed.

Lemma month_match pos m s y post cs k x :
  run (in_ranges_ci letters) m -> run is_space s -> digits 4 y ->
  k (pos + length (m ++ s ++ y)) post cs = Some x ->
  rmatch month_year pos (m ++ s ++ y ++ post) cs k = Some x.
Proof.
  intros Hm Hs Hy Hk. unfold month_year.
  rewrite rmatch_seqs_cons. unfold cls_ci.
  apply rmatch_plus_run; [done|by eapply stops_run; [apply space_not_letter|]|].
  rewrite rmatch_seqs_cons.
  apply rmatch_plus_run; [done|by eapply stops_digits; [apply digit_not_space|]|].
  cbn [seqs]. rewrite rmatch_rep_4 by done.
  rewrite <- Hk. f_equal. rewrite !length_app. destruct Hy as [-> _]. lia.
Qed.

Lemma take_value (v post : jsstring) n p :
  n = p + length v -> take (n - p) (v ++ post) = v.
Proof. intros ->. replace (p + length v - p) with (length v) by lia. apply take_app_length. Qed.

(** [VÁLIDO HASTA OCTUBRE 2024] *)
Lemma valido_match_plain pos label sp m s y post :
  same_ci (utf16 "VÁLIDO HASTA") label -> all is_space sp ->
  run (in_ranges_ci letters) m -> run is_space s -> digits 4 y ->
  rmatch validoPattern pos (label ++ sp ++ m ++ s ++ y ++ post) [] k_done
  = Some (pos + length label + length sp + length (m ++ s ++ y), [(2, m ++ s ++ y)]).
Proof.
  intros Hl Hsp Hm Hs Hy. unfold validoPattern.
  rewrite rmatch_seqs_cons, rmatch_str_ci by done.
  rewrite rmatch_seqs_cons, rmatch_opt_none
    by (apply rmatch_none; by apply no_fecha_label).
  rewrite rmatch_seqs_cons.
  apply rmatch_star_run; [done|by eapply stops_run; [apply letter_not_space|]|].
  rewrite rmatch_seqs_cons, rmatch_opt_none
    by (apply rmatch_none; by apply no_date_at_letter).
  cbn [seqs]. rewrite rmatch_Group.
  apply month_match; try done.
  unfold k_done.
  replace (m ++ s ++ y ++ post) with ((m ++ s ++ y) ++ post) by (by rewrite <- !app_assoc).
  rewrite take_value; [done|lia].
Qed.

(** [VÁLIDO HASTA FECHA REVISIÓN: 10 OCTUBRE 2023 ABRIL 2024] *)
Lemma valido_match_dated pos label sp0 label2 sp d s1 m1 s2 y1 s3 m s y post :
  same_ci (utf16 "VÁLIDO HASTA") label -> all is_space sp0 ->
  same_ci (utf16 "FECHA REVISIÓN:") label2 -> all is_space sp ->
  (length d = 1 \/ length d = 2) -> all is_digit d -> run is_space s1 ->
  run (in_ranges_ci letters) m1 -> run is_space s2 -> digits 4 y1 ->
  run is_space s3 ->
  run (in_ranges_ci letters) m -> run is_space s -> digits 4 y ->
  exists e,
    rmatch validoPattern pos
      (label ++ sp0 ++ label2 ++ sp ++ (d ++ s1 ++ m1 ++ s2 ++ y1) ++ s3
       ++ m ++ s ++ y ++ post) [] k_done
    = Some (e, [(2, m ++ s ++ y); (1, d ++ s1 ++ m1 ++ s2 ++ y1)]).
Proof.
  intros Hl Hsp0 Hl2 Hsp Hdl Hd Hs1 Hm1 Hs2 Hy1 Hs3 Hm Hs Hy.
  eexists. unfold validoPattern.
  rewrite rmatch_seqs_cons, rmatch_str_ci by done.
  rewrite rmatch_seqs_cons. apply rmatch_opt_some.
  rewrite rmatch_seqs_cons.
  assert (Hfirst : forall c, canonicalize 70%N = canonicalize c -> is_space c = false).
  { intros c Hc. apply letter_not_space. eapply (same_ci_letter 70); [lia|done]. }
  apply rmatch_star_run; [done| |].
  { intros c Hc. destruct label2 as [|l1 label2]; [done|]. cbn in Hc. inversion Hc; subst.
    unfold same_ci in Hl2. change (utf16 "FECHA REVISIÓN:")
      with [70; 69; 67; 72; 65; 32; 82; 69; 86; 73; 83; 73; 211; 78; 58]%N in Hl2.
    cbn [map] in Hl2. injection Hl2 as H1 _. by apply Hfirst. }
  cbn [seqs]. rewrite rmatch_str_ci by done. cbv beta.
  rewrite rmatch_Seq.
  apply rmatch_star_run; [done|by rewrite <- !app_assoc;
    eapply stops_digits12; [apply digit_not_space| |]|].
  rewrite rmatch_Seq. apply rmatch_opt_some.
  rewrite rmatch_Seq, rmatch_Group. rewrite <- !app_assoc.
  apply date_match; try done.
  apply rmatch_plus_run; [done|by eapply stops_run; [apply letter_not_space|]|].
  rewrite rmatch_Group. apply month_match; try done.
  unfold k_done.
  replace (d ++ s1 ++ m1 ++ s2 ++ y1 ++ s3 ++ m ++ s ++ y ++ post)
    with ((d ++ s1 ++ m1 ++ s2 ++ y1) ++ s3 ++ m ++ s ++ y ++ post)
    by (by rewrite <- !app_assoc).
  rewrite (take_value (d ++ s1 ++ m1 ++ s2 ++ y1)) by reflexivity.
  replace (m ++ s ++ y ++ post) with ((m ++ s ++ y) ++ post) by (by rewrite <- !app_assoc).
  rewrite (take_value (m ++ s ++ y)) by reflexivity.
  reflexivity.
Qed.

End ValidoMatching.

Section ValidoFacts.
Local Open Scope nat_scope.

Lemma section_valido_in r text sec :
  section_text r text = Some sec -> section_valido r text = valido_in sec.
Proof. intros H. unfold section_valido, valido_in. by rewrite H. Qed.

Lemma section_text_cases T L text :
  groups T = [] -> groups L = [] ->
  let r := seqs [T; Group 1 (Star false any); Look (Alt L Eol)] in
  (exists sec, section_text r text = Some sec /\ section_of T L text sec)
  \/ (section_text r text = None /\ ~ occurs T text).
Proof.
  intros HT HL r. unfold section_text.
  destruct (js_match text r) as [m|] eqn:E.
  - left. destruct (section_found T L text m HT HL E)
      as (pre & title & sec & post & Ht & Hg & Hm & Hf & He & Hmin).
    exists sec. split; [done|]. exists pre, title, post. done.
  - right. split; [done|]. intros Ho.
    assert (js_match text r <> None) as Hn; [|done].
    apply js_match_occurs. by apply occurs_section.
Qed.

Lemma month_word_trim v : month_word v -> v <> [] /\ trim v = v.
Proof.
  intros H. apply (month_year_words 0 v []) in H.
  destruct (month_year_value v H) as (? & ? & _). done.
Qed.

Lemma valido_in_first pre tl e cs v :
  first_at validoPattern (pre ++ tl) (length pre) ->
  rmatch validoPattern (length pre) tl [] k_done = Some (e, cs) ->
  capture 2 cs = Some v -> month_word v ->
  valido_in (pre ++ tl) = v.
Proof.
  intros Hf Hm Hc Hv. unfold valido_in.
  rewrite (js_match_first validoPattern pre tl e cs) by done.
  unfold valido_value, m_group. cbn [m_caps]. rewrite Hc.
  destruct (month_word_trim v Hv) as [Hne Ht].
  destruct v as [|c v]; [done|].
  unfold js_or. cbn [truthy]. cbv iota. cbn [truthy]. cbv iota.
  cbn [default from_option id]. done.
Qed.

Variable world : Type.
Variable logger_info : list log_arg -> world -> world.

(** X10. The section in which a "Válido Hasta" is read. For each
    certificate, either its title occurs nowhere and the field is the empty
    string, or the field is the date read in the section of the
    certificate: the text from the end of the first match of its title up
    to the first later offset where the next title begins (for the
    technical revision, the title of the emissions certificate; for the
    emissions, "CERTIFICADO" and white space), or up to the end of the text
    when there is none. *)
Theorem extraerDatosCRT_sections (text : jsstring) (w : world) (datos : obj jsstring) :
  fst (extraerDatosCRT world logger_info text w) = Ok datos ->
  ((exists sec, section_of title_revision title_contaminantes text sec
                /\ obj_get K_valido_rt datos = Some (valido_in sec))
   \/ (~ occurs title_revision text /\ obj_get K_valido_rt datos = Some []))
  /\ ((exists sec, section_of title_contaminantes (seqs [str_ci "CERTIFICADO"; ws]) text sec
                   /\ obj_get K_valido_c datos = Some (valido_in sec))
      \/ (~ occurs title_contaminantes text /\ obj_get K_valido_c datos = Some [])).
Proof.
  intros H. apply (extraer_ok world logger_info) in H as ->.
  rewrite extracted_valido_rt, extracted_valido_c. split.
  - destruct (section_text_cases title_revision title_contaminantes text eq_refl eq_refl)
      as [(sec & Hs & Hof)|[Hs Hn]].
    + left. exists sec. split; [done|]. f_equal.
      exact (section_valido_in re_revision_section text sec Hs).
    + right. split; [done|]. f_equal. unfold section_valido.
      change (section_text re_revision_section text = None) in Hs. by rewrite Hs.
  - destruct (section_text_cases title_contaminantes (seqs [str_ci "CERTIFICADO"; ws])
                text eq_refl eq_refl) as [(sec & Hs & Hof)|[Hs Hn]].
    + left. exists sec. split; [done|]. f_equal.
      exact (section_valido_in re_contaminantes_section text sec Hs).
    + right. split; [done|]. f_equal. unfold section_valido.
      change (section_text re_contaminantes_section text = None) in Hs. by rewrite Hs.
Qed.

(** X11. In the section of a certificate, the "Válido Hasta" is the
    month and year that follow the first "VÁLIDO HASTA": the label in any
    case, optional white space, letters, white space and four digits. *)
Theorem extraerDatosCRT_valido_found
    (text sec pre label sp m s y post : jsstring) (w : world) (datos : obj jsstring) :
  sec = pre ++ label ++ sp ++ m ++ s ++ y ++ post ->
  same_ci (utf16 "VÁLIDO HASTA") label ->
  all is_space sp ->
  run (in_ranges_ci letters) m -> run is_space s -> digits 4 y ->
  first_at validoPattern sec (length pre) ->
  fst (extraerDatosCRT world logger_info text w) = Ok datos ->
  (section_text re_revision_section text = Some sec ->
   obj_get K_valido_rt datos = Some (m ++ s ++ y))
  /\ (section_text re_contaminantes_section text = Some sec ->
      obj_get K_valido_c datos = Some (m ++ s ++ y)).
Proof.
  intros -> Hl Hsp Hm Hs Hy Hf H. apply (extraer_ok world logger_info) in H as ->.
  assert (valido_in (pre ++ label ++ sp ++ m ++ s ++ y ++ post) = m ++ s ++ y) as Hv.
  { eapply valido_in_first; [done|by apply valido_match_plain|reflexivity|].
    exists m, s, y. done. }
  rewrite extracted_valido_rt, extracted_valido_c.
  split; intros Hsec; f_equal; rewrite <- Hv; by apply section_valido_in.
Qed.

(** X12. When a date of revision stands between "VÁLIDO HASTA" and the
    month and year, as in "VÁLIDO HASTA FECHA REVISIÓN: 10 OCTUBRE 2023
    ABRIL 2024", the field is the month and year after that date, not the
    month and year of the date of revision. *)
Theorem extraerDatosCRT_valido_after_date
    (text sec pre label sp0 label2 sp d s1 m1 s2 y1 s3 m s y post : jsstring)
    (w : world) (datos : obj jsstring) :
  sec = pre ++ label ++ sp0 ++ label2 ++ sp ++ (d ++ s1 ++ m1 ++ s2 ++ y1) ++ s3
        ++ m ++ s ++ y ++ post ->
  same_ci (utf16 "VÁLIDO HASTA") label -> all is_space sp0 ->
  same_ci (utf16 "FECHA REVISIÓN:") label2 -> all is_space sp ->
  (length d = 1 \/ length d = 2) -> all is_digit d -> run is_space s1 ->
  run (in_ranges_ci letters) m1 -> run is_space s2 -> digits 4 y1 ->
  run is_space s3 ->
  run (in_ranges_ci letters) m -> run is_space s -> digits 4 y ->
  first_at validoPattern sec (length pre) ->
  fst (extraerDatosCRT world logger_info text w) = Ok datos ->
  (section_text re_revision_section text = Some sec ->
   obj_get K_valido_rt datos = Some (m ++ s ++ y))
  /\ (section_text re_contaminantes_section text = Some sec ->
      obj_get K_valido_c datos = Some (m ++ s ++ y)).
Proof.
  intros -> Hl Hsp0 Hl2 Hsp Hdl Hd Hs1 Hm1 Hs2 Hy1 Hs3 Hm Hs Hy Hf H.
  apply (extraer_ok world logger_info) in H as ->.
  destruct (valido_match_dated (length pre) label sp0 label2 sp d s1 m1 s2 y1 s3 m s y post)
    as [e He]; try done.
  assert (valido_in (pre ++ label ++ sp0 ++ label2 ++ sp ++ (d ++ s1 ++ m1 ++ s2 ++ y1)
                     ++ s3 ++ m ++ s ++ y ++ post) = m ++ s ++ y) as Hv.
  { eapply valido_in_first; [done|exact He|reflexivity|]. exists m, s, y. done. }
  rewrite extracted_valido_rt, extracted_valido_c.
  split; intros Hsec; f_equal; rewrite <- Hv; by apply section_valido_in.
Qed.

End ValidoFacts.

(** * The entry of a file *)

Section EntryFacts.
Local Open Scope nat_scope.
Variable world : Type.
Variable logger_info : list log_arg -> world -> world.
Variable logger_error : list log_arg -> world -> world.
Variable parsePDFBuffer : File -> world -> outcome jsstring * world.

Lemma process_text_ok name text entry :
  process_text name text = Ok entry ->
  entry = datosOrdenados (obj_set K_nombre name (extracted text))
  /\ validation_errors (extracted text) = [].
Proof.
  unfold process_text.
  destruct (extraction_cases text) as [[_ ->]|(_ & _ & ->)]; [|done].
  destruct (validation_cases (extracted text) name) as [[Hn ->]|[_ ->]]; [|done].
  intros H. by inversion H.
Qed.

Lemma procesar_ok file w entry :
  fst (procesarPDFCRT world logger_info logger_error parsePDFBuffer file w) = Ok entry ->
  exists text, process_text (file_name file) text = Ok entry.
Proof.
  rewrite procesar_result. destruct (fst (parsePDFBuffer file _)) as [text|e]; [eauto|done].
Qed.

(** The value that an entry holds under a key of the record. *)
Lemma ordenados_get (name text field v : jsstring) :
  In field [K_fecha; K_planta; K_placa; K_valido_rt; K_valido_c; K_folio] ->
  obj_get field (extracted text) = Some v ->
  obj_get field (datosOrdenados (obj_set K_nombre name (extracted text)))
  = Some (VString v).
Proof.
  intros Hin Hv. rewrite ordenados_extracted. cbn [In] in Hin.
  destruct Hin as [<-|[<-|[<-|[<-|[<-|[<-|[]]]]]]];
    (apply (inj Some) in Hv as <-); reflexivity.
Qed.

(** X1. An entry that [procesarPDFCRT] returns is valid: it has the name
    of the file under "Nombre PDF"; each of the four required fields is a
    string that is not empty and that its required pattern accepts; each
    of the two "Válido Hasta" fields is the empty string or a string that
    its pattern accepts; and one of the two at least is not empty. *)
Theorem procesarPDFCRT_entry_valid (file : File) (w : world) (entry : obj jsval) :
  fst (procesarPDFCRT world logger_info logger_error parsePDFBuffer file w) = Ok entry ->
  obj_get K_nombre entry = Some (VString (file_name file))
  /\ (forall field pattern, In (field, pattern) requiredPatterns ->
        exists v, obj_get field entry = Some (VString v)
                  /\ v <> [] /\ test pattern v = true)
  /\ (forall field pattern, In (field, pattern) optionalPatterns ->
        exists v, obj_get field entry = Some (VString v)
                  /\ (v = [] \/ test pattern v = true))
  /\ (exists v, v <> []
        /\ (obj_get K_valido_rt entry = Some (VString v)
            \/ obj_get K_valido_c entry = Some (VString v))).
Proof.
  intros H. apply procesar_ok in H as [text H].
  apply process_text_ok in H as [-> Hv].
  apply validation_errors_nil in Hv as (Hreq & Hopt & Hone).
  rewrite Forall_forall in Hreq, Hopt.
  split; [by rewrite ordenados_extracted|]. split; [|split].
  - intros field pattern Hin.
    assert (Hf : field_ok (extracted text) field pattern).
    { apply required_error_None, Hreq. by apply list_elem_of_In. }
    destruct Hf as (v & Hv & Hne & Ht). exists v. split; [|done].
    apply ordenados_get; [|done].
    unfold requiredPatterns in Hin. cbn [In] in Hin.
    destruct Hin as [Hin|[Hin|[Hin|[Hin|[]]]]];
      inversion Hin; subst field.
    + left; reflexivity.
    + right; right; left; reflexivity.
    + right; left; reflexivity.
    + do 5 right; left; reflexivity.
  - intros field pattern Hin.
    assert (Hf : empty_value (obj_get field (extracted text))
                 \/ field_ok (extracted text) field pattern).
    { apply optional_error_None, Hopt. by apply list_elem_of_In. }
    unfold optionalPatterns in Hin. cbn [In] in Hin.
    destruct Hin as [Hin|[Hin|[]]];
      inversion Hin; subst field pattern.
    + destruct Hf as [[He|He]|(v & Hv & _ & Ht)].
      * rewrite extracted_valido_rt in He. discriminate He.
      * exists []. split; [|by left].
        apply ordenados_get; [do 3 right; left; reflexivity|done].
      * exists v. split; [|right; exact Ht].
        apply ordenados_get; [do 3 right; left; reflexivity|done].
    + destruct Hf as [[He|He]|(v & Hv & _ & Ht)].
      * rewrite extracted_valido_c in He. discriminate He.
      * exists []. split; [|by left].
        apply ordenados_get; [do 4 right; left; reflexivity|done].
      * exists v. split; [|right; exact Ht].
        apply ordenados_get; [do 4 right; left; reflexivity|done].
  - rewrite extracted_valido_rt, extracted_valido_c in Hone.
    destruct (section_valido re_revision_section text) as [|c s] eqn:Er.
    + destruct (section_valido re_contaminantes_section text) as [|c s] eqn:Ec.
      * exfalso. apply Hone. split; by right.
      * exists (c :: s). split; [done|]. right.
        apply ordenados_get; [do 4 right; left; reflexivity|].
        by rewrite extracted_valido_c, Ec.
    + exists (c :: s). split; [done|]. left.
      apply ordenados_get; [do 3 right; left; reflexivity|].
      by rewrite extracted_valido_rt, Er.
Qed.

End EntryFacts.

(** * From entries to the sheet *)

Section ExcelRows.
Local Open Scope nat_scope.

(** The cells of the rows of the records. *)
Lemma generarExcel_rows (registros : list (obj jsval)) :
  registros <> [] ->
  exists d,
    generarExcel registros = Ok d
    /\ forall i registro j h,
         registros !! i = Some registro -> headers !! j = Some h ->
         sheet_cells (download_sheet d) !! (i + 2, j + 1)
         = Some (nullish_or (obj_read h registro) (VString [])).
Proof.
  intros Hne. unfold generarExcel.
  destruct registros as [|reg0 regs0] eqn:Eregs; [done|].
  rewrite <- Eregs. assert (0 < length registros) as Hlen by (subst; simpl; lia).
  replace (Nat.eqb (length registros) 0) with false
    by (symmetry; apply Nat.eqb_neq; lia).
  cbv zeta. eexists. split; [reflexivity|]. cbn [download_sheet]. unfold forEach.
  intros i registro j h Hi Hj.
  assert (j < 7) by (rewrite <- headers_length; by eapply lookup_lt_Some).
  assert (i < length registros) by (by eapply lookup_lt_Some).
  pose proof headers_length as Hh.
  rewrite (record_cells (fun h reg => nullish_or (obj_read h reg) (VString []))
             headers registros 0 _ (i + 2) (j + 1)).
  rewrite decide_True by lia.
  replace (i + 2 - (0 + 2)) with i by lia. replace (j + 1 - 1) with j by lia.
  by rewrite Hi, Hj.
Qed.

Variable world : Type.
Variable logger_info : list log_arg -> world -> world.
Variable logger_error : list log_arg -> world -> world.
Variable parsePDFBuffer : File -> world -> outcome jsstring * world.

Lemma entry_values file entry :
  (exists w, fst (procesarPDFCRT world logger_info logger_error parsePDFBuffer file w)
             = Ok entry) ->
  obj_get K_nombre entry = Some (VString (file_name file))
  /\ forall h, In h headers -> exists s, obj_get h entry = Some (VString s).
Proof.
  intros [w H]. apply (procesar_ok world logger_info logger_error parsePDFBuffer) in H as [text H].
  apply process_text_ok in H as [-> _]. rewrite ordenados_extracted.
  split; [reflexivity|]. intros h Hin. unfold headers in Hin. cbn [In] in Hin.
  destruct Hin as [<-|[<-|[<-|[<-|[<-|[<-|[<-|[]]]]]]]]; eexists; reflexivity.
Qed.

(** X13. [generarExcel] on the entries of [procesarPDFCRT]: for a list of
    files and the entries returned for them, not empty, a sheet is made,
    and the row i + 2 has the name of the file of index i in column 1 and,
    under each header, the string that the entry holds for it. *)
Theorem generarExcel_of_entries (files : list File) (entries : list (obj jsval)) :
  entries <> [] ->
  Forall2 (fun file entry =>
             exists w, fst (procesarPDFCRT world logger_info logger_error parsePDFBuffer
                              file w) = Ok entry) files entries ->
  exists d,
    generarExcel entries = Ok d
    /\ forall i file entry,
         files !! i = Some file -> entries !! i = Some entry ->
         sheet_cells (download_sheet d) !! (i + 2, 1) = Some (VString (file_name file))
         /\ forall j h, headers !! j = Some h ->
              exists s, obj_get h entry = Some (VString s)
                /\ sheet_cells (download_sheet d) !! (i + 2, j + 1) = Some (VString s).
Proof.
  intros Hne Hall. destruct (generarExcel_rows entries Hne) as (d & Hd & Hcells).
  exists d. split; [done|]. intros i file entry Hf He.
  pose proof (Forall2_lookup_lr _ _ _ _ _ _ Hall Hf He) as Hent. cbv beta in Hent.
  destruct (entry_values file entry Hent) as [Hname Hvals].
  split.
  - pose proof (Hcells i entry 0 K_nombre He eq_refl) as H0.
    change (0 + 1) with 1 in H0. rewrite H0. unfold obj_read. by rewrite Hname.
  - intros j h Hj. destruct (Hvals h) as [s Hs].
    { apply list_elem_of_In, list_elem_of_lookup. eauto. }
    exists s. split; [done|]. rewrite (Hcells i entry j h He Hj).
    unfold obj_read. by rewrite Hs.
Qed.

End ExcelRows.

(** * The results table *)

Section TableFacts.
Import Table.
Local Open Scope nat_scope.

Variable number : Type.
Variable number_to_string : number -> jsstring.

Local Abbreviation cell := (Table.cell number).

Lemma fold_seq_lookup {A B} (f : B -> A -> B) (l : list A) : forall n s a,
  fold_left (fun acc i => match l !! i with Some x => f acc x | None => acc end) (seq s n) a
  = fold_left f (take n (drop s l)) a.
Proof.
  induction n as [|n IH]; intros s a; [done|].
  cbn [seq fold_left]. rewrite IH. destruct (l !! s) as [x|] eqn:E.
  - rewrite (drop_S l x s E). reflexivity.
  - apply lookup_ge_None in E. rewrite !drop_ge by lia. by rewrite !take_nil.
Qed.

Lemma fold_max_spec {A} (g : A -> nat) (l : list A) : forall a,
  let m := fold_left (fun acc x => Nat.max acc (g x)) l a in
  a <= m /\ (forall x, x ∈ l -> g x <= m) /\ (m = a \/ exists x, x ∈ l /\ m = g x).
Proof.
  induction l as [|y l IH]; intros a; cbn [fold_left].
  - split; [lia|]. split; [intros x Hx; inversion Hx|by left].
  - pose proof (IH (Nat.max a (g y))) as H. cbv zeta in H |- *.
    destruct H as (H1 & H2 & H3). split; [lia|]. split.
    + intros x Hx. apply elem_of_cons in Hx as [->|Hx]; [lia|by apply H2].
    + destruct H3 as [H3|(x & Hx & H3)].
      * destruct (Nat.max_spec a (g y)) as [[_ Hm]|[_ Hm]]; rewrite Hm in H3 |- *.
        -- right. exists y. split; [by left|done].
        -- by left.
      * right. exists x. split; [by right|done].
Qed.

Lemma column_width_eq rows header idx :
  column_width number number_to_string rows header idx
  = Nat.min (Nat.max (fold_left (fun acc row => Nat.max acc (cell_width number number_to_string idx row))
                                (take 100 rows) (length header * 10 + 24))
                     MIN_COLUMN_WIDTH) MAX_COLUMN_WIDTH.
Proof.
  unfold column_width. cbv zeta.
  rewrite (fold_seq_lookup (fun acc row => Nat.max acc (cell_width number number_to_string idx row)) rows).
  rewrite drop_0. do 3 f_equal.
  destruct (Nat.min_spec (length rows) 100) as [[Hlt ->]|[Hge ->]]; [|done].
  by rewrite !take_ge by lia.
Qed.

Lemma columnWidths_lookup headers rows idx :
  columnWidths number number_to_string headers rows !! idx
  = (fun header => column_width number number_to_string rows header idx) <$> headers !! idx.
Proof. unfold columnWidths. apply list_lookup_imap. Qed.

Lemma total_bounds (lo hi : nat) (l : list nat) :
  Forall (fun w => lo <= w <= hi) l ->
  lo * length l <= totalWidth l <= hi * length l.
Proof.
  unfold totalWidth.
  assert (forall a, Forall (fun w => lo <= w <= hi) l ->
            a + lo * length l <= fold_left (fun sum w => sum + w) l a <= a + hi * length l) as H.
  { induction l as [|w l IH]; intros a Hl; cbn [fold_left length]; [lia|].
    apply Forall_cons in Hl as [Hw Hl]. specialize (IH (a + w) Hl). lia. }
  intros Hl. specialize (H 0 Hl). lia.
Qed.

(** X16. The widths of the columns: one for each header, each between 80
    and 400; a width is at least what the header asks for (10 for each
    character and 24) and what each cell of the first 100 rows asks for (8
    for each character and 24), cut at 400, and it is one of 80, 400, the
    width of the header or the width of one of these cells. The total
    width is between 80 and 400 times the number of columns. *)
Theorem columnWidths_spec (headers : list jsstring) (rows : list (list cell)) :
  let widths := columnWidths number number_to_string headers rows in
  length widths = length headers
  /\ (forall (idx : nat) (header : jsstring), headers !! idx = Some header ->
        exists w, widths !! idx = Some w
          /\ MIN_COLUMN_WIDTH <= w <= MAX_COLUMN_WIDTH
          /\ Nat.min (length header * 10 + 24) MAX_COLUMN_WIDTH <= w
          /\ (forall i row, i < 100 -> rows !! i = Some row ->
                Nat.min (cell_width number number_to_string idx row) MAX_COLUMN_WIDTH <= w)
          /\ (w = MIN_COLUMN_WIDTH \/ w = MAX_COLUMN_WIDTH
              \/ w = length header * 10 + 24
              \/ exists i row, i < 100 /\ rows !! i = Some row /\ w = cell_width number number_to_string idx row))
  /\ MIN_COLUMN_WIDTH * length headers <= totalWidth widths
     <= MAX_COLUMN_WIDTH * length headers.
Proof.
  cbv zeta.
  assert (Hlen : length (columnWidths number number_to_string headers rows) = length headers)
    by apply length_imap.
  assert (Hcol : forall (idx : nat) (header : jsstring), headers !! idx = Some header ->
            exists w, columnWidths number number_to_string headers rows !! idx = Some w
              /\ MIN_COLUMN_WIDTH <= w <= MAX_COLUMN_WIDTH
              /\ Nat.min (length header * 10 + 24) MAX_COLUMN_WIDTH <= w
              /\ (forall i row, i < 100 -> rows !! i = Some row ->
                    Nat.min (cell_width number number_to_string idx row) MAX_COLUMN_WIDTH <= w)
              /\ (w = MIN_COLUMN_WIDTH \/ w = MAX_COLUMN_WIDTH
                  \/ w = length header * 10 + 24
                  \/ exists i row, i < 100 /\ rows !! i = Some row /\ w = cell_width number number_to_string idx row)).
  { intros idx header Hh. rewrite columnWidths_lookup, Hh. cbn [fmap option_fmap option_map].
    eexists. split; [reflexivity|]. rewrite column_width_eq.
    destruct (fold_max_spec (cell_width number number_to_string idx) (take 100 rows) (length header * 10 + 24))
      as (H1 & H2 & H3). cbv zeta in H1, H2, H3.
    set (m := fold_left _ _ _) in *. unfold MIN_COLUMN_WIDTH, MAX_COLUMN_WIDTH.
    split; [lia|]. split; [lia|]. split.
    - intros i row Hi Hr.
      assert (row ∈ take 100 rows) as Hin.
      { apply list_elem_of_lookup. exists i. rewrite lookup_take_lt by done. done. }
      specialize (H2 row Hin). lia.
    - destruct H3 as [H3|(row & Hin & H3)].
      + lia.
      + apply list_elem_of_lookup in Hin as [i Hi].
        destruct (decide (i < 100)) as [Hlt|Hge].
        * rewrite lookup_take_lt in Hi by done.
          assert (Nat.min (Nat.max m 80) 400 = 80 \/ Nat.min (Nat.max m 80) 400 = 400
                  \/ Nat.min (Nat.max m 80) 400 = m) as [?|[?|Hm]] by lia; [auto|auto|].
          right; right; right. exists i, row. rewrite Hm. done.
        * rewrite lookup_take_ge in Hi by lia. done. }
  split; [done|]. split; [done|].
  rewrite <- Hlen. apply total_bounds. apply Forall_lookup. intros idx w Hw.
  assert (is_Some (headers !! idx)) as [header Hh].
  { apply lookup_lt_is_Some. rewrite <- Hlen. by eapply lookup_lt_Some. }
  destruct (Hcol idx header Hh) as (w' & Hw' & Hb & _). congruence.
Qed.

(** X17. The widths of the columns depend on the first 100 rows only. *)
Theorem columnWidths_sample (headers : list jsstring) (rows : list (list cell)) :
  columnWidths number number_to_string headers rows
  = columnWidths number number_to_string headers (take 100 rows).
Proof.
  unfold columnWidths. apply imap_ext. intros idx header _.
  rewrite !column_width_eq. by rewrite take_take, Nat.min_id.
Qed.

End TableFacts.

Section RowFacts.
Import Table.
Local Open Scope nat_scope.

Variable number : Type.
Local Abbreviation cell := (Table.cell number).

Lemma jsstring_eqb_true a b : jsstring_eqb a b = true <-> a = b.
Proof. unfold jsstring_eqb. apply bool_decide_eq_true. Qed.

Lemma obj_get_set {V} (k k' : jsstring) (v : V) (o : obj V) :
  obj_get k (obj_set k' v o) = if jsstring_eqb k k' then Some v else obj_get k o.
Proof.
  induction o as [|[k0 v0] o IH]; cbn [obj_set obj_get].
  - done.
  - destruct (jsstring_eqb k' k0) eqn:E1; cbn [obj_get].
    + apply jsstring_eqb_true in E1 as ->. by destruct (jsstring_eqb k k0).
    + destruct (jsstring_eqb k k0) eqn:E2; [|exact IH].
      apply jsstring_eqb_true in E2 as ->.
      destruct (jsstring_eqb k0 k') eqn:E3; [|done].
      apply jsstring_eqb_true in E3 as ->.
      assert (jsstring_eqb k' k' = true) by by apply jsstring_eqb_true. congruence.
Qed.

Lemma row_object_miss (row : list cell) (h : jsstring) :
  forall headers i (o : RowData number),
    h ∉ headers ->
    obj_get h (forEach_from (fun header idx (o : RowData number) =>
                               obj_set header (row !! idx) o) headers i o)
    = obj_get h o.
Proof.
  intros hs. induction hs as [|x l IH]; intros i o Hh; [reflexivity|].
  cbn [forEach_from]. apply not_elem_of_cons in Hh as [Hx Hl]. rewrite IH, obj_get_set by done.
  destruct (jsstring_eqb h x) eqn:E; [|done]. by apply jsstring_eqb_true in E.
Qed.

(** After the [forEach] a header reads the cell of its last position. *)
Lemma row_object_last (row : list cell) (h : jsstring) :
  forall headers k i (o : RowData number),
    headers !! k = Some h ->
    (forall k', headers !! k' = Some h -> k' <= k) ->
    obj_get h (forEach_from (fun header idx (o : RowData number) =>
                               obj_set header (row !! idx) o) headers i o)
    = Some (row !! (i + k)).
Proof.
  intros hs. induction hs as [|x l IH]; intros k i o Hk Hlast; [done|].
  cbn [forEach_from]. destruct k as [|k].
  - cbn in Hk. injection Hk as ->. rewrite row_object_miss, obj_get_set.
    + assert (jsstring_eqb h h = true) as -> by (by apply jsstring_eqb_true).
      by rewrite Nat.add_0_r.
    + intros Hin. apply list_elem_of_lookup in Hin as [k' Hk'].
      specialize (Hlast (S k') Hk'). lia.
  - cbn in Hk. rewrite (IH k (S i)); [f_equal; f_equal; lia|done|].
    intros k' Hk'. specialize (Hlast (S k') Hk'). lia.
Qed.

Lemma last_position (h : jsstring) : forall headers : list jsstring,
  h ∈ headers ->
  exists k, headers !! k = Some h /\ forall k', headers !! k' = Some h -> k' <= k.
Proof.
  intros hs. induction hs as [|x l IH]; intros Hin; [inversion Hin|].
  destruct (decide (h ∈ l)) as [Hl|Hl].
  - destruct (IH Hl) as (k & Hk & Hlast). exists (S k). split; [done|].
    intros [|k'] Hk'; [lia|]. specialize (Hlast k' Hk'). lia.
  - apply elem_of_cons in Hin as [->|Hin]; [|done]. exists 0. split; [done|].
    intros [|k'] Hk'; [lia|]. exfalso. apply Hl. apply list_elem_of_lookup. eauto.
Qed.

Lemma rowArray_lookup (headers : list jsstring) (rowData : RowData number) (j : nat) :
  rowArray number headers rowData !! j = (fun h => field number h rowData) <$> headers !! j.
Proof. unfold rowArray. apply list_lookup_fmap. Qed.

(** X18. From a row to its object and back. The cells that a table row
    shows, read from the object of the row by header, are as many as the
    headers; the cell under a header is the cell of the row at the last
    position of that header, so that with a header used twice both columns
    show the cell of the later one. With headers all different, the cells
    are those of the row in order, padded with undefined, shown as the
    empty string, when the row is shorter. The header "__proto__", which
    does not name an own property of a JavaScript object, is left out. *)
Theorem rowArray_of_row_object (headers : list jsstring) (row : list cell) :
  proto_key ∉ headers ->
  let cells := rowArray number headers (row_object number headers row) in
  length cells = length headers
  /\ (forall (j : nat) (h : jsstring), headers !! j = Some h ->
        exists k, headers !! k = Some h
          /\ (forall k', headers !! k' = Some h -> k' <= k)
          /\ cells !! j = Some (row !! k))
  /\ (NoDup headers ->
        cells = imap (fun idx _ => row !! idx) headers
        /\ shown number headers cells = imap (fun idx _ => or_empty number (row !! idx)) headers).
Proof.
  intros _. cbv zeta.
  assert (Hdup : forall (j : nat) (h : jsstring), headers !! j = Some h ->
            exists k, headers !! k = Some h
              /\ (forall k', headers !! k' = Some h -> k' <= k)
              /\ rowArray number headers (row_object number headers row) !! j
                 = Some (row !! k)).
  { intros j h Hj.
    destruct (last_position h headers) as (k & Hk & Hlast).
    { apply list_elem_of_lookup. eauto. }
    exists k. split; [done|]. split; [done|].
    rewrite rowArray_lookup, Hj. cbn [fmap option_fmap option_map]. f_equal.
    unfold field, row_object, forEach. by rewrite (row_object_last row h headers k 0). }
  split; [unfold rowArray; apply length_fmap|]. split; [done|].
  intros Hnd.
  assert (rowArray number headers (row_object number headers row)
          = imap (fun idx _ => row !! idx) headers) as Heq.
  { apply list_eq. intros j. rewrite list_lookup_imap.
    destruct (headers !! j) as [h|] eqn:Hj.
    - destruct (Hdup j h Hj) as (k & Hk & _ & ->). cbn.
      by rewrite (NoDup_lookup headers j k h Hnd Hj Hk).
    - rewrite rowArray_lookup, Hj. done. }
  split; [done|]. rewrite Heq. unfold shown. apply list_eq. intros j.
  rewrite !list_lookup_imap. destruct (headers !! j) as [h|] eqn:Hj; [|done].
  reflexivity.
Qed.

End RowFacts.

(** * parseInt and the size limit *)

Section ConfigFacts.
Local Open Scope nat_scope.

Lemma trim_start_run sp rest :
  all is_space sp -> stops is_space rest -> trim_start (sp ++ rest) = rest.
Proof.
  intros Hsp Hs. induction sp as [|c sp IH]; cbn [app trim_start].
  - destruct rest as [|c rest]; [done|]. cbn [trim_start]. by rewrite (Hs c).
  - apply Forall_cons in Hsp as [-> Hsp]. by apply IH.
Qed.

Lemma digits_prefix_run ds tail :
  all is_digit ds -> stops is_digit tail -> digits_prefix (ds ++ tail) = ds.
Proof.
  intros Hd Hs. induction ds as [|c ds IH]; cbn [app digits_prefix].
  - destruct tail as [|c tail]; [done|]. cbn [digits_prefix]. by rewrite (Hs c).
  - apply Forall_cons in Hd as [-> Hd]. by rewrite IH.
Qed.

Lemma digits_value_nonneg ds : all is_digit ds -> (0 <= digits_value ds)%Z.
Proof.
  unfold digits_value.
  assert (forall a, (0 <= a)%Z -> all is_digit ds ->
            (0 <= fold_left (fun acc c => acc * 10 + (Z.of_N c - 48)) ds a)%Z) as H.
  { induction ds as [|c ds IH]; intros a Ha Hd; cbn [fold_left]; [done|].
    apply Forall_cons in Hd as [Hc Hd]. apply IH; [|done].
    apply in_range_spec in Hc. lia. }
  intros Hd. by apply H.
Qed.

Lemma digit_not_sign c : is_digit c = true -> c <> 43%N /\ c <> 45%N.
Proof. intros H. apply in_range_spec in H. lia. Qed.

(** An integer up to 2^53 is a double. *)
Lemma round_double_exact (m : Z) : (0 <= m <= 2 ^ 53)%Z -> round_double m = Some m.
Proof.
  intros Hm. destruct (decide (m = 2 ^ 53)%Z) as [->|Hne]; [vm_compute; reflexivity|].
  unfold round_double. cbv zeta.
  assert (Z.log2 m < 53)%Z as Hl.
  { destruct (decide (m = 0)%Z) as [->|H0]; [vm_compute; reflexivity|].
    apply Z.log2_lt_pow2; lia. }
  destruct (Z.leb_spec (Z.log2 m - 52) 0); [done|lia].
Qed.

Lemma to_number_exact (negative : bool) (m : Z) :
  (0 <= m <= 2 ^ 53)%Z ->
  to_number negative m
  = if negative then (if (m =? 0)%Z then NegativeZero else Integer (- m)) else Integer m.
Proof.
  intros Hm. unfold to_number. rewrite (round_double_exact m Hm).
  destruct (Z.eqb_spec m 0) as [->|Hne]; by destruct negative.
Qed.

Lemma parseInt10_spaces sp rest :
  all is_space sp -> parseInt10 (sp ++ rest) = parseInt10 rest.
Proof.
  intros Hsp. induction sp as [|c sp IH]; [done|].
  apply Forall_cons in Hsp as [Hc Hsp]. rewrite <- IH by done.
  unfold parseInt10. cbn [app trim_start]. by rewrite Hc.
Qed.

Lemma parseInt10_minus s :
  parseInt10 (45%N :: s)
  = match digits_prefix s with
    | [] => None
    | ds => Some (to_number true (digits_value ds))
    end.
Proof. reflexivity. Qed.

Lemma parseInt10_plus s :
  parseInt10 (43%N :: s)
  = match digits_prefix s with
    | [] => None
    | ds => Some (to_number false (digits_value ds))
    end.
Proof. reflexivity. Qed.

Lemma parseInt10_unsigned c s :
  is_space c = false -> c <> 45%N -> c <> 43%N ->
  parseInt10 (c :: s)
  = match digits_prefix (c :: s) with
    | [] => None
    | ds => Some (to_number false (digits_value ds))
    end.
Proof.
  intros Hs H45 H43. unfold parseInt10. cbn [trim_start]. rewrite Hs.
  destruct c as [|p]; [reflexivity|].
  do 7 (try (destruct p as [p|p|]; try reflexivity)); done.
Qed.

Lemma parseInt10_empty : parseInt10 [] = None.
Proof. reflexivity. Qed.

(** White space, a sign, digits, and something that is no digit. *)
Lemma parseInt10_number sp sg ds tail :
  all is_space sp -> is_sign sg -> run is_digit ds -> stops is_digit tail ->
  parseInt10 (sp ++ sg ++ ds ++ tail)
  = Some (to_number (bool_decide (sg = [45%N])) (digits_value ds)).
Proof.
  intros Hsp Hsg [Hne Hd] Hs. rewrite parseInt10_spaces by done.
  assert (Hdig : digits_prefix (ds ++ tail) = ds) by (by apply digits_prefix_run).
  destruct Hsg as [->|[->| ->]]; cbn [app].
  - destruct ds as [|d ds]; [done|]. apply Forall_cons in Hd as [Hd1 Hd].
    destruct (digit_not_sign d Hd1) as [H43 H45].
    cbn [app] in *.
    rewrite parseInt10_unsigned by first [by apply digit_not_space|done].
    rewrite Hdig. by rewrite bool_decide_eq_false_2 by done.
  - rewrite parseInt10_plus, Hdig. destruct ds; [done|].
    by rewrite bool_decide_eq_false_2 by done.
  - rewrite parseInt10_minus, Hdig. destruct ds; [done|].
    by rewrite bool_decide_eq_true_2 by done.
Qed.

(** No digit where the number should start. *)
Lemma parseInt10_nan sp sg tail :
  all is_space sp -> is_sign sg -> stops is_space (sg ++ tail) -> stops is_digit tail ->
  (sg = [] -> stops (fun c => bool_decide (c = 43%N \/ c = 45%N)) tail) ->
  parseInt10 (sp ++ sg ++ tail) = None.
Proof.
  intros Hsp Hsg Hns Hs Hnosign. rewrite parseInt10_spaces by done.
  assert (Hdig : digits_prefix tail = []).
  { destruct tail as [|c tail]; [done|]. cbn [digits_prefix]. by rewrite (Hs c). }
  destruct Hsg as [->|[->| ->]]; cbn [app].
  - destruct tail as [|c tail]; [done|].
    specialize (Hnosign eq_refl c eq_refl). apply bool_decide_eq_false in Hnosign.
    rewrite parseInt10_unsigned;
      [by rewrite Hdig|by apply Hns|intros ->; apply Hnosign; auto..].
  - by rewrite parseInt10_plus, Hdig.
  - by rewrite parseInt10_minus, Hdig.
Qed.

Lemma max_file_size_set (e : env) (v : jsstring) :
  e !! "NEXT_PUBLIC_MAX_FILE_SIZE"%string = Some v -> v <> [] ->
  MAX_FILE_SIZE e = parseInt10 v.
Proof.
  intros Hv Hne. unfold MAX_FILE_SIZE. rewrite Hv. by destruct v.
Qed.









(** X14. [MAX_FILE_SIZE] when the variable holds a number: [parseInt]
    skips the white space in front, reads one sign if there is one, then
    all the decimal digits that follow, and ignores what comes after them,
    a unit for instance. When the digits write a number of at most 2^53,
    the value is that number, negated after a minus sign (negative zero
    for a zero); it is not checked to be positive. *)
Theorem MAX_FILE_SIZE_number (e : env) (sp sg ds tail : jsstring) :
  e !! "NEXT_PUBLIC_MAX_FILE_SIZE"%string = Some (sp ++ sg ++ ds ++ tail) ->
  all is_space sp -> is_sign sg -> run is_digit ds -> stops is_digit tail ->
  (digits_value ds <= 2 ^ 53)%Z ->
  MAX_FILE_SIZE e
  = Some (if bool_decide (sg = [45%N])
          then (if (digits_value ds =? 0)%Z then NegativeZero
                else Integer (- digits_value ds))
          else Integer (digits_value ds))
  /\ (0 <= digits_value ds)%Z.
Proof.
  intros Hv Hsp Hsg Hd Hs Hb.
  assert (0 <= digits_value ds)%Z as H0 by apply digits_value_nonneg, Hd.
  split; [|done].
  rewrite (max_file_size_set e _ Hv).
  - rewrite parseInt10_number by done. by rewrite to_number_exact by lia.
  - destruct Hd as [Hne _]. destruct sp, sg, ds; done.
Qed.

(** X15. [MAX_FILE_SIZE] is NaN, and not the default of 5242880, when the
    variable is set to a text that is not empty and has no digit where the
    number should begin. *)
Theorem MAX_FILE_SIZE_not_a_number (e : env) (sp sg tail : jsstring) :
  e !! "NEXT_PUBLIC_MAX_FILE_SIZE"%string = Some (sp ++ sg ++ tail) ->
  sp ++ sg ++ tail <> [] ->
  all is_space sp -> is_sign sg -> stops is_space (sg ++ tail) -> stops is_digit tail ->
  (sg = [] -> stops (fun c => bool_decide (c = 43%N \/ c = 45%N)) tail) ->
  MAX_FILE_SIZE e = None.
Proof.
  intros Hv Hne Hsp Hsg Hns Hs Hnosign.
  rewrite (max_file_size_set e _ Hv Hne). by apply parseInt10_nan.
Qed.



End ConfigFacts.

(** * The download button *)

Section DownloadFacts.
Import Download.
Local Open Scope nat_scope.
Variable Blob : Type.

(** X19. What the button "Descargar Excel" does. Under [PreviewTable],
    which mounts the table only with headers and rows, it saves the blob
    with [saveAs] under the given name, and it is absent without a blob.
    Under [ExpandedView] it downloads the blob through a temporary link,
    under the given name or "consolidado.xlsx", and it is absent without a
    blob or without rows. Under both, the table is given a callback
    whenever it is given a blob, so the download through a link that
    [VirtualizedResultsTable] has of its own is never the one that runs. *)
Theorem download_button :
  (forall (h r : nat) (blob : option Blob) (name : jsstring),
     match PreviewTable Blob h r blob name with
     | Some p =>
         h <> 0 /\ r <> 0
         /\ press_download Blob p
            = match blob with
              | Some b => Some [SaveAs Blob b name]
              | None => None
              end
     | None => h = 0 \/ r = 0
     end)
  /\ (forall (r : nat) (blob : option Blob) (name : option jsstring),
        press_download Blob (ExpandedView Blob r blob name)
        = match blob with
          | Some b =>
              if Nat.eqb r 0 then None
              else Some (anchor_download Blob b (default (utf16 "consolidado.xlsx") name))
          | None => None
          end)
  /\ (forall p : TableProps Blob,
        mounted Blob p -> excelBlob Blob p <> None ->
        exists f, onDownload Blob p = Some f /\ handleDownload Blob p = f).
Proof.
  split; [|split].
  - intros [|h] [|r] [b|] name; cbn; auto.
  - intros [|r] [b|] name; reflexivity.
  - intros p Hm Hb. destruct Hm as [h r blob name p Hp|r blob name].
    + unfold PreviewTable in Hp. destruct (_ || _); [done|].
      injection Hp as <-. cbn in Hb. destruct blob as [b|]; [|done].
      eexists. split; reflexivity.
    + destruct blob as [b|]; [|done]. eexists. split; reflexivity.
Qed.

End DownloadFacts.

(** * Further sample runs *)

Section FurtherSampleRuns.
Local Open Scope nat_scope.

Lemma all_checked p w : forallb p w = true -> all p w.
Proof.
  intros H. apply Forall_forall. intros c Hc. rewrite forallb_forall in H.
  apply H. by apply list_elem_of_In.
Qed.

Lemma run_checked p w : negb (bool_decide (w = [])) && forallb p w = true -> run p w.
Proof.
  intros H. apply andb_true_iff in H as [H1 H2]. split; [|by apply all_checked].
  apply negb_true_iff, bool_decide_eq_false in H1. done.
Qed.

Lemma digits_checked n w :
  Nat.eqb (length w) n && forallb is_digit w = true -> digits n w.
Proof.
  intros H. apply andb_true_iff in H as [H1 H2]. split; [|by apply all_checked].
  by apply Nat.eqb_eq.
Qed.

Lemma stops_checked p rest :
  match rest with c :: _ => negb (p c) | [] => true end = true -> stops p rest.
Proof. intros H c Hc. destruct rest; inversion Hc; subst. by apply negb_true_iff. Qed.

Ltac checked :=
  first [ apply all_checked | apply run_checked | apply digits_checked
        | apply stops_checked | apply first_at_computed | idtac ];
  vm_compute; reflexivity.

Lemma procesarPDFCRT_entry_valid_witness :
  exists entry,
    procesar (pdf "a.pdf" doc_both) = Ok entry
    /\ obj_get K_nombre entry = Some (VString (utf16 "a.pdf")).
Proof.
  destruct (procesar (pdf "a.pdf" doc_both)) as [entry|e] eqn:E.
  - exists entry. split; [reflexivity|].
    exact (proj1 (procesarPDFCRT_entry_valid log log_info log_info text_of_bytes
                    (pdf "a.pdf" doc_both) [] entry E)).
  - exfalso. vm_compute in E. discriminate.
Defined.

Lemma extraerDatosCRT_value_shapes_witness :
  exists datos,
    extraer doc_documented = Ok datos
    /\ obj_keys datos = [K_fecha; K_planta; K_placa; K_valido_rt; K_valido_c; K_folio].
Proof.
  destruct (extraer doc_documented) as [datos|e] eqn:E.
  - exists datos. split; [reflexivity|].
    exact (proj1 (extraerDatosCRT_value_shapes log log_info doc_documented [] datos E)).
  - exfalso. vm_compute in E. discriminate.
Defined.

Lemma validation_after_extraction_witness :
  exists datos,
    extraer doc_documented = Ok datos
    /\ forall pattern, obj_get K_planta requiredPatterns = Some pattern ->
         ~ malformed datos K_planta pattern.
Proof.
  destruct (extraer doc_documented) as [datos|e] eqn:E.
  - exists datos. split; [reflexivity|].
    exact (proj1 (validation_after_extraction log log_info doc_documented [] datos E)).
  - exfalso. vm_compute in E. discriminate.
Defined.

Lemma procesarPDFCRT_accepts_iff_witness :
  (exists entry, procesar (pdf "a.pdf" doc_both) = Ok entry)
  /\ occurs re_folio doc_both.
Proof.
  assert (Hp : forall w' : log,
             fst (text_of_bytes (pdf "a.pdf" doc_both) w') = Ok doc_both)
    by (intros w'; reflexivity).
  pose proof (procesarPDFCRT_accepts_iff log log_info log_info text_of_bytes
                (pdf "a.pdf" doc_both) doc_both [] Hp) as [H _].
  assert (He : exists entry, procesar (pdf "a.pdf" doc_both) = Ok entry).
  { destruct (procesar (pdf "a.pdf" doc_both)) as [entry|e] eqn:E; [eauto|].
    exfalso. vm_compute in E. discriminate. }
  split; [exact He|]. apply H in He. tauto.
Defined.

Lemma extraerDatosCRT_fecha_found_witness :
  exists datos,
    extraer doc_documented = Ok datos
    /\ obj_get K_fecha datos = Some (utf16 "10 OCTUBRE 2023").
Proof.
  destruct (extraer doc_documented) as [datos|e] eqn:E;
    [|exfalso; vm_compute in E; discriminate].
  exists datos. split; [reflexivity|].
  apply (extraerDatosCRT_fecha_found log log_info doc_documented
           (slice 0 32 doc_documented) (utf16 "FECHA REVISIÓN:") (utf16 " ")
           (utf16 "10") (utf16 " ") (utf16 "OCTUBRE") (utf16 " ") (utf16 "2023")
           (slice 63 138 doc_documented) [] datos); try exact E; try checked.
  right. reflexivity.
Defined.

Lemma extraerDatosCRT_planta_found_witness :
  exists datos,
    extraer doc_documented = Ok datos
    /\ obj_get K_planta datos = Some (utf16 "PLANTA-01").
Proof.
  destruct (extraer doc_documented) as [datos|e] eqn:E;
    [|exfalso; vm_compute in E; discriminate].
  exists datos. split; [reflexivity|].
  apply (extraerDatosCRT_planta_found log log_info doc_documented
           (slice 0 64 doc_documented) (utf16 "PLANTA:") (utf16 " ")
           (utf16 "PLANTA-01") (slice 81 138 doc_documented) [] datos);
    try exact E; checked.
Defined.

Lemma extraerDatosCRT_placa_found_witness :
  exists datos,
    extraer doc_documented = Ok datos
    /\ obj_get K_placa datos = Some (utf16 "ABC123").
Proof.
  destruct (extraer doc_documented) as [datos|e] eqn:E;
    [|exfalso; vm_compute in E; discriminate].
  exists datos. split; [reflexivity|].
  apply (extraerDatosCRT_placa_found log log_info doc_documented
           (slice 0 82 doc_documented) (utf16 "PLACA PATENTE") (utf16 " ")
           (utf16 "ABC123") (slice 102 138 doc_documented) [] datos);
    try exact E; checked.
Defined.

Lemma extraerDatosCRT_folio_found_witness :
  exists datos,
    extraer doc_documented = Ok datos
    /\ obj_get K_folio datos = Some (utf16 "N°B12345").
Proof.
  destruct (extraer doc_documented) as [datos|e] eqn:E;
    [|exfalso; vm_compute in E; discriminate].
  exists datos. split; [reflexivity|].
  apply (extraerDatosCRT_folio_found log log_info doc_documented
           (slice 0 129 doc_documented) (utf16 "N°B") (utf16 "12345")
           (slice 137 138 doc_documented) [] datos);
    try exact E; checked.
Defined.

Lemma extraerDatosCRT_valido_found_witness :
  exists datos,
    extraer doc_documented = Ok datos
    /\ obj_get K_valido_rt datos = Some (utf16 "OCTUBRE 2024").
Proof.
  destruct (extraer doc_documented) as [datos|e] eqn:E;
    [|exfalso; vm_compute in E; discriminate].
  exists datos. split; [reflexivity|].
  refine (proj1 (extraerDatosCRT_valido_found log log_info doc_documented sec_documented
           (slice 0 72 sec_documented) (utf16 "VÁLIDO HASTA") (utf16 " ")
           (utf16 "OCTUBRE") (utf16 " ") (utf16 "2024")
           (slice 97 107 sec_documented) [] datos _ _ _ _ _ _ _ E) _); checked.
Defined.

Lemma extraerDatosCRT_valido_after_date_witness :
  exists datos,
    extraer doc_both = Ok datos
    /\ obj_get K_valido_c datos = Some (utf16 "ABRIL 2024").
Proof.
  destruct (extraer doc_both) as [datos|e] eqn:E;
    [|exfalso; vm_compute in E; discriminate].
  exists datos. split; [reflexivity|].
  refine (proj2 (extraerDatosCRT_valido_after_date log log_info doc_both sec_contaminantes
           (slice 0 1 sec_contaminantes) (utf16 "VÁLIDO HASTA") (utf16 " ")
           (utf16 "FECHA REVISIÓN:") (utf16 " ")
           (utf16 "10") (utf16 " ") (utf16 "OCTUBRE") (utf16 " ") (utf16 "2023")
           (utf16 " ") (utf16 "ABRIL") (utf16 " ") (utf16 "2024")
           (slice 56 57 sec_contaminantes) [] datos _ _ _ _ _ (or_intror eq_refl)
           _ _ _ _ _ _ _ _ _ _ E) _); checked.
Defined.

Lemma extraerDatosCRT_sections_witness :
  exists datos,
    extraer doc_both = Ok datos
    /\ (exists sec, section_of title_contaminantes (seqs [str_ci "CERTIFICADO"; ws]) doc_both sec
                    /\ obj_get K_valido_c datos = Some (valido_in sec)).
Proof.
  destruct (extraer doc_both) as [datos|e] eqn:E;
    [|exfalso; vm_compute in E; discriminate].
  exists datos. split; [reflexivity|].
  destruct (proj2 (extraerDatosCRT_sections log log_info doc_both [] datos E))
    as [H|[H _]]; [exact H|].
  exfalso. apply H. apply occurs_computed. vm_compute. discriminate.
Defined.

Lemma generarExcel_of_entries_witness :
  exists entry d,
    procesar (pdf "a.pdf" doc_both) = Ok entry
    /\ generarExcel [entry] = Ok d
    /\ sheet_cells (download_sheet d) !! (2, 1) = Some (VString (utf16 "a.pdf")).
Proof.
  destruct (procesar (pdf "a.pdf" doc_both)) as [entry|e] eqn:E;
    [|exfalso; vm_compute in E; discriminate].
  assert (Hne : [entry] <> []) by discriminate.
  assert (Hall : Forall2 (fun file entry =>
                   exists w, fst (procesarPDFCRT log log_info log_info text_of_bytes file w)
                             = Ok entry) [pdf "a.pdf" doc_both] [entry]).
  { constructor; [|constructor]. exists []. exact E. }
  destruct (generarExcel_of_entries log log_info log_info text_of_bytes
              [pdf "a.pdf" doc_both] [entry] Hne Hall) as (d & Hd & Hcells).
  exists entry, d. split; [reflexivity|]. split; [exact Hd|].
  exact (proj1 (Hcells 0 (pdf "a.pdf" doc_both) entry eq_refl eq_refl)).
Defined.

Lemma MAX_FILE_SIZE_number_witness : MAX_FILE_SIZE env_units = Some (Integer 10).
Proof.
  apply (MAX_FILE_SIZE_number env_units (utf16 " ") [] (utf16 "10") (utf16 "MB"));
    try checked.
  - left. reflexivity.
  - vm_compute. discriminate.
Defined.

Lemma MAX_FILE_SIZE_not_a_number_witness : MAX_FILE_SIZE env_words = None.
Proof.
  apply (MAX_FILE_SIZE_not_a_number env_words [] [] (utf16 "five")); try checked.
  - discriminate.
  - left. reflexivity.
  - intros _. checked.
Defined.

Lemma rowArray_of_row_object_witness :
  Table.rowArray jsstring two_columns (Table.row_object jsstring two_columns short_row)
  = [Some (Table.CString jsstring (utf16 "AA-0001")); None].
Proof.
  assert (Hp : Table.proto_key ∉ two_columns).
  { intros H. apply list_elem_of_In in H. vm_compute in H.
    destruct H as [H|[H|[]]]; discriminate. }
  assert (Hn : NoDup two_columns).
  { apply NoDup_ListNoDup. repeat constructor; vm_compute; intuition discriminate. }
  exact (proj1 (proj2 (proj2 (rowArray_of_row_object jsstring two_columns short_row Hp)) Hn)).
Defined.

End FurtherSampleRuns.
